(** * DoRA embedding layer: a shallow embedding of
      [keras_hub/src/layers/modeling/dora_embeddings.py]

    The layer stores four Keras variables (frozen embeddings [W0], the
    low-rank factors [A] and [B], the magnitude vector [m]) and recomputes
    the effective embedding matrix from them on every use.

    Modelling choices.
    - Tensor elements range over a type [T] with the arithmetic the code
      asks of the Keras backend ([Scalar]).  Algebraic properties are proved
      at the instance of the real numbers (exact arithmetic); the IEEE
      special values are studied at the binary32 instance built on
      [SpecFloat].
    - Keras variables and layer objects are mutable Python objects: they
      live in a store ([world]) and are referred to by location, so that
      ownership and aliasing are visible in the statements.
    - Random initialisers draw from a stream carried by the world; theorems
      quantify over every stream, hence over every random outcome.
    - Regularisers and constraints are passed through by the source without
      being used in any computation and are left out of the records. *)

From Stdlib Require Import Reals Lra ZArith String.
From Stdlib Require Import Floats.SpecFloat.
From stdpp Require Import gmap strings list.

(** ** Backend arithmetic *)

(** What the layer needs from the element type of its tensors. [s_eps] is
    the literal [1e-8] of [_get_effective_embeddings]; [s_of_Z] converts
    the integer [rank] in [alpha / rank]; [s_leb] is the comparison of the
    check [alpha <= 0]. *)
Class Scalar (T : Type) := {
  s_zero : T;
  s_one : T;
  s_eps : T;
  s_add : T → T → T;
  s_mul : T → T → T;
  s_div : T → T → T;
  s_sqrt : T → T;
  s_max : T → T → T;
  s_of_Z : Z → T;
  s_leb : T → T → bool
}.

(** Exact arithmetic. *)
#[global] Instance R_scalar : Scalar R := {|
  s_zero := 0%R;
  s_one := 1%R;
  s_eps := (/ 100000000)%R;
  s_add := Rplus;
  s_mul := Rmult;
  s_div := Rdiv;
  s_sqrt := sqrt;
  s_max := Rmax;
  s_of_Z := IZR;
  s_leb := λ x y, if Rle_dec x y then true else false
|}.

(** IEEE 754 binary32, the default [floatx] of Keras. [maximum] follows
    NumPy: a NaN operand gives NaN. *)
Module F32.
Definition prec : Z := 24.
Definition emax : Z := 128.
Definition of_Z (z : Z) : spec_float := binary_normalize prec emax z 0 false.
Definition add := SFadd prec emax.
Definition mul := SFmul prec emax.
Definition div := SFdiv prec emax.
Definition sqrt := SFsqrt prec emax.
Definition maximum (x y : spec_float) : spec_float :=
  match SFcompare x y with
  | Some Lt => y
  | Some _ => x
  | None => S754_nan
  end.
Definition eps : spec_float := div (of_Z 1) (of_Z 100000000).
Definition is_zero (x : spec_float) : bool :=
  match x with S754_zero _ => true | _ => false end.
(** A finite number with a full mantissa of [prec] bits. *)
Definition is_normal (x : spec_float) : bool :=
  match x with
  | S754_finite _ m _ => (Zpos (digits2_pos m) =? prec)%Z
  | _ => false
  end.
(** The real number a finite binary32 value stands for; the zeros read
    0, and so do the special values, which stand for no real number. *)
Definition to_R (x : spec_float) : R :=
  match x with
  | S754_finite s m e =>
      ((if s then - IZR (Zpos m) else IZR (Zpos m)) * powerRZ 2 e)%R
  | _ => 0%R
  end.
End F32.

(** Where a real [y] lies from the integer [m] up to [m + 1], as the
    rounding of [SpecFloat] records it in a [location]. *)
Definition inbetween (m : Z) (l : location) (y : R) : Prop :=
  match l with
  | loc_Exact => y = IZR m
  | loc_Inexact Lt => (IZR m < y < IZR m + / 2)%R
  | loc_Inexact Eq => y = (IZR m + / 2)%R
  | loc_Inexact Gt => (IZR m + / 2 < y < IZR m + 1)%R
  end.

#[global] Instance F32_scalar : Scalar spec_float := {|
  s_zero := S754_zero false;
  s_one := F32.of_Z 1;
  s_eps := F32.eps;
  s_add := F32.add;
  s_mul := F32.mul;
  s_div := F32.div;
  s_sqrt := F32.sqrt;
  s_max := F32.maximum;
  s_of_Z := F32.of_Z;
  s_leb := SFleb
|}.

(** ** Tensors *)

(** A rank-1 tensor is a list, a rank-2 tensor a list of rows. NumPy and
    Keras arrays are rectangular by construction: statements about a
    matrix carry its shape ([has_shape]). *)
Inductive tensor (T : Type) :=
| Tensor1 (v : list T)
| Tensor2 (M : list (list T)).
Arguments Tensor1 {T} v.
Arguments Tensor2 {T} M.

Definition ncols {T} (M : list (list T)) : nat :=
  match M with
  | [] => 0
  | row :: _ => length row
  end.

(** The [.shape] attribute. *)
Definition shape {T} (t : tensor T) : list nat :=
  match t with
  | Tensor1 v => [length v]
  | Tensor2 M => [length M; ncols M]
  end.

Definition has_shape {T} (r c : nat) (M : list (list T)) : Prop :=
  length M = r ∧ Forall (λ row, length row = c) M.

(** All rows have the length of the first: what every array is. *)
Definition rect {T} (M : list (list T)) : Prop :=
  Forall (λ row, length row = ncols M) M.

(** Integer index tensors of any rank (the [inputs] of [call]) and the
    tensors [ops.take] makes of them: one table row per index. *)
#[warnings="-register-all"]
Inductive indices :=
| Ix (i : Z)
| Ixs (l : list indices).

#[warnings="-register-all"]
Inductive ndarray (T : Type) :=
| Row (v : list T)
| Stack (l : list (ndarray T)).
Arguments Row {T} v.
Arguments Stack {T} l.

(** Boolean tensors of any rank (the mask of [compute_mask]). *)
#[warnings="-register-all"]
Inductive mask :=
| Mb (b : bool)
| Ms (l : list mask).

(** ** The backend operations the layer calls *)

Module ops.
Section ops.
Context {T : Type} `{Scalar T}.

Definition zeros (r c : nat) : list (list T) := replicate r (replicate c s_zero).
Definition ones (r c : nat) : list (list T) := replicate r (replicate c s_one).

Definition dot (u v : list T) : T := foldr s_add s_zero (zip_with s_mul u v).

Definition column (j : nat) (M : list (list T)) : list T :=
  (λ row, nth j row s_zero) <$> M.

(** [ops.matmul(x1, x2)] for [x1] of shape (n,k) and [x2] of shape (k,m). *)
Definition matmul (X Y : list (list T)) : list (list T) :=
  (λ xrow, (λ j, dot xrow (column j Y)) <$> seq 0 (ncols Y)) <$> X.

(** [tensor * python_float]. *)
Definition multiply_scalar (X : list (list T)) (s : T) : list (list T) :=
  (λ row : list T, (λ x, s_mul x s) <$> row) <$> X.

(** NumPy broadcasting of a binary operation, for the two shape pairs the
    layer produces: (R,C) with (R,C), and (R,C) with (1,C). *)
Definition broadcast (f : T → T → T) (X Y : list (list T)) : list (list T) :=
  match Y with
  | [y] => (λ x, zip_with f x y) <$> X
  | _ => zip_with (zip_with f) X Y
  end.

Definition add := broadcast s_add.
Definition divide := broadcast s_div.
Definition multiply := broadcast s_mul.

Definition square (X : list (list T)) : list (list T) :=
  (λ row : list T, (λ x, s_mul x x) <$> row) <$> X.

(** The sums down each column, as a vector. *)
Definition column_sums (X : list (list T)) : list T :=
  foldr (zip_with s_add) (replicate (ncols X) s_zero) X.

(** [ops.sum(x, axis=0, keepdims=True)]: shape (1,C). *)
Definition sum_axis0_keepdims (X : list (list T)) : list (list T) :=
  [column_sums X].

Definition sqrt (X : list (list T)) : list (list T) :=
  (λ row : list T, s_sqrt <$> row) <$> X.

(** [ops.maximum(x, python_float)]. *)
Definition maximum (X : list (list T)) (c : T) : list (list T) :=
  (λ row : list T, (λ x, s_max x c) <$> row) <$> X.

(** [ops.expand_dims(v, axis=0)]: shape (C,) to (1,C). *)
Definition expand_dims (v : list T) : list (list T) := [v].

(** [ops.take(table, inputs, axis=0)] on indices inside the table;
    [None] when an index is outside it (what a backend then does is its
    own affair). *)
Fixpoint take (table : list (list T)) (inputs : indices) : option (ndarray T) :=
  match inputs with
  | Ix i => if (i <? 0)%Z then None else Row <$> table !! Z.to_nat i
  | Ixs l =>
      Stack <$>
        (fix go (l : list indices) : option (list (ndarray T)) :=
           match l with
           | [] => Some []
           | x :: l' =>
               match take table x, go l' with
               | Some y, Some ys => Some (y :: ys)
               | _, _ => None
               end
           end) l
  end.
End ops.

(** [ops.not_equal(inputs, c)] on an integer tensor: one boolean for each
    index. *)
Fixpoint not_equal (inputs : indices) (c : Z) : mask :=
  match inputs with
  | Ix i => Mb (negb (i =? c)%Z)
  | Ixs l => Ms ((λ x, not_equal x c) <$> l)
  end.

(** [ops.arange(start, stop, dtype="int32")]; [None] when a bound is not
    an int32. *)
Definition arange (start stop : Z) : option (list Z) :=
  if ((- 2 ^ 31 <=? start) && (stop <=? 2 ^ 31))%Z
  then Some ((λ i, start + Z.of_nat i)%Z <$> seq 0 (Z.to_nat (stop - start)))
  else None.

(** [ops.clip(x, x_min, x_max)]: [minimum(maximum(x, x_min), x_max)]. *)
Definition clip (x : list Z) (x_min x_max : Z) : list Z :=
  (λ p, Z.min (Z.max p x_min) x_max) <$> x.

(** One axis of NumPy broadcasting: an axis of the target length is kept,
    an axis of length 1 is repeated, any other is refused. *)
Definition stretch {A} (n : nat) (l : list A) : option (list A) :=
  if decide (length l = n) then Some l
  else match l with
       | [x] => Some (replicate n x)
       | _ => None
       end.

(** [ops.expand_dims(x, axis=0)] on a tensor of any rank. *)
Definition expand_dims0 {T} (x : ndarray T) : ndarray T := Stack [x].

(** [ops.broadcast_to(x, shape)] for a shape of the rank of [x]. *)
Fixpoint broadcast_to {T} (x : ndarray T) (shp : list nat) : option (ndarray T) :=
  match x, shp with
  | Row v, [c] => Row <$> stretch c v
  | Stack l, n :: shp' =>
      match mapM (λ y, broadcast_to y shp') l with
      | Some l' => Stack <$> stretch n l'
      | None => None
      end
  | _, _ => None
  end.
End ops.

Module np.
Section np.
Context {T : Type} `{Scalar T}.

(** [np.concatenate([x, y], axis=0)]. *)
Definition concatenate (X Y : list (list T)) : list (list T) := X ++ Y.

(** [np.linalg.norm(x, axis=0)]: the L2 norm of each column. *)
Definition linalg_norm_axis0 (X : list (list T)) : list T :=
  s_sqrt <$> ops.column_sums (ops.square X).
End np.
End np.

(** ** Exceptions *)

(** The exceptions of the module, named after the spec's taxonomy and
    identified by the message of the [ValueError] the source raises, and
    the exceptions Python and Keras raise underneath it. *)
Inductive exn :=
| InvalidParameter (param : string) (* "<param> must be positive, got ..." *)
| ShapeMismatch    (* "... shape ... doesn't match expected shape ..." *)
| NotBuilt         (* "Layer must be built before expanding vocabulary" *)
| InvalidArgument  (* "new_vocab_size (..) must be greater than current input_dim (..)" *)
| NoneWeight       (* a weight attribute that is still [None] is used as a tensor *)
| AssignShape      (* [Variable.assign] with a value of another shape *)
| IndexError       (* [ops.take] with an index outside the table *)
| BadReference     (* a location that holds nothing, or a tensor of another rank *).

Inductive res (A : Type) :=
| Ok (a : A)
| Raise (e : exn).
Arguments Ok {A} a.
Arguments Raise {A} e.

(** [keras.initializers.get] of the names the module uses. The random ones
    draw from the stream of the world. *)
Inductive Initializer := Zeros | Ones | Uniform | HeUniform.

(** [keras.layers.Embedding], as far as [convert_embedding_to_dora] reads it. *)
Module layers.
Record Embedding := {
  input_dim : Z;
  output_dim : Z;
  embeddings_initializer : Initializer;
  mask_zero : bool;
  input_length : option Z;
  name : string;
  built : bool;
  embeddings : option nat
}.
End layers.

Section Layer.
Context {T : Type} `{Scalar T}.

(** ** The layer object *)

(** The attributes [__init__] sets. The four weights are references to
    Keras variables, [None] until [build]. *)
Record DoRAEmbedding := {
  input_dim : Z;
  output_dim : Z;
  rank : Z;
  alpha : T;
  mask_zero : bool;
  input_length : option Z;
  sparse : bool;
  embeddings_initializer : Initializer;
  lora_a_initializer : Initializer;
  lora_b_initializer : Initializer;
  magnitude_initializer : Initializer;
  scaling : T;
  embeddings : option nat;
  lora_a : option nat;
  lora_b : option nat;
  magnitude : option nat;
  built : bool;
  name : string
}.

Definition set_embeddings (l : DoRAEmbedding) (v : option nat) : DoRAEmbedding :=
  {| input_dim := input_dim l; output_dim := output_dim l; rank := rank l;
     alpha := alpha l; mask_zero := mask_zero l; input_length := input_length l;
     sparse := sparse l; embeddings_initializer := embeddings_initializer l;
     lora_a_initializer := lora_a_initializer l;
     lora_b_initializer := lora_b_initializer l;
     magnitude_initializer := magnitude_initializer l; scaling := scaling l;
     embeddings := v; lora_a := lora_a l; lora_b := lora_b l;
     magnitude := magnitude l; built := built l; name := name l |}.

Definition set_lora_a (l : DoRAEmbedding) (v : option nat) : DoRAEmbedding :=
  {| input_dim := input_dim l; output_dim := output_dim l; rank := rank l;
     alpha := alpha l; mask_zero := mask_zero l; input_length := input_length l;
     sparse := sparse l; embeddings_initializer := embeddings_initializer l;
     lora_a_initializer := lora_a_initializer l;
     lora_b_initializer := lora_b_initializer l;
     magnitude_initializer := magnitude_initializer l; scaling := scaling l;
     embeddings := embeddings l; lora_a := v; lora_b := lora_b l;
     magnitude := magnitude l; built := built l; name := name l |}.

Definition set_lora_b (l : DoRAEmbedding) (v : option nat) : DoRAEmbedding :=
  {| input_dim := input_dim l; output_dim := output_dim l; rank := rank l;
     alpha := alpha l; mask_zero := mask_zero l; input_length := input_length l;
     sparse := sparse l; embeddings_initializer := embeddings_initializer l;
     lora_a_initializer := lora_a_initializer l;
     lora_b_initializer := lora_b_initializer l;
     magnitude_initializer := magnitude_initializer l; scaling := scaling l;
     embeddings := embeddings l; lora_a := lora_a l; lora_b := v;
     magnitude := magnitude l; built := built l; name := name l |}.

Definition set_magnitude (l : DoRAEmbedding) (v : option nat) : DoRAEmbedding :=
  {| input_dim := input_dim l; output_dim := output_dim l; rank := rank l;
     alpha := alpha l; mask_zero := mask_zero l; input_length := input_length l;
     sparse := sparse l; embeddings_initializer := embeddings_initializer l;
     lora_a_initializer := lora_a_initializer l;
     lora_b_initializer := lora_b_initializer l;
     magnitude_initializer := magnitude_initializer l; scaling := scaling l;
     embeddings := embeddings l; lora_a := lora_a l; lora_b := lora_b l;
     magnitude := v; built := built l; name := name l |}.

Definition set_built (l : DoRAEmbedding) (b : bool) : DoRAEmbedding :=
  {| input_dim := input_dim l; output_dim := output_dim l; rank := rank l;
     alpha := alpha l; mask_zero := mask_zero l; input_length := input_length l;
     sparse := sparse l; embeddings_initializer := embeddings_initializer l;
     lora_a_initializer := lora_a_initializer l;
     lora_b_initializer := lora_b_initializer l;
     magnitude_initializer := magnitude_initializer l; scaling := scaling l;
     embeddings := embeddings l; lora_a := lora_a l; lora_b := lora_b l;
     magnitude := magnitude l; built := b; name := name l |}.

(** ** The world: variables, layer objects, random stream *)

Record world := World {
  vars : gmap nat (tensor T);
  objs : gmap nat DoRAEmbedding;
  rng : nat → T;
  rng_pos : nat
}.

(** Computations that read and write the world and may raise. What was
    written before an exception stays written, as in Python. *)
Definition M (A : Type) : Type := world → res A * world.

Definition ret {A} (a : A) : M A := λ σ, (Ok a, σ).
Definition raise {A} (e : exn) : M A := λ σ, (Raise e, σ).
Definition bind {A B} (m : M A) (k : A → M B) : M B :=
  λ σ, match m σ with
       | (Ok a, σ') => k a σ'
       | (Raise e, σ') => (Raise e, σ')
       end.
End Layer.

Arguments DoRAEmbedding T : clear implicits.
Arguments world T : clear implicits.
Arguments M T A : clear implicits.

#[global] Instance M_ret {T} : MRet (M T) := @ret T.
#[global] Instance M_bind {T} : MBind (M T) := λ A B k m, bind m k.

Section Methods.
Context {T : Type} `{Scalar T}.

(** ** Store primitives *)

(** A new Keras variable holding [t]. *)
Definition new_variable (t : tensor T) : M T nat :=
  λ σ, let v := fresh (dom (vars σ)) in
       (Ok v, World (<[v := t]> (vars σ)) (objs σ) (rng σ) (rng_pos σ)).

(** The current value of a variable ([.numpy()], or its use as an operand). *)
Definition value (v : nat) : M T (tensor T) :=
  λ σ, match vars σ !! v with
       | Some t => (Ok t, σ)
       | None => (Raise BadReference, σ)
       end.

Definition write_variable (v : nat) (t : tensor T) : M T () :=
  λ σ, (Ok (), World (<[v := t]> (vars σ)) (objs σ) (rng σ) (rng_pos σ)).

(** [Variable.assign(value)]: Keras refuses a value of another shape. *)
Definition assign (v : nat) (t : tensor T) : M T () :=
  old ← value v;
  if decide (shape old = shape t)
  then write_variable v t
  else raise AssignShape.

Definition new_object (l : DoRAEmbedding T) : M T nat :=
  λ σ, let o := fresh (dom (objs σ)) in
       (Ok o, World (vars σ) (<[o := l]> (objs σ)) (rng σ) (rng_pos σ)).

(** Reading the attributes of [self]. *)
Definition getattr (self : nat) : M T (DoRAEmbedding T) :=
  λ σ, match objs σ !! self with
       | Some l => (Ok l, σ)
       | None => (Raise BadReference, σ)
       end.

(** Writing an attribute of [self]: [f] is one of the setters above. *)
Definition write_object (self : nat) (l : DoRAEmbedding T) : M T () :=
  λ σ, (Ok (), World (vars σ) (<[self := l]> (objs σ)) (rng σ) (rng_pos σ)).

Definition setattr {V} (self : nat) (f : DoRAEmbedding T → V → DoRAEmbedding T)
    (x : V) : M T () :=
  l ← getattr self;
  write_object self (f l x).

(** The next [n] values of the random stream. *)
Definition draw (n : nat) : M T (list T) :=
  λ σ, (Ok ((λ i, rng σ (rng_pos σ + i)) <$> seq 0 n),
        World (vars σ) (objs σ) (rng σ) (rng_pos σ + n)).

Fixpoint draw_rows (r c : nat) : M T (list (list T)) :=
  match r with
  | O => mret []
  | S r' => row ← draw c; rows ← draw_rows r' c; mret (row :: rows)
  end.

(** [initializer(shape=shape)]. *)
Definition call_initializer (init : Initializer) (shp : list nat) : M T (tensor T) :=
  match shp with
  | [n] =>
      match init with
      | Zeros => mret (Tensor1 (replicate n s_zero))
      | Ones => mret (Tensor1 (replicate n s_one))
      | Uniform | HeUniform => v ← draw n; mret (Tensor1 v)
      end
  | [r; c] =>
      match init with
      | Zeros => mret (Tensor2 (ops.zeros r c))
      | Ones => mret (Tensor2 (ops.ones r c))
      | Uniform | HeUniform => X ← draw_rows r c; mret (Tensor2 X)
      end
  | _ => raise BadReference
  end.

(** [self.add_weight(shape=..., initializer=...)]. *)
Definition add_weight (shp : list nat) (init : Initializer) : M T nat :=
  t ← call_initializer init shp;
  new_variable t.

(** A weight attribute used as a rank-2 (rank-1) tensor: fails when the
    attribute is still [None]. *)
Definition matrix_of (w : option nat) : M T (list (list T)) :=
  match w with
  | None => raise NoneWeight
  | Some v =>
      t ← value v;
      match t with
      | Tensor2 X => mret X
      | Tensor1 _ => raise BadReference
      end
  end.

Definition vector_of (w : option nat) : M T (list T) :=
  match w with
  | None => raise NoneWeight
  | Some v =>
      t ← value v;
      match t with
      | Tensor1 x => mret x
      | Tensor2 _ => raise BadReference
      end
  end.

Definition variable_of (w : option nat) : M T nat :=
  match w with
  | None => raise NoneWeight
  | Some v => mret v
  end.
End Methods.

Section DoRAEmbedding.
Context {T : Type} `{Scalar T}.

(** ** [DoRAEmbedding.__init__] *)

(** The attributes a validated call of [__init__] leaves on the object. *)
Definition attributes (input_dim output_dim rank : Z) (alpha : T)
    (embeddings_initializer lora_a_initializer lora_b_initializer
       magnitude_initializer : Initializer)
    (mask_zero : bool) (input_length : option Z) (sparse : bool)
    (name : string) : DoRAEmbedding T :=
  {| input_dim := input_dim; output_dim := output_dim; rank := rank;
     alpha := alpha; mask_zero := mask_zero; input_length := input_length;
     sparse := sparse;
     embeddings_initializer := embeddings_initializer;
     lora_a_initializer := lora_a_initializer;
     lora_b_initializer := lora_b_initializer;
     magnitude_initializer := magnitude_initializer;
     scaling := s_div alpha (s_of_Z rank);
     embeddings := None; lora_a := None; lora_b := None;
     magnitude := None; built := false; name := name |}.

Definition __init__ (input_dim output_dim rank : Z) (alpha : T)
    (embeddings_initializer lora_a_initializer lora_b_initializer
       magnitude_initializer : Initializer)
    (mask_zero : bool) (input_length : option Z) (sparse : bool)
    (name : string) : M T nat :=
  if (input_dim <=? 0)%Z then raise (InvalidParameter "input_dim")
  else if (output_dim <=? 0)%Z then raise (InvalidParameter "output_dim")
  else if (rank <=? 0)%Z then raise (InvalidParameter "rank")
  else if s_leb alpha s_zero then raise (InvalidParameter "alpha")
  else
    new_object
      (attributes input_dim output_dim rank alpha embeddings_initializer
         lora_a_initializer lora_b_initializer magnitude_initializer
         mask_zero input_length sparse name).

(** ** [DoRAEmbedding.build] *)

Definition build (self : nat) : M T () :=
  l ← getattr self;
  e ← add_weight [Z.to_nat (input_dim l); Z.to_nat (output_dim l)]
        (embeddings_initializer l);
  setattr self set_embeddings (Some e);;
  a ← add_weight [Z.to_nat (input_dim l); Z.to_nat (rank l)]
        (lora_a_initializer l);
  setattr self set_lora_a (Some a);;
  b ← add_weight [Z.to_nat (rank l); Z.to_nat (output_dim l)]
        (lora_b_initializer l);
  setattr self set_lora_b (Some b);;
  m ← add_weight [Z.to_nat (output_dim l)] (magnitude_initializer l);
  setattr self set_magnitude (Some m);;
  setattr self set_built true.

(** ** [DoRAEmbedding._get_effective_embeddings] *)

(** The local variables of the method, as functions of the four weights
    and the scaling factor. *)
Definition lora_adaptation (A B : list (list T)) (s : T) : list (list T) :=
  ops.multiply_scalar (ops.matmul A B) s.

Definition combined_embeddings (W0 A B : list (list T)) (s : T) : list (list T) :=
  ops.add W0 (lora_adaptation A B s).

Definition column_norms (W0 A B : list (list T)) (s : T) : list (list T) :=
  ops.maximum
    (ops.sqrt (ops.sum_axis0_keepdims (ops.square (combined_embeddings W0 A B s))))
    s_eps.

Definition normalized_embeddings (W0 A B : list (list T)) (s : T) : list (list T) :=
  ops.divide (combined_embeddings W0 A B s) (column_norms W0 A B s).

Definition dora_embeddings (W0 A B : list (list T)) (m : list T) (s : T)
    : list (list T) :=
  ops.multiply (normalized_embeddings W0 A B s) (ops.expand_dims m).

Definition _get_effective_embeddings (self : nat) : M T (list (list T)) :=
  l ← getattr self;
  A ← matrix_of (lora_a l);
  B ← matrix_of (lora_b l);
  W0 ← matrix_of (embeddings l);
  m ← vector_of (magnitude l);
  mret (dora_embeddings W0 A B m (scaling l)).

Definition get_effective_embeddings (self : nat) : M T (list (list T)) :=
  _get_effective_embeddings self.

(** The returned dict has the single key ["embeddings"]. *)
Definition merge_weights (self : nat) : M T (gmap string (list (list T))) :=
  E ← _get_effective_embeddings self;
  mret {[ "embeddings"%string := E ]}.

(** ** [DoRAEmbedding.call] *)

(** [ops.take] as the layer calls it: an index outside the table is an
    error. *)
Definition ops_take (table : list (list T)) (inputs : indices) : M T (ndarray T) :=
  match ops.take table inputs with
  | Some out => mret out
  | None => raise IndexError
  end.

(** The inputs are integer tensors, on which the cast to [int32] is the
    identity. *)
Definition call (self : nat) (inputs : indices) : M T (ndarray T) :=
  effective_embeddings ← _get_effective_embeddings self;
  l ← getattr self;
  if sparse l
  then ops_take effective_embeddings inputs
  else ops_take effective_embeddings inputs.

(** ** [DoRAEmbedding.load_pretrained_embeddings] *)

Definition load_pretrained_embeddings (self : nat)
    (pretrained_embeddings : list (list T)) : M T () :=
  l ← getattr self;
  w ← variable_of (embeddings l);
  old ← value w;
  if decide (shape (Tensor2 pretrained_embeddings) ≠ shape old)
  then raise ShapeMismatch
  else
    assign w (Tensor2 pretrained_embeddings);;
    l ← getattr self;
    mg ← variable_of (magnitude l);
    assign mg (Tensor1 (np.linalg_norm_axis0 pretrained_embeddings)).

(** ** [DoRAEmbedding.expand_vocabulary] *)

Definition expand_vocabulary (self : nat) (new_vocab_size : Z)
    (new_token_embeddings : option (list (list T))) : M T nat :=
  l ← getattr self;
  if (new_vocab_size <=? input_dim l)%Z then raise InvalidArgument
  else if negb (built l) then raise NotBuilt
  else
    let num_new_tokens := (new_vocab_size - input_dim l)%Z in
    expanded_layer ←
      __init__ new_vocab_size (output_dim l) (rank l) (alpha l)
        (embeddings_initializer l) (lora_a_initializer l)
        (lora_b_initializer l) (magnitude_initializer l)
        (mask_zero l) (input_length l) (sparse l)
        (name l +:+ "_expanded");
    build expanded_layer;;
    l ← getattr self;
    current_embeddings ← matrix_of (embeddings l);
    current_lora_a ← matrix_of (lora_a l);
    current_lora_b ← matrix_of (lora_b l);
    current_magnitude ← vector_of (magnitude l);
    new_embeddings ←
      match new_token_embeddings with
      | None =>
          t ← call_initializer (embeddings_initializer l)
                [Z.to_nat num_new_tokens; Z.to_nat (output_dim l)];
          match t with Tensor2 X => mret X | Tensor1 _ => raise BadReference end
      | Some X =>
          if decide (shape (Tensor2 X)
                     ≠ [Z.to_nat num_new_tokens; Z.to_nat (output_dim l)])
          then raise ShapeMismatch
          else mret X
      end;
    new_lora_a_rows ←
      (t ← call_initializer (lora_a_initializer l)
             [Z.to_nat num_new_tokens; Z.to_nat (rank l)];
       match t with Tensor2 X => mret X | Tensor1 _ => raise BadReference end);
    let expanded_embeddings := np.concatenate current_embeddings new_embeddings in
    let expanded_lora_a := np.concatenate current_lora_a new_lora_a_rows in
    x ← getattr expanded_layer;
    w ← variable_of (embeddings x);
    assign w (Tensor2 expanded_embeddings);;
    a ← variable_of (lora_a x);
    assign a (Tensor2 expanded_lora_a);;
    b ← variable_of (lora_b x);
    assign b (Tensor2 current_lora_b);;
    m ← variable_of (magnitude x);
    assign m (Tensor1 current_magnitude);;
    mret expanded_layer.

(** ** [convert_embedding_to_dora] *)

(** The defaults of [__init__] fill the arguments the function leaves out. *)
Definition convert_embedding_to_dora (embedding_layer : layers.Embedding)
    (rank : Z) (alpha : T) : M T nat :=
  dora_layer ←
    __init__ (layers.input_dim embedding_layer)
      (layers.output_dim embedding_layer) rank alpha
      (layers.embeddings_initializer embedding_layer) HeUniform Zeros Ones
      (layers.mask_zero embedding_layer)
      (layers.input_length embedding_layer) false
      (layers.name embedding_layer +:+ "_dora");
  if layers.built embedding_layer
  then
    build dora_layer;;
    W ← matrix_of (layers.embeddings embedding_layer);
    load_pretrained_embeddings dora_layer W;;
    mret dora_layer
  else mret dora_layer.
End DoRAEmbedding.

(** ** The effective matrix as the specification words it *)

Section Specification.
Context {T : Type} `{Scalar T}.

(** Entry [X[i,j]]. *)
Definition entry (X : list (list T)) (i j : nat) : T :=
  nth j (nth i X []) s_zero.

(** [Σ_{i<n} f i]. *)
Definition big_sum (n : nat) (f : nat → T) : T :=
  foldr s_add s_zero (f <$> seq 0 n).

(** The matrix with entry [f i j] at row [i < r], column [j < c]. *)
Definition tabulate (r c : nat) (f : nat → nat → T) : list (list T) :=
  (λ i, f i <$> seq 0 c) <$> seq 0 r.

Section Steps.
Variables (r c k : nat) (W0 A B : list (list T)) (m : list T) (s : T).

(** 1. [delta = (A @ B) * s]. *)
Definition spec_delta (i j : nat) : T :=
  s_mul (big_sum k (λ x, s_mul (entry A i x) (entry B x j))) s.

(** 2. [combined = W0 + delta]. *)
Definition spec_combined (i j : nat) : T :=
  s_add (entry W0 i j) (spec_delta i j).

(** 3, 4. [norm[j] = max(sqrt(Σ_i combined[i,j]^2), 1e-8)]. *)
Definition spec_norm (j : nat) : T :=
  s_max
    (s_sqrt (big_sum r (λ i, s_mul (spec_combined i j) (spec_combined i j))))
    s_eps.

(** 5, 6. [E[i,j] = (combined[i,j] / norm[j]) * m[j]]. *)
Definition spec_E (i j : nat) : T :=
  s_mul (s_div (spec_combined i j) (spec_norm j)) (nth j m s_zero).

Definition effective_matrix : list (list T) := tabulate r c spec_E.
End Steps.

(** ** Built layers *)

(** The variables a layer object refers to. *)
Definition weights (l : DoRAEmbedding T) : list nat :=
  omap (λ w, w) [embeddings l; lora_a l; lora_b l; magnitude l].

(** [self] is a layer object that [__init__] has validated and [build]
    has completed, and whose four variables currently hold [W0], [A], [B]
    and [m]: the state in which the layer is used. Keras keeps the shape
    of a variable fixed, so the shapes are those [build] asked for, and
    [build] gave the layer four variables of its own. *)
Record built_layer (σ : world T) (self : nat) (l : DoRAEmbedding T)
    (W0 A B : list (list T)) (m : list T) : Prop := {
  bl_self : objs σ !! self = Some l;
  bl_built : built l = true;
  bl_input_dim : (0 < input_dim l)%Z;
  bl_output_dim : (0 < output_dim l)%Z;
  bl_rank : (0 < rank l)%Z;
  bl_alpha : s_leb (alpha l) s_zero = false;
  bl_scaling : scaling l = s_div (alpha l) (s_of_Z (rank l));
  bl_embeddings : ∃ v, embeddings l = Some v ∧ vars σ !! v = Some (Tensor2 W0);
  bl_lora_a : ∃ v, lora_a l = Some v ∧ vars σ !! v = Some (Tensor2 A);
  bl_lora_b : ∃ v, lora_b l = Some v ∧ vars σ !! v = Some (Tensor2 B);
  bl_magnitude : ∃ v, magnitude l = Some v ∧ vars σ !! v = Some (Tensor1 m);
  bl_W0 : has_shape (Z.to_nat (input_dim l)) (Z.to_nat (output_dim l)) W0;
  bl_A : has_shape (Z.to_nat (input_dim l)) (Z.to_nat (rank l)) A;
  bl_B : has_shape (Z.to_nat (rank l)) (Z.to_nat (output_dim l)) B;
  bl_m : length m = Z.to_nat (output_dim l);
  bl_distinct : NoDup (weights l)
}.

(** The attributes of [l] once [build] has stored the four new
    variables on it. *)
Definition built_attributes (l : DoRAEmbedding T) (e a b mg : nat)
    : DoRAEmbedding T :=
  set_built
    (set_magnitude
       (set_lora_b (set_lora_a (set_embeddings l (Some e)) (Some a)) (Some b))
       (Some mg))
    true.

(** A layer object straight out of [__init__]: nothing allocated yet. *)
Definition unbuilt (l : DoRAEmbedding T) : Prop :=
  built l = false ∧ embeddings l = None ∧ lora_a l = None
  ∧ lora_b l = None ∧ magnitude l = None.

(** [σ'] has every variable and every layer object of [σ], unchanged. *)
Definition preserves (σ σ' : world T) : Prop :=
  (∀ v, v ∈ dom (vars σ) → vars σ' !! v = vars σ !! v)
  ∧ (∀ o, o ∈ dom (objs σ) → objs σ' !! o = objs σ !! o).

(** ** Running a computation *)

(** [m], run from [σ], ends with a result and a world satisfying [Φ]. *)
Definition wp {A} (m : M T A) (σ : world T) (Φ : res A → world T → Prop) : Prop :=
  Φ (m σ).1 (m σ).2.

Definition set_sparse (l : DoRAEmbedding T) (b : bool) : DoRAEmbedding T :=
  {| input_dim := input_dim l; output_dim := output_dim l; rank := rank l;
     alpha := alpha l; mask_zero := mask_zero l; input_length := input_length l;
     sparse := b; embeddings_initializer := embeddings_initializer l;
     lora_a_initializer := lora_a_initializer l;
     lora_b_initializer := lora_b_initializer l;
     magnitude_initializer := magnitude_initializer l; scaling := scaling l;
     embeddings := embeddings l; lora_a := lora_a l; lora_b := lora_b l;
     magnitude := magnitude l; built := built l; name := name l |}.

(** [m] only reads variables: its result depends on nothing else, and
    it leaves the world as it was. *)
Definition reads_vars {A} (m : M T A) : Prop :=
  ∀ vs, ∃ r, ∀ os g p, m (World vs os g p) = (r, World vs os g p).

(** The world [σ] with the attributes of [self] replaced by [l]. *)
Definition with_object (σ : world T) (self : nat) (l : DoRAEmbedding T) : world T :=
  World (vars σ) (<[self := l]> (objs σ)) (rng σ) (rng_pos σ).

End Specification.

(** ** Exact arithmetic: norms and tolerances *)

(** The raw (unfloored) L2 norm of column [j] of [W0 + (A @ B) * s]. *)
Definition raw_norm (r k : nat) (W0 A B : list (list R)) (s : R) (j : nat) : R :=
  sqrt (big_sum r (λ i, spec_combined k W0 A B s i j
                        * spec_combined k W0 A B s i j)%R).

(** The L2 norm of column [j] of a dense matrix [W]. *)
Definition dense_norm (r : nat) (W : list (list R)) (j : nat) : R :=
  sqrt (big_sum r (λ i, entry W i j * entry W i j)%R).


(** ** The other methods of [DoRAEmbedding] *)

(** The dict [get_config] returns, one field for each key. The
    initialisers stand for their serialised form, which
    [keras.initializers.get] reads back. *)
Module config.
Record t (T : Type) := {
  name : string;
  input_dim : Z;
  output_dim : Z;
  rank : Z;
  alpha : T;
  embeddings_initializer : Initializer;
  lora_a_initializer : Initializer;
  lora_b_initializer : Initializer;
  magnitude_initializer : Initializer;
  mask_zero : bool;
  input_length : option Z;
  sparse : bool
}.
Arguments name {T} _.
Arguments input_dim {T} _.
Arguments output_dim {T} _.
Arguments rank {T} _.
Arguments alpha {T} _.
Arguments embeddings_initializer {T} _.
Arguments lora_a_initializer {T} _.
Arguments lora_b_initializer {T} _.
Arguments magnitude_initializer {T} _.
Arguments mask_zero {T} _.
Arguments input_length {T} _.
Arguments sparse {T} _.
End config.

Section OtherMethods.
Context {T : Type} `{Scalar T}.

(** ** [DoRAEmbedding.compute_mask] *)

Definition compute_mask (self : nat) (inputs : indices) : M T (option mask) :=
  l ← getattr self;
  if negb (mask_zero l) then mret None
  else mret (Some (ops.not_equal inputs 0)).

(** ** [DoRAEmbedding.get_dora_parameters] *)

(** The values of the dict are the attributes themselves: references to
    the Keras variables, or [None] before [build]. *)
Definition get_dora_parameters (self : nat) : M T (gmap string (option nat)) :=
  l ← getattr self;
  mret (<["lora_a" := lora_a l]>
          (<["lora_b" := lora_b l]> {[ "magnitude"%string := magnitude l ]})).

(** ** [DoRAEmbedding.count_params] *)

Definition count_params (self : nat) : M T Z :=
  l ← getattr self;
  mret (input_dim l * rank l + rank l * output_dim l + output_dim l)%Z.

(** ** [DoRAEmbedding.get_config], [DoRAEmbedding.from_config] *)

Definition get_config (self : nat) : M T (config.t T) :=
  l ← getattr self;
  mret {| config.name := name l;
          config.input_dim := input_dim l;
          config.output_dim := output_dim l;
          config.rank := rank l;
          config.alpha := alpha l;
          config.embeddings_initializer := embeddings_initializer l;
          config.lora_a_initializer := lora_a_initializer l;
          config.lora_b_initializer := lora_b_initializer l;
          config.magnitude_initializer := magnitude_initializer l;
          config.mask_zero := mask_zero l;
          config.input_length := input_length l;
          config.sparse := sparse l |}.

(** [cls] called with the entries of [config] as keyword arguments. *)
Definition from_config (c : config.t T) : M T nat :=
  __init__ (config.input_dim c) (config.output_dim c) (config.rank c)
    (config.alpha c) (config.embeddings_initializer c)
    (config.lora_a_initializer c) (config.lora_b_initializer c)
    (config.magnitude_initializer c) (config.mask_zero c)
    (config.input_length c) (config.sparse c) (config.name c).

(** ** [DoRAEmbedding.compute_output_shape] *)

(** A dimension of [input_shape] may be [None]. *)
Definition compute_output_shape (self : nat) (input_shape : list (option Z))
    : M T (list (option Z)) :=
  l ← getattr self;
  match input_length l with
  | Some _ => mret (input_shape ++ [Some (output_dim l)])
  | None => mret (input_shape ++ [Some (output_dim l)])
  end.
End OtherMethods.

(** ** [DoRAPositionEmbedding] *)

(** The layer object is passed to its methods and returned by the ones
    that set attributes; its four variables live in the world. *)
Module DoRAPositionEmbedding.
(** What Python and the backend raise underneath this class, which
    checks none of its arguments, besides the exceptions met above. *)
Inductive error :=
| ZeroDivisionError  (* [alpha / rank] with [rank = 0] *)
| NegativeDimension  (* [add_weight] with a negative dimension *)
| Int32Range         (* [ops.arange(..., dtype="int32")] outside int32 *)
| BroadcastShape     (* [ops.broadcast_to] between incompatible shapes *)
| Inner (e : exn).

Inductive outcome (A : Type) :=
| Return (a : A)
| Throw (e : error).
Arguments Return {A} a.
Arguments Throw {A} e.

Section class.
Context {T : Type} `{Scalar T}.

Record t := {
  sequence_length : Z;
  output_dim : Z;
  rank : Z;
  alpha : T;
  initializer : Initializer;
  lora_a_initializer : Initializer;
  lora_b_initializer : Initializer;
  magnitude_initializer : Initializer;
  scaling : T;
  position_embeddings : option nat;
  lora_a : option nat;
  lora_b : option nat;
  magnitude : option nat;
  built : bool
}.

Definition PM (A : Type) : Type := world T → outcome A * world T.

Definition pure {A} (a : A) : PM A := λ σ, (Return a, σ).
Definition throw {A} (e : error) : PM A := λ σ, (Throw e, σ).
Definition and_then {A B} (m : PM A) (k : A → PM B) : PM B :=
  λ σ, match m σ with
       | (Return a, σ') => k a σ'
       | (Throw e, σ') => (Throw e, σ')
       end.

(** A computation of the module above, run here. *)
Definition lift {A} (m : M T A) : PM A :=
  λ σ, match m σ with
       | (Ok a, σ') => (Return a, σ')
       | (Raise e, σ') => (Throw (Inner e), σ')
       end.

Definition of_option {A} (e : error) (o : option A) : PM A :=
  match o with
  | Some a => pure a
  | None => throw e
  end.

(** *** [__init__] *)

(** No argument is validated; the quotient [alpha / rank] of a float
    by the integer zero raises. *)
Definition __init__ (sequence_length output_dim rank : Z) (alpha : T)
    (initializer lora_a_initializer lora_b_initializer
       magnitude_initializer : Initializer) : outcome t :=
  if (rank =? 0)%Z then Throw ZeroDivisionError
  else
    Return
      {| sequence_length := sequence_length; output_dim := output_dim;
         rank := rank; alpha := alpha; initializer := initializer;
         lora_a_initializer := lora_a_initializer;
         lora_b_initializer := lora_b_initializer;
         magnitude_initializer := magnitude_initializer;
         scaling := s_div alpha (s_of_Z rank);
         position_embeddings := None; lora_a := None; lora_b := None;
         magnitude := None; built := false |}.

(** *** [build] *)

(** [self.add_weight(shape=..., initializer=...)] on dimensions that
    nothing has checked: Keras refuses a negative one. *)
Definition add_weight (shp : list Z) (init : Initializer) : PM nat :=
  if forallb (λ d, 0 <=? d)%Z shp
  then lift (add_weight (Z.to_nat <$> shp) init)
  else throw NegativeDimension.

(** The attributes are set as the weights are created; the object
    returned is the layer after the last assignment. *)
Definition build (self : t) : PM t :=
  and_then
    (add_weight [sequence_length self; output_dim self] (initializer self))
    (λ pe,
  and_then
    (add_weight [sequence_length self; rank self] (lora_a_initializer self))
    (λ a,
  and_then
    (add_weight [rank self; output_dim self] (lora_b_initializer self))
    (λ b,
  and_then
    (add_weight [output_dim self] (magnitude_initializer self))
    (λ m,
  pure
    {| sequence_length := sequence_length self;
       output_dim := output_dim self; rank := rank self;
       alpha := alpha self; initializer := initializer self;
       lora_a_initializer := lora_a_initializer self;
       lora_b_initializer := lora_b_initializer self;
       magnitude_initializer := magnitude_initializer self;
       scaling := scaling self;
       position_embeddings := Some pe; lora_a := Some a;
       lora_b := Some b; magnitude := Some m; built := true |})))).

(** *** [_get_effective_position_embeddings] *)

Definition _get_effective_position_embeddings (self : t) : M T (list (list T)) :=
  A ← matrix_of (lora_a self);
  B ← matrix_of (lora_b self);
  let lora_adaptation := ops.multiply_scalar (ops.matmul A B) (scaling self) in
  P ← matrix_of (position_embeddings self);
  let combined_embeddings := ops.add P lora_adaptation in
  let column_norms :=
    ops.sqrt (ops.sum_axis0_keepdims (ops.square combined_embeddings)) in
  let column_norms := ops.maximum column_norms s_eps in
  let normalized_embeddings := ops.divide combined_embeddings column_norms in
  m ← vector_of (magnitude self);
  mret (ops.multiply normalized_embeddings (ops.expand_dims m)).

(** *** [call] *)

(** [input_shape[-2]] on a Python tuple. *)
Definition getitem_minus2 (input_shape : list nat) : option nat :=
  if decide (2 ≤ length input_shape)
  then input_shape !! (length input_shape - 2)
  else None.

(** Only the shape of [inputs] is read: the method takes the shape. *)
Definition call (self : t) (input_shape : list nat) (start_index : Z)
    : PM (ndarray T) :=
  and_then (of_option (Inner IndexError) (getitem_minus2 input_shape))
    (λ seq_len,
  and_then (lift (_get_effective_position_embeddings self))
    (λ effective_pos_embeddings,
  and_then
    (of_option Int32Range
       (ops.arange start_index (start_index + Z.of_nat seq_len)))
    (λ positions,
  let positions := ops.clip positions 0 (sequence_length self - 1) in
  and_then
    (of_option (Inner IndexError)
       (ops.take effective_pos_embeddings (Ixs (Ix <$> positions))))
    (λ position_embeddings,
  let position_embeddings := ops.expand_dims0 position_embeddings in
  and_then (of_option (Inner IndexError) (input_shape !! 0))
    (λ batch,
  of_option BroadcastShape
    (ops.broadcast_to position_embeddings
       [batch; seq_len; Z.to_nat (output_dim self)])))))).

(** A layer that [build] has completed on positive dimensions, whose
    four variables currently hold [P], [A], [B] and [m]. *)
Record built_position (σ : world T) (self : t)
    (P A B : list (list T)) (m : list T) : Prop := {
  bp_sequence_length : (0 < sequence_length self)%Z;
  bp_output_dim : (0 < output_dim self)%Z;
  bp_rank : (0 < rank self)%Z;
  bp_position_embeddings :
    ∃ v, position_embeddings self = Some v ∧ vars σ !! v = Some (Tensor2 P);
  bp_lora_a : ∃ v, lora_a self = Some v ∧ vars σ !! v = Some (Tensor2 A);
  bp_lora_b : ∃ v, lora_b self = Some v ∧ vars σ !! v = Some (Tensor2 B);
  bp_magnitude : ∃ v, magnitude self = Some v ∧ vars σ !! v = Some (Tensor1 m);
  bp_P : has_shape (Z.to_nat (sequence_length self)) (Z.to_nat (output_dim self)) P;
  bp_A : has_shape (Z.to_nat (sequence_length self)) (Z.to_nat (rank self)) A;
  bp_B : has_shape (Z.to_nat (rank self)) (Z.to_nat (output_dim self)) B;
  bp_m : length m = Z.to_nat (output_dim self)
}.
End class.

Arguments t T : clear implicits.
Arguments PM T A : clear implicits.
End DoRAPositionEmbedding.

(** ** Shapes of index tensors and of what they look up *)

Section Gather.
Context {T : Type} `{Scalar T}.

(** [x] is an index tensor of shape [s]. *)
Fixpoint indices_shape (s : list nat) (x : indices) : Prop :=
  match s, x with
  | [], Ix _ => True
  | n :: s', Ixs l => length l = n ∧ Forall (indices_shape s') l
  | _, _ => False
  end.

(** [x] is a tensor of shape [s ++ [c]]. *)
Fixpoint ndarray_shape (s : list nat) (c : nat) (x : ndarray T) : Prop :=
  match s, x with
  | [], Row v => length v = c
  | n :: s', Stack l => length l = n ∧ Forall (ndarray_shape s' c) l
  | _, _ => False
  end.

(** [x] is a boolean tensor of shape [s]. *)
Fixpoint mask_shape (s : list nat) (x : mask) : Prop :=
  match s, x with
  | [], Mb _ => True
  | n :: s', Ms l => length l = n ∧ Forall (mask_shape s') l
  | _, _ => False
  end.

(** Every index of [x] is a row number of a table of [r] rows. *)
#[warnings="-register-all"]
Inductive in_range (r : nat) : indices → Prop :=
| in_range_Ix i : (0 ≤ i < Z.of_nat r)%Z → in_range r (Ix i)
| in_range_Ixs l : Forall (in_range r) l → in_range r (Ixs l).

(** The element of an index tensor, of a mask and of a looked-up tensor
    at a position (one number for each axis). *)
Fixpoint index_at (x : indices) (pos : list nat) : option Z :=
  match pos, x with
  | [], Ix i => Some i
  | p :: pos', Ixs l =>
      match l !! p with
      | Some y => index_at y pos'
      | None => None
      end
  | _, _ => None
  end.

Fixpoint mask_at (x : mask) (pos : list nat) : option bool :=
  match pos, x with
  | [], Mb b => Some b
  | p :: pos', Ms l =>
      match l !! p with
      | Some y => mask_at y pos'
      | None => None
      end
  | _, _ => None
  end.

Fixpoint row_at (x : ndarray T) (pos : list nat) : option (list T) :=
  match pos, x with
  | [], Row v => Some v
  | p :: pos', Stack l =>
      match l !! p with
      | Some y => row_at y pos'
      | None => None
      end
  | _, _ => None
  end.

(** The number of scalars a tensor holds. *)
Definition size (t : tensor T) : nat :=
  match t with
  | Tensor1 v => length v
  | Tensor2 M => sum_list (length <$> M)
  end.
End Gather.

(** ** Concrete layers *)

(** A binary32 world: nothing allocated, and a random stream 1, 2, 3, ... *)
Definition demo_rng (i : nat) : spec_float := F32.of_Z (Z.of_nat i + 1).

Definition empty_world : world spec_float := World ∅ ∅ demo_rng 0.

(** [DoRAEmbedding(input_dim=10, output_dim=8, rank=4)], not built: the
    layer object is at location 0. *)
Definition unbuilt_world : world spec_float :=
  (__init__ 10 8 4 (F32.of_Z 1) Uniform HeUniform Zeros Ones
     false None false "embedding" empty_world).2.

(** [DoRAEmbedding(input_dim=2, output_dim=3, rank=4)] after [build]: the
    rank exceeds both dimensions. The layer object is at location 0, its
    variables at 0 to 3. *)
Definition demo_world : world spec_float :=
  ((l ← __init__ 2 3 4 (F32.of_Z 1) Uniform HeUniform Zeros Ones
          false None false "embedding";
    build l) empty_world).2.

Definition demo_layer : DoRAEmbedding spec_float :=
  built_attributes
    (attributes 2 3 4 (F32.of_Z 1) Uniform HeUniform Zeros Ones
       false None false "embedding") 0 1 2 3.

Definition demo_W0 : list (list spec_float) :=
  [F32.of_Z <$> [1; 2; 3]; F32.of_Z <$> [4; 5; 6]]%Z.

Definition demo_A : list (list spec_float) :=
  [F32.of_Z <$> [7; 8; 9; 10]; F32.of_Z <$> [11; 12; 13; 14]]%Z.

Definition demo_B : list (list spec_float) := ops.zeros 4 3.

Definition demo_m : list spec_float := replicate 3 (F32.of_Z 1).





(** A built 1x1 layer of rank 1 and [alpha = 1] holding [W0 = [[w]]],
    [A = [[a]]], [B = [[b]]] and [m = [g]]: the layer object is at location
    0, its variables at 0 to 3. *)
Definition unit_layer : DoRAEmbedding R :=
  built_attributes
    (attributes 1 1 1 1%R Uniform HeUniform Zeros Ones
       false None false "embedding") 0 1 2 3.

Definition unit_world (w a b g : R) : world R :=
  World
    (<[3 := Tensor1 [g]]>
       (<[2 := Tensor2 [[b]]]>
          (<[1 := Tensor2 [[a]]]> {[ 0 := Tensor2 [[w]] ]})))
    {[ 0 := unit_layer ]} (λ _, 0%R) 0.

(** [DoRAEmbedding(input_dim=10, output_dim=4, rank=2, mask_zero=True)],
    not built: the layer object is at location 0. *)
Definition masking_layer : DoRAEmbedding spec_float :=
  attributes 10 4 2 (F32.of_Z 1) Uniform HeUniform Zeros Ones
    true None false "embedding".

Definition masking_world : world spec_float :=
  (__init__ 10 4 2 (F32.of_Z 1) Uniform HeUniform Zeros Ones
     true None false "embedding" empty_world).2.

(** A built 2x3 [keras.layers.Embedding] with [mask_zero], whose table is
    held by variable 0, and one of 200x64 that is not built. *)
Definition embedding_world : world spec_float :=
  World {[ 0 := Tensor2 demo_W0 ]} ∅ demo_rng 0.

Definition demo_embedding : layers.Embedding :=
  {| layers.input_dim := 2; layers.output_dim := 3;
     layers.embeddings_initializer := Uniform; layers.mask_zero := true;
     layers.input_length := None; layers.name := "tokens";
     layers.built := true; layers.embeddings := Some 0 |}.

Definition unbuilt_embedding : layers.Embedding :=
  {| layers.input_dim := 200; layers.output_dim := 64;
     layers.embeddings_initializer := Uniform; layers.mask_zero := false;
     layers.input_length := None; layers.name := "tokens";
     layers.built := false; layers.embeddings := None |}.

(** [DoRAPositionEmbedding(sequence_length=2, output_dim=3, rank=4)]
    after [build], on the four variables of the 2x3 world above. *)
Definition position_layer : DoRAPositionEmbedding.t spec_float :=
  {| DoRAPositionEmbedding.sequence_length := 2;
     DoRAPositionEmbedding.output_dim := 3;
     DoRAPositionEmbedding.rank := 4;
     DoRAPositionEmbedding.alpha := F32.of_Z 1;
     DoRAPositionEmbedding.initializer := Uniform;
     DoRAPositionEmbedding.lora_a_initializer := HeUniform;
     DoRAPositionEmbedding.lora_b_initializer := Zeros;
     DoRAPositionEmbedding.magnitude_initializer := Ones;
     DoRAPositionEmbedding.scaling := F32.div (F32.of_Z 1) (F32.of_Z 4);
     DoRAPositionEmbedding.position_embeddings := Some 0;
     DoRAPositionEmbedding.lora_a := Some 1;
     DoRAPositionEmbedding.lora_b := Some 2;
     DoRAPositionEmbedding.magnitude := Some 3;
     DoRAPositionEmbedding.built := true |}.

(** * Properties *)

(** ** Shapes and entries *)

Section Shapes.
Context {T : Type} `{Scalar T}.
Implicit Types X Y : list (list T).
Implicit Types u v : list T.

Lemma has_shape_length r c X : has_shape r c X → length X = r.
Proof. by intros [? _]. Qed.

Lemma has_shape_ncols r c X : has_shape r c X → 0 < r → ncols X = c.
Proof.
  intros [Hr Hc] Hpos. destruct X as [|row X]; simpl in *; [lia|].
  by inversion Hc.
Qed.

Lemma has_shape_shape r c X :
  has_shape r c X → 0 < r → shape (Tensor2 X) = [r; c].
Proof.
  intros HX Hpos. simpl.
  by rewrite (has_shape_length _ _ _ HX), (has_shape_ncols _ _ _ HX Hpos).
Qed.

Lemma rect_has_shape r c X :
  rect X → shape (Tensor2 X) = [r; c] → has_shape r c X.
Proof. intros HX [= <- <-]. by split. Qed.

Lemma has_shape_row r c X i row :
  has_shape r c X → X !! i = Some row → length row = c.
Proof. intros [_ Hc] Hi. by apply (Forall_lookup_1 _ _ _ _ Hc Hi). Qed.

Lemma has_shape_app r r' c X Y :
  has_shape r c X → has_shape r' c Y → has_shape (r + r') c (X ++ Y).
Proof.
  intros [? ?] [? ?]. split; [rewrite length_app; lia|].
  by apply Forall_app.
Qed.

Lemma has_shape_replicate r c (x : T) :
  has_shape r c (replicate r (replicate c x)).
Proof.
  split; [apply length_replicate|].
  apply Forall_replicate, length_replicate.
Qed.

Lemma has_shape_tabulate r c (f : nat → nat → T) : has_shape r c (tabulate r c f).
Proof.
  split; [unfold tabulate; by rewrite length_fmap, length_seq|].
  apply Forall_fmap, Forall_forall. intros i _. simpl.
  by rewrite length_fmap, length_seq.
Qed.

Lemma entry_lookup X i j row x :
  X !! i = Some row → row !! j = Some x → entry X i j = x.
Proof.
  intros Hi Hj. unfold entry.
  rewrite (nth_lookup_Some _ _ _ _ Hi). by apply nth_lookup_Some.
Qed.

Lemma lookup_entry r c X i j :
  has_shape r c X → i < r → j < c →
  ∃ row, X !! i = Some row ∧ row !! j = Some (entry X i j).
Proof.
  intros HX Hi Hj.
  destruct (lookup_lt_is_Some_2 X i) as [row Hrow].
  { by rewrite (has_shape_length _ _ _ HX). }
  destruct (lookup_lt_is_Some_2 row j) as [x Hx].
  { by rewrite (has_shape_row _ _ _ _ _ HX Hrow). }
  exists row. split; [done|]. by rewrite (entry_lookup _ _ _ _ _ Hrow Hx).
Qed.

Lemma entry_tabulate r c (f : nat → nat → T) i j :
  i < r → j < c → entry (tabulate r c f) i j = f i j.
Proof.
  intros Hi Hj. apply (entry_lookup _ _ _ (f i <$> seq 0 c)).
  - unfold tabulate. by rewrite list_lookup_fmap, lookup_seq_lt.
  - by rewrite list_lookup_fmap, lookup_seq_lt.
Qed.

(** A matrix is the table of its entries. *)
Lemma matrix_ext r c X Y :
  has_shape r c X → has_shape r c Y →
  (∀ i j, i < r → j < c → entry X i j = entry Y i j) → X = Y.
Proof.
  intros HX HY Hxy. apply list_eq. intros i.
  destruct (decide (i < r)) as [Hi|Hi].
  - destruct (lookup_lt_is_Some_2 X i) as [rx Hrx];
      [by rewrite (has_shape_length _ _ _ HX)|].
    destruct (lookup_lt_is_Some_2 Y i) as [ry Hry];
      [by rewrite (has_shape_length _ _ _ HY)|].
    rewrite Hrx, Hry. f_equal. apply list_eq. intros j.
    pose proof (has_shape_row _ _ _ _ _ HX Hrx) as Lx.
    pose proof (has_shape_row _ _ _ _ _ HY Hry) as Ly.
    destruct (decide (j < c)) as [Hj|Hj].
    + destruct (lookup_lt_is_Some_2 rx j) as [x Hx]; [lia|].
      destruct (lookup_lt_is_Some_2 ry j) as [y Hy]; [lia|].
      rewrite Hx, Hy. f_equal.
      rewrite <- (entry_lookup _ _ _ _ _ Hrx Hx).
      rewrite <- (entry_lookup _ _ _ _ _ Hry Hy). by apply Hxy.
    + rewrite !lookup_ge_None_2; [done|lia|lia].
  - rewrite !lookup_ge_None_2; [done| |].
    + rewrite (has_shape_length _ _ _ HY). lia.
    + rewrite (has_shape_length _ _ _ HX). lia.
Qed.

Lemma matrix_tabulate r c X f :
  has_shape r c X →
  (∀ i j, i < r → j < c → entry X i j = f i j) → X = tabulate r c f.
Proof.
  intros HX Hf. apply (matrix_ext r c); [done|apply has_shape_tabulate|].
  intros i j Hi Hj. rewrite entry_tabulate by done. by apply Hf.
Qed.

(** Element-wise maps. *)
Lemma has_shape_fmap r c X (g : T → T) :
  has_shape r c X → has_shape r c ((λ row : list T, g <$> row) <$> X).
Proof.
  intros [Hr Hc]. split; [by rewrite length_fmap|].
  apply Forall_fmap. eapply Forall_impl; [exact Hc|].
  intros row Hrow. simpl. by rewrite length_fmap.
Qed.

Lemma entry_fmap r c X (g : T → T) i j :
  has_shape r c X → i < r → j < c →
  entry ((λ row : list T, g <$> row) <$> X) i j = g (entry X i j).
Proof.
  intros HX Hi Hj.
  destruct (lookup_entry _ _ _ _ _ HX Hi Hj) as (row & Hrow & Hx).
  apply (entry_lookup _ _ _ (g <$> row)).
  - by rewrite list_lookup_fmap, Hrow.
  - by rewrite list_lookup_fmap, Hx.
Qed.

(** Element-wise binary operations on equal shapes. *)
Lemma has_shape_zip_with r c X Y (f : T → T → T) :
  has_shape r c X → has_shape r c Y →
  has_shape r c (zip_with (zip_with f) X Y).
Proof.
  intros HX HY. split.
  - rewrite length_zip_with.
    rewrite (has_shape_length _ _ _ HX), (has_shape_length _ _ _ HY). lia.
  - apply Forall_lookup_2. intros i row Hrow.
    apply lookup_zip_with_Some in Hrow as (x & y & -> & Hx & Hy).
    rewrite length_zip_with.
    rewrite (has_shape_row _ _ _ _ _ HX Hx), (has_shape_row _ _ _ _ _ HY Hy).
    lia.
Qed.

Lemma entry_zip_with r c X Y (f : T → T → T) i j :
  has_shape r c X → has_shape r c Y → i < r → j < c →
  entry (zip_with (zip_with f) X Y) i j = f (entry X i j) (entry Y i j).
Proof.
  intros HX HY Hi Hj.
  destruct (lookup_entry _ _ _ _ _ HX Hi Hj) as (rx & Hrx & Hx).
  destruct (lookup_entry _ _ _ _ _ HY Hi Hj) as (ry & Hry & Hy).
  apply (entry_lookup _ _ _ (zip_with f rx ry)).
  - by rewrite lookup_zip_with, Hrx, Hry.
  - by rewrite lookup_zip_with, Hx, Hy.
Qed.

Lemma broadcast_same (f : T → T → T) X Y :
  length X = length Y → ops.broadcast f X Y = zip_with (zip_with f) X Y.
Proof.
  intros Hlen. unfold ops.broadcast.
  destruct Y as [|y [|y' Y]]; [done| |done].
  by destruct X as [|x [|x' X]].
Qed.

(** Broadcasting a single row down the rows of [X]. *)
Lemma has_shape_broadcast_row r c X v (f : T → T → T) :
  has_shape r c X → length v = c → has_shape r c (ops.broadcast f X [v]).
Proof.
  intros [Hr Hc] Hv. split; [simpl; by rewrite length_fmap|].
  simpl. apply Forall_fmap. eapply Forall_impl; [exact Hc|].
  intros row Hrow. simpl in *. rewrite length_zip_with. lia.
Qed.

Lemma entry_broadcast_row r c X v (f : T → T → T) i j :
  has_shape r c X → length v = c → i < r → j < c →
  entry (ops.broadcast f X [v]) i j = f (entry X i j) (nth j v s_zero).
Proof.
  intros HX Hv Hi Hj.
  destruct (lookup_entry _ _ _ _ _ HX Hi Hj) as (row & Hrow & Hx).
  destruct (lookup_lt_is_Some_2 v j) as [y Hy]; [lia|].
  rewrite (nth_lookup_Some _ _ _ _ Hy).
  apply (entry_lookup _ _ _ (zip_with f row v)).
  - simpl. by rewrite list_lookup_fmap, Hrow.
  - by rewrite lookup_zip_with, Hx, Hy.
Qed.
End Shapes.

(** ** Sums and products against the specification's formulas *)

Section Formulas.
Context {T : Type} `{Scalar T}.
Implicit Types X Y A B : list (list T).
Implicit Types u v m : list T.

Lemma fmap_seq_nth {U V : Type} (g : U → V) (l : list U) (d : U) :
  g <$> l = (λ i, g (nth i l d)) <$> seq 0 (length l).
Proof.
  apply list_eq. intros i. rewrite !list_lookup_fmap.
  destruct (l !! i) as [x|] eqn:Hi.
  - rewrite lookup_seq_lt by (by eapply lookup_lt_Some). simpl.
    by rewrite (nth_lookup_Some _ _ _ _ Hi).
  - rewrite lookup_seq_ge; [done|]. by apply lookup_ge_None.
Qed.

Lemma fmap_seq_ext {V : Type} (f g : nat → V) n :
  (∀ i, i < n → f i = g i) → f <$> seq 0 n = g <$> seq 0 n.
Proof.
  intros Hfg. apply list_eq. intros i. rewrite !list_lookup_fmap.
  destruct (decide (i < n)) as [Hi|Hi].
  - rewrite lookup_seq_lt by done. simpl. f_equal. by apply Hfg.
  - by rewrite lookup_seq_ge by lia.
Qed.

Lemma nth_fmap_seq {V : Type} (f : nat → V) n i d :
  i < n → nth i (f <$> seq 0 n) d = f i.
Proof.
  intros Hi. apply nth_lookup_Some.
  by rewrite list_lookup_fmap, lookup_seq_lt.
Qed.

Lemma big_sum_ext n (f g : nat → T) :
  (∀ i, i < n → f i = g i) → big_sum n f = big_sum n g.
Proof. intros Hfg. unfold big_sum. f_equal. by apply fmap_seq_ext. Qed.

Lemma zip_with_seq (f : T → T → T) u v n :
  length u = n → length v = n →
  zip_with f u v = (λ i, f (nth i u s_zero) (nth i v s_zero)) <$> seq 0 n.
Proof.
  intros Hu Hv. apply list_eq. intros i.
  rewrite lookup_zip_with, list_lookup_fmap.
  destruct (decide (i < n)) as [Hi|Hi].
  - destruct (lookup_lt_is_Some_2 u i) as [x Hx]; [lia|].
    destruct (lookup_lt_is_Some_2 v i) as [y Hy]; [lia|].
    rewrite Hx, Hy, lookup_seq_lt by done. simpl.
    by rewrite (nth_lookup_Some _ _ _ _ Hx), (nth_lookup_Some _ _ _ _ Hy).
  - rewrite lookup_seq_ge by lia.
    by rewrite (lookup_ge_None_2 u) by lia.
Qed.

Lemma dot_big_sum u v n :
  length u = n → length v = n →
  ops.dot u v = big_sum n (λ x, s_mul (nth x u s_zero) (nth x v s_zero)).
Proof.
  intros Hu Hv. unfold ops.dot, big_sum.
  by rewrite (zip_with_seq _ _ _ n).
Qed.

Lemma nth_column j Y x : nth x (ops.column j Y) s_zero = entry Y x j.
Proof.
  unfold ops.column, entry. rewrite nth_lookup, list_lookup_fmap.
  destruct (Y !! x) as [row|] eqn:Hx; simpl.
  - by rewrite (nth_lookup_Some _ _ _ _ Hx).
  - rewrite (nth_lookup Y), Hx. simpl. by destruct j.
Qed.

Lemma has_shape_matmul n k c X Y :
  has_shape n k X → has_shape k c Y → 0 < k →
  has_shape n c (ops.matmul X Y).
Proof.
  intros HX HY Hk. unfold ops.matmul.
  rewrite (has_shape_ncols _ _ _ HY Hk). split.
  - by rewrite length_fmap; apply has_shape_length in HX.
  - apply Forall_fmap, Forall_forall. intros row _. simpl.
    by rewrite length_fmap, length_seq.
Qed.

Lemma entry_matmul n k c X Y i j :
  has_shape n k X → has_shape k c Y → 0 < k → i < n → j < c →
  entry (ops.matmul X Y) i j
  = big_sum k (λ x, s_mul (entry X i x) (entry Y x j)).
Proof.
  intros HX HY Hk Hi Hj.
  destruct (lookup_lt_is_Some_2 X i) as [xrow Hrow];
    [by rewrite (has_shape_length _ _ _ HX)|].
  rewrite (entry_lookup _ i j
             ((λ j, ops.dot xrow (ops.column j Y)) <$> seq 0 c)
             (ops.dot xrow (ops.column j Y))).
  - rewrite (dot_big_sum _ _ k).
    + apply big_sum_ext. intros x _. rewrite nth_column. unfold entry.
      by rewrite (nth_lookup_Some _ _ _ _ Hrow).
    + by apply (has_shape_row _ _ _ _ _ HX Hrow).
    + unfold ops.column. rewrite length_fmap. by apply has_shape_length in HY.
  - unfold ops.matmul. rewrite (has_shape_ncols _ _ _ HY Hk).
    by rewrite list_lookup_fmap, Hrow.
  - by rewrite list_lookup_fmap, lookup_seq_lt.
Qed.

Lemma replicate_fmap_seq c (x : T) : replicate c x = (λ _, x) <$> seq 0 c.
Proof.
  apply list_eq. intros i. rewrite list_lookup_fmap.
  destruct (decide (i < c)) as [Hi|Hi].
  - by rewrite lookup_replicate_2, lookup_seq_lt.
  - rewrite lookup_seq_ge by lia. apply lookup_replicate_None. lia.
Qed.

Lemma foldr_zip_with_add c X :
  Forall (λ row, length row = c) X →
  foldr (zip_with s_add) (replicate c s_zero) X
  = (λ j, foldr s_add s_zero ((λ row, nth j row s_zero) <$> X)) <$> seq 0 c.
Proof.
  induction 1 as [|row X Hrow HX IH]; simpl.
  - apply replicate_fmap_seq.
  - rewrite IH. rewrite (zip_with_seq _ _ _ c);
      [|done|by rewrite length_fmap, length_seq].
    apply fmap_seq_ext. intros i Hi. by rewrite nth_fmap_seq.
Qed.

Lemma column_sums_big_sum r c X :
  has_shape r c X → 0 < r →
  ops.column_sums X = (λ j, big_sum r (λ i, entry X i j)) <$> seq 0 c.
Proof.
  intros HX Hr. unfold ops.column_sums.
  rewrite (has_shape_ncols _ _ _ HX Hr).
  rewrite foldr_zip_with_add by apply HX.
  apply fmap_seq_ext. intros j _. unfold big_sum. f_equal.
  rewrite (fmap_seq_nth _ X []). by rewrite (has_shape_length _ _ _ HX).
Qed.

Lemma length_column_sums r c X :
  has_shape r c X → 0 < r → length (ops.column_sums X) = c.
Proof.
  intros HX Hr. rewrite (column_sums_big_sum r c) by done.
  by rewrite length_fmap, length_seq.
Qed.

Section Effective.
Variables (r c k : nat) (W0 A B : list (list T)) (m : list T) (s : T).
Hypothesis HW0 : has_shape r c W0.
Hypothesis HA : has_shape r k A.
Hypothesis HB : has_shape k c B.
Hypothesis Hm : length m = c.
Hypothesis Hr : 0 < r.
Hypothesis Hk : 0 < k.

Lemma has_shape_lora_adaptation : has_shape r c (lora_adaptation A B s).
Proof. apply has_shape_fmap, (has_shape_matmul r k c); done. Qed.

Lemma has_shape_combined : has_shape r c (combined_embeddings W0 A B s).
Proof.
  unfold combined_embeddings, ops.add. rewrite broadcast_same.
  - apply has_shape_zip_with; [done|apply has_shape_lora_adaptation].
  - rewrite (has_shape_length _ _ _ HW0).
    by rewrite (has_shape_length _ _ _ has_shape_lora_adaptation).
Qed.

Lemma entry_combined i j :
  i < r → j < c →
  entry (combined_embeddings W0 A B s) i j = spec_combined k W0 A B s i j.
Proof.
  intros Hi Hj. unfold combined_embeddings, ops.add. rewrite broadcast_same.
  - rewrite (entry_zip_with r c) by
      (done || apply has_shape_lora_adaptation).
    unfold spec_combined, spec_delta. f_equal.
    unfold lora_adaptation, ops.multiply_scalar.
    rewrite (entry_fmap r c) by (done || by apply (has_shape_matmul r k c)).
    by rewrite (entry_matmul r k c).
  - rewrite (has_shape_length _ _ _ HW0).
    by rewrite (has_shape_length _ _ _ has_shape_lora_adaptation).
Qed.

(** The floored column norms, as the row vector the method divides by. *)
Lemma column_norms_row :
  column_norms W0 A B s = [spec_norm r k W0 A B s <$> seq 0 c].
Proof.
  unfold column_norms, ops.maximum, ops.sqrt, ops.sum_axis0_keepdims.
  simpl. f_equal.
  rewrite (column_sums_big_sum r c);
    [|apply has_shape_fmap, has_shape_combined|done].
  rewrite <- !list_fmap_compose. apply fmap_seq_ext. intros j Hj. simpl.
  unfold spec_norm. do 2 f_equal. apply big_sum_ext. intros i Hi.
  unfold ops.square.
  rewrite (entry_fmap r c) by (done || apply has_shape_combined).
  by rewrite entry_combined.
Qed.

Lemma has_shape_normalized :
  has_shape r c (normalized_embeddings W0 A B s).
Proof.
  unfold normalized_embeddings, ops.divide. rewrite column_norms_row.
  apply has_shape_broadcast_row; [apply has_shape_combined|].
  by rewrite length_fmap, length_seq.
Qed.

Lemma has_shape_dora_embeddings : has_shape r c (dora_embeddings W0 A B m s).
Proof.
  unfold dora_embeddings, ops.multiply, ops.expand_dims.
  apply has_shape_broadcast_row; [apply has_shape_normalized|done].
Qed.

Lemma entry_dora_embeddings i j :
  i < r → j < c →
  entry (dora_embeddings W0 A B m s) i j = spec_E r k W0 A B m s i j.
Proof.
  intros Hi Hj. unfold dora_embeddings, ops.multiply, ops.expand_dims.
  rewrite (entry_broadcast_row r c) by (done || apply has_shape_normalized).
  unfold spec_E. f_equal.
  unfold normalized_embeddings, ops.divide. rewrite column_norms_row.
  rewrite (entry_broadcast_row r c);
    [|apply has_shape_combined|by rewrite length_fmap, length_seq|done..].
  by rewrite entry_combined, nth_fmap_seq.
Qed.

Lemma dora_embeddings_effective_matrix :
  dora_embeddings W0 A B m s = effective_matrix r c k W0 A B m s.
Proof.
  apply matrix_tabulate; [apply has_shape_dora_embeddings|].
  apply entry_dora_embeddings.
Qed.
End Effective.
End Formulas.

(** ** Rules for running computations *)

Section Rules.
Context {T : Type} `{Scalar T}.
Implicit Types σ : world T.
Implicit Types l : DoRAEmbedding T.

Lemma wp_ret {U} (a : U) σ Φ : Φ (Ok a) σ → wp (mret a) σ Φ.
Proof. done. Qed.

Lemma wp_raise {U} e σ (Φ : res U → world T → Prop) :
  Φ (Raise e) σ → wp (raise e) σ Φ.
Proof. done. Qed.

Lemma wp_bind {U V} (m : M T U) (k : U → M T V) σ Φ :
  wp m σ (λ r σ', match r with
                  | Ok a => wp (k a) σ' Φ
                  | Raise e => Φ (Raise e) σ'
                  end) →
  wp (m ≫= k) σ Φ.
Proof.
  unfold wp, mbind, M_bind, bind. by destruct (m σ) as [[a|e] σ'].
Qed.

(** The result and the final world, read back from [wp]. *)
Lemma wp_run {U} (m : M T U) σ r σ' : wp m σ (λ r0 σ0, r0 = r ∧ σ0 = σ') → m σ = (r, σ').
Proof. unfold wp. destruct (m σ). simpl. by intros [-> ->]. Qed.

Lemma run_wp {U} (m : M T U) σ r σ' (Φ : res U → world T → Prop) :
  m σ = (r, σ') → Φ r σ' → wp m σ Φ.
Proof. unfold wp. by intros ->. Qed.

Lemma wp_value v t σ Φ :
  vars σ !! v = Some t → Φ (Ok t) σ → wp (value v) σ Φ.
Proof. unfold wp, value. by intros ->. Qed.

Lemma wp_new_variable t σ Φ :
  (∀ v, v ∉ dom (vars σ) →
        Φ (Ok v) (World (<[v := t]> (vars σ)) (objs σ) (rng σ) (rng_pos σ))) →
  wp (new_variable t) σ Φ.
Proof. intros HΦ. apply HΦ, is_fresh. Qed.

Lemma wp_assign v t old σ Φ :
  vars σ !! v = Some old → shape old = shape t →
  Φ (Ok ()) (World (<[v := t]> (vars σ)) (objs σ) (rng σ) (rng_pos σ)) →
  wp (assign v t) σ Φ.
Proof.
  intros Hv Hshape HΦ. unfold assign. apply wp_bind, (wp_value _ old); [done|].
  by rewrite decide_True.
Qed.

Lemma wp_new_object l σ Φ :
  (∀ o, o ∉ dom (objs σ) →
        Φ (Ok o) (World (vars σ) (<[o := l]> (objs σ)) (rng σ) (rng_pos σ))) →
  wp (new_object l) σ Φ.
Proof. intros HΦ. apply HΦ, is_fresh. Qed.

Lemma wp_getattr self l σ Φ :
  objs σ !! self = Some l → Φ (Ok l) σ → wp (getattr self) σ Φ.
Proof. unfold wp, getattr. by intros ->. Qed.

Lemma wp_setattr {V} self (f : DoRAEmbedding T → V → DoRAEmbedding T) x l σ Φ :
  objs σ !! self = Some l →
  Φ (Ok ()) (World (vars σ) (<[self := f l x]> (objs σ)) (rng σ) (rng_pos σ)) →
  wp (setattr self f x) σ Φ.
Proof.
  intros Hself HΦ. unfold setattr. by apply wp_bind, (wp_getattr _ l).
Qed.

Lemma wp_draw n σ Φ :
  (∀ xs p, length xs = n →
           Φ (Ok xs) (World (vars σ) (objs σ) (rng σ) p)) →
  wp (draw n) σ Φ.
Proof. intros HΦ. apply HΦ. by rewrite length_fmap, length_seq. Qed.

Lemma wp_draw_rows r c σ Φ :
  (∀ X p, has_shape r c X →
          Φ (Ok X) (World (vars σ) (objs σ) (rng σ) p)) →
  wp (draw_rows r c) σ Φ.
Proof.
  revert σ Φ. induction r as [|r IH]; intros σ Φ HΦ; simpl.
  - destruct σ. apply (HΦ []). by split.
  - apply wp_bind, wp_draw. intros row p Hrow.
    apply wp_bind, IH. simpl. intros X p' [HX1 HX2].
    apply wp_ret, HΦ. split; simpl; [by rewrite HX1|by constructor].
Qed.

(** An initialiser returns a tensor of the shape it was asked for, and
    touches nothing but the random stream. *)
Lemma wp_call_initializer2 init r c σ Φ :
  (∀ X p, has_shape r c X →
          (init = Zeros → X = ops.zeros r c) →
          Φ (Ok (Tensor2 X)) (World (vars σ) (objs σ) (rng σ) p)) →
  wp (call_initializer init [r; c]) σ Φ.
Proof.
  intros HΦ. destruct init; simpl.
  - destruct σ. apply wp_ret, HΦ; [apply has_shape_replicate|done].
  - destruct σ. apply wp_ret, HΦ; [apply has_shape_replicate|done].
  - apply wp_bind, wp_draw_rows. intros X p HX. by apply wp_ret, HΦ.
  - apply wp_bind, wp_draw_rows. intros X p HX. by apply wp_ret, HΦ.
Qed.

Lemma wp_call_initializer1 init n σ Φ :
  (∀ x p, length x = n →
          (init = Ones → x = replicate n s_one) →
          Φ (Ok (Tensor1 x)) (World (vars σ) (objs σ) (rng σ) p)) →
  wp (call_initializer init [n]) σ Φ.
Proof.
  intros HΦ. destruct init; simpl.
  - destruct σ. apply wp_ret, HΦ; [apply length_replicate|done].
  - destruct σ. apply wp_ret, HΦ; [apply length_replicate|done].
  - apply wp_bind, wp_draw. intros x p Hx. by apply wp_ret, HΦ.
  - apply wp_bind, wp_draw. intros x p Hx. by apply wp_ret, HΦ.
Qed.

Lemma wp_add_weight2 init r c σ Φ :
  (∀ X p v, has_shape r c X →
            (init = Zeros → X = ops.zeros r c) →
            v ∉ dom (vars σ) →
            Φ (Ok v) (World (<[v := Tensor2 X]> (vars σ)) (objs σ) (rng σ) p)) →
  wp (add_weight [r; c] init) σ Φ.
Proof.
  intros HΦ. unfold add_weight. apply wp_bind, wp_call_initializer2.
  intros X p HX Hz. apply wp_new_variable. simpl. intros v Hv. by apply HΦ.
Qed.

Lemma wp_add_weight1 init n σ Φ :
  (∀ x p v, length x = n →
            (init = Ones → x = replicate n s_one) →
            v ∉ dom (vars σ) →
            Φ (Ok v) (World (<[v := Tensor1 x]> (vars σ)) (objs σ) (rng σ) p)) →
  wp (add_weight [n] init) σ Φ.
Proof.
  intros HΦ. unfold add_weight. apply wp_bind, wp_call_initializer1.
  intros x p Hx Ho. apply wp_new_variable. simpl. intros v Hv. by apply HΦ.
Qed.

Lemma wp_matrix_of v X σ Φ :
  vars σ !! v = Some (Tensor2 X) → Φ (Ok X) σ → wp (matrix_of (Some v)) σ Φ.
Proof.
  intros Hv HΦ. simpl. by apply wp_bind, (wp_value _ (Tensor2 X)).
Qed.

Lemma wp_vector_of v x σ Φ :
  vars σ !! v = Some (Tensor1 x) → Φ (Ok x) σ → wp (vector_of (Some v)) σ Φ.
Proof.
  intros Hv HΦ. simpl. by apply wp_bind, (wp_value _ (Tensor1 x)).
Qed.
End Rules.

(** ** The methods, one rule each *)

Section MethodRules.
Context {T : Type} `{Scalar T}.
Implicit Types σ : world T.
Implicit Types l : DoRAEmbedding T.

Lemma not_elem_of_dom_insert (vs : gmap nat (tensor T)) v w t :
  v ∉ dom (<[w := t]> vs) → v ≠ w ∧ v ∉ dom vs.
Proof. rewrite dom_insert_L. set_solver. Qed.

Lemma wp_init input_dim output_dim rank alpha ei ai bi mi mz il sp nm σ Φ :
  (0 < input_dim)%Z → (0 < output_dim)%Z → (0 < rank)%Z →
  s_leb alpha s_zero = false →
  (∀ o, o ∉ dom (objs σ) →
        Φ (Ok o)
          (World (vars σ)
             (<[o := attributes input_dim output_dim rank alpha
                       ei ai bi mi mz il sp nm]> (objs σ))
             (rng σ) (rng_pos σ))) →
  wp (__init__ input_dim output_dim rank alpha ei ai bi mi mz il sp nm) σ Φ.
Proof.
  intros Hi Ho Hr Ha HΦ. unfold __init__.
  rewrite !(proj2 (Z.leb_gt _ _)) by done. rewrite Ha.
  by apply wp_new_object.
Qed.

Lemma wp_build self l σ Φ :
  objs σ !! self = Some l →
  (∀ e a b mg E A B mv p,
     has_shape (Z.to_nat (input_dim l)) (Z.to_nat (output_dim l)) E →
     has_shape (Z.to_nat (input_dim l)) (Z.to_nat (rank l)) A →
     has_shape (Z.to_nat (rank l)) (Z.to_nat (output_dim l)) B →
     length mv = Z.to_nat (output_dim l) →
     (lora_b_initializer l = Zeros →
      B = ops.zeros (Z.to_nat (rank l)) (Z.to_nat (output_dim l))) →
     e ∉ dom (vars σ) → a ∉ dom (vars σ) → b ∉ dom (vars σ) →
     mg ∉ dom (vars σ) → NoDup [e; a; b; mg] →
     Φ (Ok ())
       (World
          (<[mg := Tensor1 mv]>
             (<[b := Tensor2 B]>
                (<[a := Tensor2 A]> (<[e := Tensor2 E]> (vars σ)))))
          (<[self := built_attributes l e a b mg]> (objs σ))
          (rng σ) p)) →
  wp (build self) σ Φ.
Proof.
  intros Hself HΦ. unfold build.
  apply wp_bind, (wp_getattr _ l); [done|].
  apply wp_bind, wp_add_weight2. intros E p1 e HE _ He.
  apply wp_bind, (wp_setattr _ _ _ l); [done|]. simpl.
  apply wp_bind, wp_add_weight2. simpl. intros A p2 a HA _ Ha.
  apply not_elem_of_dom_insert in Ha as [Hae Ha].
  apply wp_bind, (wp_setattr _ _ _ (set_embeddings l (Some e)));
    [simpl; apply lookup_insert_eq|]. simpl.
  apply wp_bind, wp_add_weight2. simpl. intros B p3 b HB HBz Hb.
  apply not_elem_of_dom_insert in Hb as [Hba Hb].
  apply not_elem_of_dom_insert in Hb as [Hbe Hb].
  apply wp_bind,
    (wp_setattr _ _ _ (set_lora_a (set_embeddings l (Some e)) (Some a)));
    [simpl; apply lookup_insert_eq|]. simpl.
  apply wp_bind, wp_add_weight1. simpl. intros mv p4 mg Hmv _ Hmg.
  apply not_elem_of_dom_insert in Hmg as [Hmb Hmg].
  apply not_elem_of_dom_insert in Hmg as [Hma Hmg].
  apply not_elem_of_dom_insert in Hmg as [Hme Hmg].
  apply wp_bind,
    (wp_setattr _ _ _
       (set_lora_b (set_lora_a (set_embeddings l (Some e)) (Some a)) (Some b)));
    [simpl; apply lookup_insert_eq|]. simpl.
  apply (wp_setattr _ _ _
           (set_magnitude
              (set_lora_b (set_lora_a (set_embeddings l (Some e)) (Some a))
                 (Some b)) (Some mg)));
    [simpl; apply lookup_insert_eq|]. simpl.
  rewrite !insert_insert_eq.
  apply HΦ; try done.
  repeat (apply NoDup_cons_2;
          [rewrite ?elem_of_cons, elem_of_nil; intuition congruence|]).
  apply NoDup_nil_2.
Qed.

(** On a built layer the method returns [dora_embeddings] of the four
    stored tensors and changes nothing. *)
Lemma run_get_effective_embeddings σ self l W0 A B m :
  built_layer σ self l W0 A B m →
  _get_effective_embeddings self σ
  = (Ok (dora_embeddings W0 A B m (scaling l)), σ).
Proof.
  intros [Hself _ _ _ _ _ _ (w & Hw & HW0) (a & Ha & HA) (b & Hb & HB)
            (mg & Hmg & Hm) _ _ _ _ _].
  apply wp_run. unfold _get_effective_embeddings.
  apply wp_bind, (wp_getattr _ l); [done|].
  rewrite Ha. apply wp_bind, (wp_matrix_of _ A); [done|].
  rewrite Hb. apply wp_bind, (wp_matrix_of _ B); [done|].
  rewrite Hw. apply wp_bind, (wp_matrix_of _ W0); [done|].
  rewrite Hmg. apply wp_bind, (wp_vector_of _ m); [done|].
  by apply wp_ret.
Qed.

(** On a layer whose weights are still [None] the method fails at the
    first weight it touches, without any check of its own. *)
Lemma run_get_effective_embeddings_unbuilt σ self l :
  objs σ !! self = Some l → lora_a l = None →
  _get_effective_embeddings self σ = (Raise NoneWeight, σ).
Proof.
  intros Hself Ha. apply wp_run. unfold _get_effective_embeddings.
  apply wp_bind, (wp_getattr _ l); [done|].
  rewrite Ha. by apply wp_bind, wp_raise.
Qed.
End MethodRules.

Section ExpandRules.
Context {T : Type} `{Scalar T}.
Implicit Types σ : world T.
Implicit Types l : DoRAEmbedding T.

Lemma fresh_ne {V} (vs : gmap nat V) v w :
  w ∈ dom vs → v ∉ dom vs → v ≠ w.
Proof. intros Hw Hv ->. done. Qed.

Lemma lookup_dom {V} (vs : gmap nat V) v t : vs !! v = Some t → v ∈ dom vs.
Proof. intros Hv. apply elem_of_dom. by exists t. Qed.

(** The four new variables of a freshly built layer leave every variable
    that existed before as it was. *)
Lemma lookup_insert4_old (vs : gmap nat (tensor T)) e a b mg te ta tb tm v :
  v ∈ dom vs → e ∉ dom vs → a ∉ dom vs → b ∉ dom vs → mg ∉ dom vs →
  <[mg := tm]> (<[b := tb]> (<[a := ta]> (<[e := te]> vs))) !! v = vs !! v.
Proof.
  intros Hv He Ha Hb Hmg.
  rewrite !lookup_insert_ne; [done|by eapply fresh_ne..].
Qed.

Lemma NoDup_4 (e a b mg : nat) :
  NoDup [e; a; b; mg] →
  e ≠ a ∧ e ≠ b ∧ e ≠ mg ∧ a ≠ b ∧ a ≠ mg ∧ b ≠ mg.
Proof.
  rewrite !NoDup_cons, !not_elem_of_cons. intuition.
Qed.

Lemma expand_dims_arith (n i : Z) :
  (0 < i)%Z → (i < n)%Z →
  Z.to_nat i + Z.to_nat (n - i) = Z.to_nat n ∧ 0 < Z.to_nat (n - i).
Proof. lia. Qed.

Section Expand.
Variables (σ : world T) (self : nat) (l : DoRAEmbedding T).
Variables (W0 A B : list (list T)) (m : list T).
Variables (n : Z).
Hypothesis Hbuilt : built_layer σ self l W0 A B m.
Hypothesis Hn : (input_dim l < n)%Z.

(** The state of the method just after [expanded_layer.build(None)]. *)
Lemma wp_expand_prefix Φ (k : () → M T nat) x :
  x ∉ dom (objs σ) →
  (∀ e a b mg E0 A0 B0 m0 p,
     has_shape (Z.to_nat n) (Z.to_nat (output_dim l)) E0 →
     has_shape (Z.to_nat n) (Z.to_nat (rank l)) A0 →
     has_shape (Z.to_nat (rank l)) (Z.to_nat (output_dim l)) B0 →
     length m0 = Z.to_nat (output_dim l) →
     e ∉ dom (vars σ) → a ∉ dom (vars σ) → b ∉ dom (vars σ) →
     mg ∉ dom (vars σ) → NoDup [e; a; b; mg] →
     wp (k ())
       (World
          (<[mg := Tensor1 m0]>
             (<[b := Tensor2 B0]>
                (<[a := Tensor2 A0]> (<[e := Tensor2 E0]> (vars σ)))))
          (<[x := built_attributes
                    (attributes n (output_dim l) (rank l) (alpha l)
                       (embeddings_initializer l) (lora_a_initializer l)
                       (lora_b_initializer l) (magnitude_initializer l)
                       (mask_zero l) (input_length l) (sparse l)
                       (name l +:+ "_expanded")) e a b mg]> (objs σ))
          (rng σ) p) Φ) →
  wp (build x ≫= k)
    (World (vars σ)
       (<[x := attributes n (output_dim l) (rank l) (alpha l)
                 (embeddings_initializer l) (lora_a_initializer l)
                 (lora_b_initializer l) (magnitude_initializer l)
                 (mask_zero l) (input_length l) (sparse l)
                 (name l +:+ "_expanded")]> (objs σ))
       (rng σ) (rng_pos σ)) Φ.
Proof.
  intros Hx HΦ. apply wp_bind.
  eapply wp_build; [simpl; apply lookup_insert_eq|]. simpl.
  intros e a b mg E0 A0 B0 m0 p HE0 HA0 HB0 Hm0 _ He Ha Hb Hmg Hnd.
  rewrite insert_insert_eq. by apply HΦ.
Qed.

(** What [expand_vocabulary] returns on a built layer and a larger
    target size, for either source of the new rows of [W0]. *)
Lemma wp_expand_vocabulary (emb : option (list (list T))) Φ :
  (∀ X, emb = Some X →
        has_shape (Z.to_nat (n - input_dim l)) (Z.to_nat (output_dim l)) X) →
  (∀ σ' x lx N Na,
     preserves σ σ' →
     x ∉ dom (objs σ) →
     Forall (λ v, v ∉ dom (vars σ))
       (weights lx) →
     built_layer σ' x lx (W0 ++ N) (A ++ Na) B m →
     lx = set_built
            (set_magnitude
               (set_lora_b
                  (set_lora_a
                     (set_embeddings
                        (attributes n (output_dim l) (rank l) (alpha l)
                           (embeddings_initializer l) (lora_a_initializer l)
                           (lora_b_initializer l) (magnitude_initializer l)
                           (mask_zero l) (input_length l) (sparse l)
                           (name l +:+ "_expanded"))
                        (embeddings lx)) (lora_a lx)) (lora_b lx))
               (magnitude lx)) true →
     has_shape (Z.to_nat (n - input_dim l)) (Z.to_nat (output_dim l)) N →
     has_shape (Z.to_nat (n - input_dim l)) (Z.to_nat (rank l)) Na →
     (∀ X, emb = Some X → N = X) →
     Φ (Ok x) σ') →
  wp (expand_vocabulary self n emb) σ Φ.
Proof.
  intros Hemb HΦ.
  destruct Hbuilt as [Hself Hblt Hid Hod Hrk Halpha Hsc (w & Hw & HW0v)
    (a0 & Ha0 & HAv) (b0 & Hb0 & HBv) (g0 & Hg0 & Hmv) HW0 HA HB Hm Hnd0].
  destruct (expand_dims_arith n (input_dim l) Hid Hn) as [Hsum Hnew].
  unfold expand_vocabulary.
  apply wp_bind, (wp_getattr _ l); [done|].
  rewrite (proj2 (Z.leb_gt _ _)) by lia. rewrite Hblt. simpl negb. cbv iota.
  apply wp_bind, wp_init; [lia|done|done|done|].
  intros x Hx. cbv beta iota. apply wp_expand_prefix; [done|].
  intros e a b mg E0 A0 B0 m0 p HE0 HA0 HB0 Hm0 He Ha Hb Hmg Hnd.
  assert (x ≠ self) as Hxself by (eapply fresh_ne; [by eapply lookup_dom|done]).
  apply wp_bind, (wp_getattr _ l);
    [simpl; by rewrite lookup_insert_ne|].
  rewrite Hw. apply wp_bind, (wp_matrix_of _ W0);
    [simpl; rewrite lookup_insert4_old; eauto using lookup_dom|].
  rewrite Ha0. apply wp_bind, (wp_matrix_of _ A);
    [simpl; rewrite lookup_insert4_old; eauto using lookup_dom|].
  rewrite Hb0. apply wp_bind, (wp_matrix_of _ B);
    [simpl; rewrite lookup_insert4_old; eauto using lookup_dom|].
  rewrite Hg0. apply wp_bind, (wp_vector_of _ m);
    [simpl; rewrite lookup_insert4_old; eauto using lookup_dom|].
  apply wp_bind.
  assert (∀ N p',
    has_shape (Z.to_nat (n - input_dim l)) (Z.to_nat (output_dim l)) N →
    (∀ X, emb = Some X → N = X) →
    wp
      (new_lora_a_rows ←
         (t ← call_initializer (lora_a_initializer l)
                [Z.to_nat (n - input_dim l); Z.to_nat (rank l)];
          match t with
          | Tensor1 _ => raise BadReference
          | Tensor2 X => mret X
          end);
       x0 ← getattr x;
       w0 ← variable_of (embeddings x0);
       assign w0 (Tensor2 (np.concatenate W0 N));;
       a1 ← variable_of (lora_a x0);
       assign a1 (Tensor2 (np.concatenate A new_lora_a_rows));;
       b1 ← variable_of (lora_b x0);
       assign b1 (Tensor2 B);;
       m1 ← variable_of (magnitude x0);
       assign m1 (Tensor1 m);;
       mret x)
      (World
         (<[mg := Tensor1 m0]>
            (<[b := Tensor2 B0]>
               (<[a := Tensor2 A0]> (<[e := Tensor2 E0]> (vars σ)))))
         (<[x := built_attributes
                   (attributes n (output_dim l) (rank l) (alpha l)
                      (embeddings_initializer l) (lora_a_initializer l)
                      (lora_b_initializer l) (magnitude_initializer l)
                      (mask_zero l) (input_length l) (sparse l)
                      (name l +:+ "_expanded")) e a b mg]> (objs σ))
         (rng σ) p') Φ) as Hrest.
  { intros N p' HN HNemb.
    apply wp_bind, wp_bind, wp_call_initializer2. simpl.
    intros Na p'' HNa _. apply wp_ret.
    apply wp_bind. eapply wp_getattr; [simpl; apply lookup_insert_eq|].
    simpl.
    apply NoDup_4 in Hnd as (Hea & Heb & Hem & Hab & Ham & Hbm).
    pose proof (has_shape_app _ _ _ _ _ HW0 HN) as HWN.
    pose proof (has_shape_app _ _ _ _ _ HA HNa) as HAN.
    rewrite Hsum in HWN, HAN.
    apply wp_bind, wp_ret, wp_bind, (wp_assign _ _ (Tensor2 E0)).
    { simpl. rewrite !lookup_insert_ne by intuition congruence.
      apply lookup_insert_eq. }
    { rewrite (has_shape_shape _ _ _ HE0) by lia.
      unfold np.concatenate. by rewrite (has_shape_shape _ _ _ HWN) by lia. }
    simpl.
    apply wp_bind, wp_ret, wp_bind, (wp_assign _ _ (Tensor2 A0)).
    { simpl. rewrite !lookup_insert_ne by intuition congruence.
      apply lookup_insert_eq. }
    { rewrite (has_shape_shape _ _ _ HA0) by lia.
      unfold np.concatenate. by rewrite (has_shape_shape _ _ _ HAN) by lia. }
    simpl.
    apply wp_bind, wp_ret, wp_bind, (wp_assign _ _ (Tensor2 B0)).
    { simpl. rewrite !lookup_insert_ne by intuition congruence.
      apply lookup_insert_eq. }
    { rewrite (has_shape_shape _ _ _ HB0) by lia.
      by rewrite (has_shape_shape _ _ _ HB) by lia. }
    simpl.
    apply wp_bind, wp_ret, wp_bind, (wp_assign _ _ (Tensor1 m0)).
    { simpl. rewrite !lookup_insert_ne by intuition congruence.
      apply lookup_insert_eq. }
    { simpl. by rewrite Hm0, Hm. }
    simpl. apply wp_ret.
    match goal with
    | |- context [<[x := ?lx]> _] => apply (HΦ _ _ lx N Na); try done
    end.
    - split; simpl.
      + intros v Hv.
        rewrite !lookup_insert_ne; [done|by eapply fresh_ne..].
      + intros o Ho. rewrite lookup_insert_ne; [done|by eapply fresh_ne].
    - unfold weights. simpl. repeat (constructor; [done|]). constructor.
    - split; simpl; try done; try lia.
      + apply lookup_insert_eq.
      + exists e. split; [done|].
        rewrite !lookup_insert_ne by intuition congruence.
        apply lookup_insert_eq.
      + exists a. split; [done|].
        rewrite !lookup_insert_ne by intuition congruence.
        apply lookup_insert_eq.
      + exists b. split; [done|].
        rewrite !lookup_insert_ne by intuition congruence.
        apply lookup_insert_eq.
      + exists mg. split; [done|]. apply lookup_insert_eq.
      + unfold weights. simpl.
        repeat (apply NoDup_cons_2;
                [rewrite ?elem_of_cons, elem_of_nil; intuition congruence|]).
        apply NoDup_nil_2. }
  destruct emb as [X|].
  - specialize (Hemb X eq_refl).
    rewrite decide_False.
    + apply wp_ret, Hrest; [done|]. by intros ? [= ->].
    + intros Hne. apply Hne. by apply has_shape_shape.
  - apply wp_bind, wp_call_initializer2. simpl. intros N p' HN _.
    apply wp_ret, Hrest; done.
Qed.

(** A caller-supplied block of another shape: the method raises after
    the new layer was made, and nothing that existed is touched. *)
Lemma wp_expand_vocabulary_mismatch (X : list (list T)) Φ :
  shape (Tensor2 X)
    ≠ [Z.to_nat (n - input_dim l); Z.to_nat (output_dim l)] →
  (∀ σ', preserves σ σ' → Φ (Raise ShapeMismatch) σ') →
  wp (expand_vocabulary self n (Some X)) σ Φ.
Proof.
  intros HX HΦ.
  destruct Hbuilt as [Hself Hblt Hid Hod Hrk Halpha Hsc (w & Hw & HW0v)
    (a0 & Ha0 & HAv) (b0 & Hb0 & HBv) (g0 & Hg0 & Hmv) HW0 HA HB Hm Hnd0].
  unfold expand_vocabulary.
  apply wp_bind, (wp_getattr _ l); [done|].
  rewrite (proj2 (Z.leb_gt _ _)) by lia. rewrite Hblt. simpl negb. cbv iota.
  apply wp_bind, wp_init; [lia|done|done|done|].
  intros x Hx. cbv beta iota. apply wp_expand_prefix; [done|].
  intros e a b mg E0 A0 B0 m0 p HE0 HA0 HB0 Hm0 He Ha Hb Hmg Hnd.
  assert (x ≠ self) as Hxself by (eapply fresh_ne; [by eapply lookup_dom|done]).
  apply wp_bind, (wp_getattr _ l);
    [simpl; by rewrite lookup_insert_ne|].
  rewrite Hw. apply wp_bind, (wp_matrix_of _ W0);
    [simpl; rewrite lookup_insert4_old; eauto using lookup_dom|].
  rewrite Ha0. apply wp_bind, (wp_matrix_of _ A);
    [simpl; rewrite lookup_insert4_old; eauto using lookup_dom|].
  rewrite Hb0. apply wp_bind, (wp_matrix_of _ B);
    [simpl; rewrite lookup_insert4_old; eauto using lookup_dom|].
  rewrite Hg0. apply wp_bind, (wp_vector_of _ m);
    [simpl; rewrite lookup_insert4_old; eauto using lookup_dom|].
  apply wp_bind. rewrite decide_True by done. apply wp_raise, HΦ.
  split; simpl.
  - intros v Hv. rewrite !lookup_insert_ne; [done|by eapply fresh_ne..].
  - intros o Ho. rewrite lookup_insert_ne; [done|by eapply fresh_ne].
Qed.
End Expand.
End ExpandRules.

Section LoadRules.
Context {T : Type} `{Scalar T}.
Implicit Types σ : world T.
Implicit Types l : DoRAEmbedding T.

Lemma length_linalg_norm_axis0 r c (X : list (list T)) :
  has_shape r c X → 0 < r → length (np.linalg_norm_axis0 X) = c.
Proof.
  intros HX Hr. unfold np.linalg_norm_axis0. rewrite length_fmap.
  apply (length_column_sums r c); [|done]. by apply has_shape_fmap.
Qed.


Lemma built_layer_intro σ x l w a b mg W0 A B m :
  objs σ !! x = Some l → built l = true →
  (0 < input_dim l)%Z → (0 < output_dim l)%Z → (0 < rank l)%Z →
  s_leb (alpha l) s_zero = false →
  scaling l = s_div (alpha l) (s_of_Z (rank l)) →
  embeddings l = Some w → lora_a l = Some a →
  lora_b l = Some b → magnitude l = Some mg →
  vars σ !! w = Some (Tensor2 W0) → vars σ !! a = Some (Tensor2 A) →
  vars σ !! b = Some (Tensor2 B) → vars σ !! mg = Some (Tensor1 m) →
  has_shape (Z.to_nat (input_dim l)) (Z.to_nat (output_dim l)) W0 →
  has_shape (Z.to_nat (input_dim l)) (Z.to_nat (rank l)) A →
  has_shape (Z.to_nat (rank l)) (Z.to_nat (output_dim l)) B →
  length m = Z.to_nat (output_dim l) →
  NoDup [w; a; b; mg] →
  built_layer σ x l W0 A B m.
Proof.
  intros ???????  Hw Ha Hb Hmg ?????????. split; try done.
  - by exists w.
  - by exists a.
  - by exists b.
  - by exists mg.
  - unfold weights. by rewrite Hw, Ha, Hb, Hmg.
Qed.

(** Every validated [__init__] followed by [build] ends in a built layer,
    from any world and for any outcome of the random initialisers. *)
Lemma init_build_built_layer σ id od rk al ei ai bi mi mz il sp nm :
  (0 < id)%Z → (0 < od)%Z → (0 < rk)%Z → s_leb al s_zero = false →
  ∃ x σ' l W0 A B m,
    (x ← __init__ id od rk al ei ai bi mi mz il sp nm; build x;; mret x) σ
    = (Ok x, σ')
    ∧ built_layer σ' x l W0 A B m
    ∧ preserves σ σ'.
Proof.
  intros Hid Hod Hrk Hal.
  cut (wp (x ← __init__ id od rk al ei ai bi mi mz il sp nm; build x;; mret x)
         σ (λ r σ', ∃ x l W0 A B m,
              r = Ok x ∧ built_layer σ' x l W0 A B m ∧ preserves σ σ')).
  { unfold wp.
    destruct ((x ← __init__ id od rk al ei ai bi mi mz il sp nm;
               build x;; mret x) σ) as [r σ']. simpl.
    intros (x & l & W0 & A & B & m & -> & Hbl & Hpres).
    by exists x, σ', l, W0, A, B, m. }
  apply wp_bind, wp_init; [done..|]. intros x Hx. cbv beta iota.
  apply wp_bind. eapply wp_build; [simpl; apply lookup_insert_eq|]. simpl.
  intros e a b mg E0 A0 B0 m0 p HE0 HA0 HB0 Hm0 _ He Ha Hb Hmg Hnd.
  rewrite insert_insert_eq. apply wp_ret.
  pose proof Hnd as Hnd'.
  apply NoDup_4 in Hnd' as (Hea & Heb & Hem & Hab & Ham & Hbm).
  match goal with
  | |- context [<[x := ?lx]> _] => exists x, lx, E0, A0, B0, m0
  end.
  split; [done|]. split.
  - apply (built_layer_intro _ _ _ e a b mg);
      unfold built_attributes, attributes; simpl; try done.
    + apply lookup_insert_eq.
    + rewrite !lookup_insert_ne by done. apply lookup_insert_eq.
    + rewrite !lookup_insert_ne by done. apply lookup_insert_eq.
    + rewrite !lookup_insert_ne by done. apply lookup_insert_eq.
    + apply lookup_insert_eq.
  - split; simpl.
    + intros v Hv. by apply lookup_insert4_old.
    + intros o Ho. rewrite lookup_insert_ne; [done|by eapply fresh_ne].
Qed.

(** A matrix of another shape is refused before anything is assigned. *)
Lemma run_load_pretrained_embeddings_mismatch σ self l W0 A B m P :
  built_layer σ self l W0 A B m →
  shape (Tensor2 P) ≠ [Z.to_nat (input_dim l); Z.to_nat (output_dim l)] →
  load_pretrained_embeddings self P σ = (Raise ShapeMismatch, σ).
Proof.
  intros [Hself _ Hid _ _ _ _ (w & Hw & HW0v) _ _ _ HW0 _ _ _ _] HP.
  apply wp_run. unfold load_pretrained_embeddings.
  apply wp_bind, (wp_getattr _ l); [done|].
  rewrite Hw. apply wp_bind, wp_ret.
  apply wp_bind, (wp_value _ (Tensor2 W0)); [done|].
  rewrite decide_True; [by apply wp_raise|].
  by rewrite (has_shape_shape _ _ _ HW0) by lia.
Qed.

(** A matrix of the layer's shape replaces [W0], and [m] becomes its
    column norms; [A] and [B] stay. *)
Lemma wp_load_pretrained_embeddings σ self l W0 A B m P Φ :
  built_layer σ self l W0 A B m →
  has_shape (Z.to_nat (input_dim l)) (Z.to_nat (output_dim l)) P →
  (∀ σ',
     built_layer σ' self l P A B (np.linalg_norm_axis0 P) →
     objs σ' = objs σ →
     dom (vars σ') = dom (vars σ) →
     (∀ v, embeddings l ≠ Some v → magnitude l ≠ Some v →
           vars σ' !! v = vars σ !! v) →
     Φ (Ok ()) σ') →
  wp (load_pretrained_embeddings self P) σ Φ.
Proof.
  intros [Hself Hblt Hid Hod Hrk Halpha Hsc (w & Hw & HW0v)
    (a0 & Ha0 & HAv) (b0 & Hb0 & HBv) (g0 & Hg0 & Hmv) HW0 HA HB Hm Hnd]
    HP HΦ.
  unfold weights in Hnd. rewrite Hw, Ha0, Hb0, Hg0 in Hnd. simpl in Hnd.
  apply NoDup_4 in Hnd as (Hwa & Hwb & Hwg & Hab & Hag & Hbg).
  unfold load_pretrained_embeddings.
  apply wp_bind, (wp_getattr _ l); [done|].
  rewrite Hw. apply wp_bind, wp_ret.
  apply wp_bind, (wp_value _ (Tensor2 W0)); [done|].
  rewrite decide_False.
  2:{ intros Hne. apply Hne.
      by rewrite (has_shape_shape _ _ _ HW0), (has_shape_shape _ _ _ HP) by lia. }
  apply wp_bind, (wp_assign _ _ (Tensor2 W0)); [done| |].
  { by rewrite (has_shape_shape _ _ _ HW0), (has_shape_shape _ _ _ HP) by lia. }
  apply wp_bind, (wp_getattr _ l); [done|].
  rewrite Hg0. apply wp_bind, wp_ret.
  apply (wp_assign _ _ (Tensor1 m)).
  { simpl. by rewrite lookup_insert_ne. }
  { simpl. rewrite Hm. by rewrite (length_linalg_norm_axis0 _ _ _ HP) by lia. }
  simpl. apply HΦ; simpl; try done.
  - split; simpl; try done.
    + exists w. split; [done|].
      rewrite lookup_insert_ne by done. apply lookup_insert_eq.
    + exists a0. split; [done|]. by rewrite !lookup_insert_ne.
    + exists b0. split; [done|]. by rewrite !lookup_insert_ne.
    + exists g0. split; [done|]. apply lookup_insert_eq.
    + apply (length_linalg_norm_axis0 _ _ _ HP). lia.
    + unfold weights. rewrite Hw, Ha0, Hb0, Hg0. simpl.
      repeat (apply NoDup_cons_2;
              [rewrite ?elem_of_cons, elem_of_nil; intuition congruence|]).
      apply NoDup_nil_2.
  - rewrite !dom_insert_lookup_L; [done|by eexists|].
    rewrite lookup_insert_ne by done. by eexists.
  - intros v Hv1 Hv2. rewrite !lookup_insert_ne; [done|congruence..].
Qed.

End LoadRules.

(** ** Exact arithmetic: sums of squares and column norms *)

Section RealFacts.
Open Scope R_scope.
Implicit Types X Y A B : list (list R).
Implicit Types f g : nat → R.

Lemma foldr_Rplus_scale (l : list nat) a f :
  foldr Rplus 0 ((λ i, a * f i) <$> l) = a * foldr Rplus 0 (f <$> l).
Proof. induction l as [|x l IH]; csimpl; [lra|]. rewrite IH. lra. Qed.



Lemma big_sum_scale n a f :
  big_sum n (λ i, a * f i) = a * big_sum n f.
Proof. apply foldr_Rplus_scale. Qed.







Lemma entry_zeros r c i j : entry (ops.zeros r c : list (list R)) i j = 0.
Proof.
  unfold entry, ops.zeros. rewrite (nth_lookup (replicate r _)).
  destruct (replicate r (replicate c s_zero) !! i) as [row|] eqn:Hi; simpl.
  - apply lookup_replicate in Hi as [-> _]. rewrite nth_lookup.
    destruct (replicate c s_zero !! j) as [x|] eqn:Hj; simpl; [|done].
    by apply lookup_replicate in Hj as [-> _].
  - by destruct j.
Qed.


(** With [B = 0] the low-rank correction vanishes. *)
Lemma spec_combined_zeros k c W0 A s i j :
  spec_combined k W0 A (ops.zeros k c) s i j = entry W0 i j.
Proof.
  unfold spec_combined, spec_delta. simpl.
  rewrite (big_sum_ext _ _ (λ x, 0 * entry A i x)).
  - rewrite big_sum_scale. lra.
  - intros x _. rewrite entry_zeros. simpl. lra.
Qed.

Section Columns.
Variables (r c k : nat) (W0 A B : list (list R)) (m : list R) (s : R).

Local Abbreviation raw_norm := (raw_norm r k W0 A B s).

Lemma spec_norm_raw j : spec_norm r k W0 A B s j = Rmax (raw_norm j) (/ 100000000).
Proof. done. Qed.

End Columns.

(** The round trip of a dense matrix [W]: [W0 = W], [B = 0], [m] the
    column norms of [W]. *)
Section RoundTrip.
Variables (r c k : nat) (W A : list (list R)) (s : R).
Hypothesis HW : has_shape r c W.
Hypothesis Hr : (0 < r)%nat.

Local Abbreviation dense_norm := (dense_norm r W).

Lemma raw_norm_zeros j : raw_norm r k W A (ops.zeros k c) s j = dense_norm j.
Proof.
  unfold raw_norm, dense_norm. f_equal. apply big_sum_ext. intros i _.
  by rewrite spec_combined_zeros.
Qed.



End RoundTrip.
End RealFacts.

(** ** Frames *)

Section Frames.
Context {T : Type} `{Scalar T}.
Implicit Types σ : world T.
Implicit Types l : DoRAEmbedding T.

(** A built layer stays as it is in every world that preserves its
    variables and itself. *)
Lemma built_layer_preserves σ σ' self l W0 A B m :
  built_layer σ self l W0 A B m → preserves σ σ' →
  built_layer σ' self l W0 A B m.
Proof.
  intros [Hself Hblt Hid Hod Hrk Halpha Hsc (w & Hw & HW0v)
    (a0 & Ha0 & HAv) (b0 & Hb0 & HBv) (g0 & Hg0 & Hmv) HW0 HA HB Hm Hnd]
    [Hvars Hobjs].
  split; try done.
  - rewrite Hobjs; [done|by eapply lookup_dom].
  - exists w. split; [done|]. rewrite Hvars; [done|by eapply lookup_dom].
  - exists a0. split; [done|]. rewrite Hvars; [done|by eapply lookup_dom].
  - exists b0. split; [done|]. rewrite Hvars; [done|by eapply lookup_dom].
  - exists g0. split; [done|]. rewrite Hvars; [done|by eapply lookup_dom].
Qed.

Lemma NoDup_4_intro (e a b mg : nat) :
  e ≠ a → e ≠ b → e ≠ mg → a ≠ b → a ≠ mg → b ≠ mg → NoDup [e; a; b; mg].
Proof.
  intros. repeat (apply NoDup_cons_2;
                  [rewrite ?elem_of_cons, elem_of_nil; intuition congruence|]).
  apply NoDup_nil_2.
Qed.
End Frames.

(** ** The concrete layers are built layers *)

Lemma demo_built :
  built_layer demo_world 0 demo_layer demo_W0 demo_A demo_B demo_m.
Proof.
  apply (built_layer_intro _ _ _ 0 1 2 3); try reflexivity.
  - split; [reflexivity|]. by repeat constructor.
  - split; [reflexivity|]. by repeat constructor.
  - split; [reflexivity|]. by repeat constructor.
  - by apply NoDup_4_intro.
Qed.

Lemma unit_built (w a b g : R) :
  built_layer (unit_world w a b g) 0 unit_layer [[w]] [[a]] [[b]] [g].
Proof.
  apply (built_layer_intro _ _ _ 0 1 2 3); try reflexivity.
  - simpl. destruct (Rle_dec 1 0) as [Hle|Hnle]; [lra|done].
  - split; [reflexivity|]. by repeat constructor.
  - split; [reflexivity|]. by repeat constructor.
  - split; [reflexivity|]. by repeat constructor.
  - by apply NoDup_4_intro.
Qed.

(** ** The claims *)

Section Claims.
Context {T : Type} `{Scalar T}.
Implicit Types σ : world T.
Implicit Types l : DoRAEmbedding T.

(** C2. On a built layer holding [W0], [A], [B], [m], with scaling
    [alpha / rank], [_get_effective_embeddings] returns exactly the matrix
    the specification computes entry by entry:
    [E[i,j] = (combined[i,j] / max(sqrt(Σ_i combined[i,j]^2), 1e-8)) * m[j]]
    with [combined = W0 + (A @ B) * s]. Nothing relates [rank] to the
    dimensions: the statement covers [rank] above both. The world is left
    as it was. *)
Theorem get_effective_embeddings_algorithm σ self l W0 A B m :
  built_layer σ self l W0 A B m →
  _get_effective_embeddings self σ
  = (Ok (effective_matrix (Z.to_nat (input_dim l)) (Z.to_nat (output_dim l))
           (Z.to_nat (rank l)) W0 A B m
           (s_div (alpha l) (s_of_Z (rank l)))), σ).
Proof.
  intros Hbl. rewrite (run_get_effective_embeddings _ _ _ _ _ _ _ Hbl).
  destruct Hbl as [_ _ Hid Hod Hrk _ Hsc _ _ _ _ HW0 HA HB Hlen _].
  do 2 f_equal. rewrite Hsc.
  apply dora_embeddings_effective_matrix; try done; lia.
Qed.

(** C3, as the code has it. Before [build]: [expand_vocabulary] with a
    larger target reports [NotBuilt] at once; with a target that is not
    larger the size check comes first and [InvalidArgument] is reported;
    the effective matrix and the merge have no check of their own and
    fail on the first weight, which is still [None]. The world is
    unchanged in every case. *)
Theorem unbuilt_layer_rejection σ self l :
  objs σ !! self = Some l → unbuilt l →
  (∀ n emb, (input_dim l < n)%Z →
     expand_vocabulary self n emb σ = (Raise NotBuilt, σ))
  ∧ (∀ n emb, (n ≤ input_dim l)%Z →
       expand_vocabulary self n emb σ = (Raise InvalidArgument, σ))
  ∧ get_effective_embeddings self σ = (Raise NoneWeight, σ)
  ∧ merge_weights self σ = (Raise NoneWeight, σ).
Proof.
  intros Hself (Hblt & _ & Ha & _). repeat split.
  - intros n emb Hn. apply wp_run. unfold expand_vocabulary.
    apply wp_bind, (wp_getattr _ l); [done|].
    rewrite (proj2 (Z.leb_gt _ _)) by lia. rewrite Hblt. by apply wp_raise.
  - intros n emb Hn. apply wp_run. unfold expand_vocabulary.
    apply wp_bind, (wp_getattr _ l); [done|].
    rewrite (proj2 (Z.leb_le _ _)) by lia. by apply wp_raise.
  - by apply run_get_effective_embeddings_unbuilt with l.
  - apply wp_run. unfold merge_weights. apply wp_bind.
    eapply run_wp; [by apply run_get_effective_embeddings_unbuilt with l|done].
Qed.

(** C4. Growing a built layer from [R] to [n > R] rows succeeds, with
    caller-supplied rows of the right shape or with freshly initialised
    ones, and the grown layer is a built layer whose [W0] and [A] start
    with the original [R] rows and whose [B] and [m] are the originals.
    Supplied rows are the remaining rows of the new [W0]. *)
Theorem expand_vocabulary_preserves_prefix σ self l W0 A B m n emb :
  built_layer σ self l W0 A B m →
  (input_dim l < n)%Z →
  (∀ X, emb = Some X →
        has_shape (Z.to_nat (n - input_dim l)) (Z.to_nat (output_dim l)) X) →
  ∃ x σ' lx W0' A',
    expand_vocabulary self n emb σ = (Ok x, σ')
    ∧ built_layer σ' x lx W0' A' B m
    ∧ input_dim lx = n ∧ output_dim lx = output_dim l ∧ rank lx = rank l
    ∧ take (Z.to_nat (input_dim l)) W0' = W0
    ∧ take (Z.to_nat (input_dim l)) A' = A
    ∧ (∀ X, emb = Some X → drop (Z.to_nat (input_dim l)) W0' = X).
Proof.
  intros Hbl Hn Hemb.
  pose proof (bl_W0 _ _ _ _ _ _ _ Hbl) as [HlW _].
  pose proof (bl_A _ _ _ _ _ _ _ Hbl) as [HlA _].
  cut (wp (expand_vocabulary self n emb) σ (λ r σ',
         ∃ x lx W0' A', r = Ok x
           ∧ built_layer σ' x lx W0' A' B m
           ∧ input_dim lx = n ∧ output_dim lx = output_dim l
           ∧ rank lx = rank l
           ∧ take (Z.to_nat (input_dim l)) W0' = W0
           ∧ take (Z.to_nat (input_dim l)) A' = A
           ∧ (∀ X, emb = Some X → drop (Z.to_nat (input_dim l)) W0' = X))).
  { unfold wp. destruct (expand_vocabulary self n emb σ) as [r σ']. simpl.
    intros (x & lx & W0' & A' & -> & Hrest). by exists x, σ', lx, W0', A'. }
  apply (wp_expand_vocabulary σ self l W0 A B m n Hbl Hn emb); [done|].
  intros σ' x lx N Na _ _ _ Hblx Hlx _ _ HN.
  exists x, lx, (W0 ++ N), (A ++ Na).
  split; [done|]. split; [exact Hblx|].
  split; [by rewrite Hlx|]. split; [by rewrite Hlx|].
  split; [by rewrite Hlx|].
  split; [rewrite <- HlW; apply take_app_length|].
  split; [rewrite <- HlA; apply take_app_length|].
  intros X HX. rewrite <- HlW, drop_app_length. by apply HN.
Qed.

(** C7. On a built layer, a matrix of another shape makes
    [load_pretrained_embeddings] raise [ShapeMismatch] with the world
    unchanged; caller-supplied rows of another shape make
    [expand_vocabulary] raise ([ShapeMismatch] for a larger target,
    [InvalidArgument] from the earlier size check otherwise), after which
    every variable and every layer object that existed is unchanged, the
    layer among them. *)
Theorem shape_mismatch_atomic σ self l W0 A B m :
  built_layer σ self l W0 A B m →
  (∀ P, shape (Tensor2 P)
          ≠ [Z.to_nat (input_dim l); Z.to_nat (output_dim l)] →
        load_pretrained_embeddings self P σ = (Raise ShapeMismatch, σ))
  ∧ (∀ n X,
       shape (Tensor2 X)
         ≠ [Z.to_nat (n - input_dim l); Z.to_nat (output_dim l)] →
       ∃ σ', expand_vocabulary self n (Some X) σ
             = (Raise (if decide (input_dim l < n)%Z
                       then ShapeMismatch else InvalidArgument), σ')
             ∧ preserves σ σ'
             ∧ built_layer σ' self l W0 A B m).
Proof.
  intros Hbl. split.
  - intros P HP. by eapply run_load_pretrained_embeddings_mismatch.
  - intros n X HX. destruct (decide (input_dim l < n)%Z) as [Hn|Hn].
    + cut (wp (expand_vocabulary self n (Some X)) σ (λ r σ',
             r = Raise ShapeMismatch ∧ preserves σ σ')).
      { unfold wp. destruct (expand_vocabulary self n (Some X) σ) as [r σ'].
        simpl. intros [-> Hpres]. exists σ'.
        eauto using built_layer_preserves. }
      by apply (wp_expand_vocabulary_mismatch σ self l W0 A B m n Hbl Hn).
    + exists σ. split; [|by split].
      apply wp_run. unfold expand_vocabulary.
      apply wp_bind, (wp_getattr _ l); [apply Hbl|].
      rewrite (proj2 (Z.leb_le _ _)) by lia. by apply wp_raise.
Qed.

(** C9. On a built layer, whatever the target size and the supplied
    rows, [expand_vocabulary] leaves every variable and every layer object
    that existed unchanged: the original layer object keeps all its
    attributes and is the same built layer holding the same [W0], [A],
    [B], [m]. When it returns, which it does exactly when the target is
    larger and the supplied rows, if any, have the right shape, the
    result is a layer object that did not exist before, built on four
    variables that did not exist before. *)
Theorem expand_vocabulary_leaves_original σ self l W0 A B m n emb :
  built_layer σ self l W0 A B m →
  (∀ X, emb = Some X → rect X) →
  ∃ r σ',
    expand_vocabulary self n emb σ = (r, σ')
    ∧ preserves σ σ'
    ∧ objs σ' !! self = Some l
    ∧ built_layer σ' self l W0 A B m
    ∧ match r with
      | Ok x =>
          (input_dim l < n)%Z
          ∧ (x ∉ dom (objs σ)) ∧ x ≠ self
          ∧ ∃ lx W0' A',
              built_layer σ' x lx W0' A' B m
              ∧ length (weights lx) = 4
              ∧ Forall (λ v, v ∉ dom (vars σ)) (weights lx)
      | Raise e =>
          (e = InvalidArgument ∧ (n ≤ input_dim l)%Z ∧ σ' = σ)
          ∨ (e = ShapeMismatch ∧ (input_dim l < n)%Z
             ∧ ∃ X, emb = Some X
                    ∧ shape (Tensor2 X)
                      ≠ [Z.to_nat (n - input_dim l); Z.to_nat (output_dim l)])
      end.
Proof.
  intros Hbl Hrect.
  pose proof (bl_self _ _ _ _ _ _ _ Hbl) as Hself.
  cut (wp (expand_vocabulary self n emb) σ (λ r σ',
         preserves σ σ'
         ∧ match r with
           | Ok x =>
               (input_dim l < n)%Z
               ∧ (x ∉ dom (objs σ))
               ∧ ∃ lx W0' A',
                   built_layer σ' x lx W0' A' B m
                   ∧ length (weights lx) = 4
                   ∧ Forall (λ v, v ∉ dom (vars σ)) (weights lx)
           | Raise e =>
               (e = InvalidArgument ∧ (n ≤ input_dim l)%Z ∧ σ' = σ)
               ∨ (e = ShapeMismatch ∧ (input_dim l < n)%Z
                  ∧ ∃ X, emb = Some X
                         ∧ shape (Tensor2 X)
                           ≠ [Z.to_nat (n - input_dim l);
                              Z.to_nat (output_dim l)])
           end)).
  { unfold wp. destruct (expand_vocabulary self n emb σ) as [r σ']. simpl.
    intros [Hpres Hr].
    pose proof (built_layer_preserves _ _ _ _ _ _ _ _ Hbl Hpres) as Hbl'.
    exists r, σ'. split; [done|]. split; [done|].
    split; [apply Hbl'|]. split; [done|].
    destruct r as [x|e]; [|done].
    destruct Hr as (Hn & Hx & Hrest). split; [done|]. split; [done|].
    split; [|done]. intros ->. apply Hx. by eapply lookup_dom. }
  destruct (decide (input_dim l < n)%Z) as [Hn|Hn].
  - assert (Decision (∀ X, emb = Some X →
              shape (Tensor2 X)
              = [Z.to_nat (n - input_dim l); Z.to_nat (output_dim l)]))
      as [Hshape|Hshape].
    { destruct emb as [X|].
      - destruct (decide (shape (Tensor2 X)
                          = [Z.to_nat (n - input_dim l);
                             Z.to_nat (output_dim l)])) as [Heq|Hne].
        + left. by intros ? [= <-].
        + right. intros Hall. by apply Hne, Hall.
      - left. by intros ? [=]. }
    + apply (wp_expand_vocabulary σ self l W0 A B m n Hbl Hn emb).
      { intros X HX. apply rect_has_shape; auto. }
      intros σ' x lx N Na Hpres Hx Hfresh Hblx _ _ _ _.
      split; [done|]. split; [done|]. split; [done|].
      exists lx, (W0 ++ N), (A ++ Na). split; [done|]. split; [|done].
      unfold weights.
      destruct Hblx as [_ _ _ _ _ _ _ (? & -> & _) (? & -> & _) (? & -> & _)
                          (? & -> & _) _ _ _ _ _]. done.
    + destruct emb as [X|]; [|by destruct Hshape; intros ? [=]].
      assert (shape (Tensor2 X)
              ≠ [Z.to_nat (n - input_dim l); Z.to_nat (output_dim l)])
        as Hne.
      { intros Heq. apply Hshape. by intros ? [= <-]. }
      apply (wp_expand_vocabulary_mismatch σ self l W0 A B m n Hbl Hn X);
        [exact Hne|].
      intros σ' Hpres. split; [done|]. right. eauto.
  - unfold expand_vocabulary.
    apply wp_bind, (wp_getattr _ l); [done|].
    rewrite (proj2 (Z.leb_le _ _)) by lia. apply wp_raise.
    split; [by split|]. left. split; [done|]. split; [lia|done].
Qed.

Lemma reads_vars_ret {U} (a : U) : reads_vars (mret a : M T U).
Proof. intros vs. by exists (Ok a). Qed.

Lemma reads_vars_raise {U} e : reads_vars (raise e : M T U).
Proof. intros vs. by exists (Raise e). Qed.

Lemma reads_vars_bind {U V} (m : M T U) (k : U → M T V) :
  reads_vars m → (∀ a, reads_vars (k a)) → reads_vars (m ≫= k).
Proof.
  intros Hm Hk vs. destruct (Hm vs) as [[a|e] Hr].
  - destruct (Hk a vs) as [r' Hr']. exists r'. intros os g p.
    unfold mbind, M_bind, bind. by rewrite Hr, Hr'.
  - exists (Raise e). intros os g p.
    unfold mbind, M_bind, bind. by rewrite Hr.
Qed.

Lemma reads_vars_value v : reads_vars (value v : M T (tensor T)).
Proof.
  intros vs. unfold value. simpl.
  destruct (vs !! v) as [t|]; by eexists.
Qed.

Lemma reads_vars_matrix_of w : reads_vars (matrix_of w : M T (list (list T))).
Proof.
  destruct w as [v|]; simpl; [|apply reads_vars_raise].
  apply reads_vars_bind; [apply reads_vars_value|].
  intros [x|X]; [apply reads_vars_raise|apply reads_vars_ret].
Qed.

Lemma reads_vars_vector_of w : reads_vars (vector_of w : M T (list T)).
Proof.
  destruct w as [v|]; simpl; [|apply reads_vars_raise].
  apply reads_vars_bind; [apply reads_vars_value|].
  intros [x|X]; [apply reads_vars_ret|apply reads_vars_raise].
Qed.

(** What [_get_effective_embeddings] does once it has the attributes
    of [self]. *)
Lemma reads_vars_effective l :
  reads_vars
    (A ← matrix_of (lora_a l);
     B ← matrix_of (lora_b l);
     W0 ← matrix_of (embeddings l);
     m ← vector_of (magnitude l);
     mret (dora_embeddings W0 A B m (scaling l))).
Proof.
  apply reads_vars_bind; [apply reads_vars_matrix_of|]. intros A.
  apply reads_vars_bind; [apply reads_vars_matrix_of|]. intros B.
  apply reads_vars_bind; [apply reads_vars_matrix_of|]. intros W0.
  apply reads_vars_bind; [apply reads_vars_vector_of|]. intros m.
  apply reads_vars_ret.
Qed.

(** C10. The [sparse] attribute does not change what [call] returns:
    for any layer object, any world and any inputs, the results with
    [sparse = True] and with [sparse = False] are the same. *)
Theorem sparse_flag_irrelevant σ self l inputs :
  (call self inputs (with_object σ self (set_sparse l true))).1
  = (call self inputs (with_object σ self (set_sparse l false))).1.
Proof.
  destruct (reads_vars_effective l (vars σ)) as [r Hr].
  assert (∀ b, (call self inputs (with_object σ self (set_sparse l b))).1
               = match r with
                 | Ok E => match ops.take E inputs with
                           | Some out => Ok out
                           | None => Raise IndexError
                           end
                 | Raise e => Raise e
                 end) as Hcall.
  { intros b. unfold call, _get_effective_embeddings, with_object.
    unfold mbind at 1, M_bind at 1, bind at 1.
    unfold mbind at 1, M_bind at 1, bind at 1.
    unfold getattr at 1. simpl. rewrite lookup_insert_eq.
    change (lora_a (set_sparse l b)) with (lora_a l).
    change (lora_b (set_sparse l b)) with (lora_b l).
    change (embeddings (set_sparse l b)) with (embeddings l).
    change (magnitude (set_sparse l b)) with (magnitude l).
    change (scaling (set_sparse l b)) with (scaling l).
    rewrite Hr. destruct r as [E|e]; [|done].
    unfold mbind, M_bind, bind, getattr. simpl. rewrite lookup_insert_eq.
    unfold ops_take. by destruct b, (ops.take E inputs). }
  by rewrite !Hcall.
Qed.
End Claims.

(** ** The generic claims on the concrete binary32 layers *)

(** The algorithm on the 2x3 layer of rank 4. *)
Lemma get_effective_embeddings_algorithm_witness :
  built_layer demo_world 0 demo_layer demo_W0 demo_A demo_B demo_m
  ∧ _get_effective_embeddings 0 demo_world
    = (Ok (effective_matrix 2 3 4 demo_W0 demo_A demo_B demo_m
             (F32.div (F32.of_Z 1) (F32.of_Z 4))), demo_world).
Proof.
  split; [exact demo_built|].
  exact (get_effective_embeddings_algorithm demo_world 0 demo_layer
           demo_W0 demo_A demo_B demo_m demo_built).
Defined.

(** The rejections on [DoRAEmbedding(10, 8, rank=4)] before [build]. *)
Lemma unbuilt_layer_rejection_witness :
  expand_vocabulary 0 15 None unbuilt_world = (Raise NotBuilt, unbuilt_world)
  ∧ expand_vocabulary 0 10 None unbuilt_world
    = (Raise InvalidArgument, unbuilt_world)
  ∧ get_effective_embeddings 0 unbuilt_world = (Raise NoneWeight, unbuilt_world)
  ∧ merge_weights 0 unbuilt_world = (Raise NoneWeight, unbuilt_world).
Proof.
  destruct (unbuilt_layer_rejection unbuilt_world 0
              (attributes 10 8 4 (F32.of_Z 1) Uniform HeUniform Zeros Ones
                 false None false "embedding"))
    as (Hbig & Hsmall & Heff & Hmerge).
  - reflexivity.
  - by repeat split.
  - split; [apply Hbig; simpl; lia|].
    split; [apply Hsmall; simpl; lia|]. by split.
Defined.

(** C3, as stated, fails: before [build], a target size that is not
    larger than [input_dim] is reported as [InvalidArgument], not as
    [NotBuilt]. *)
Lemma unbuilt_expand_small_target :
  (expand_vocabulary 0 5 None unbuilt_world).1 = Raise InvalidArgument
  ∧ (expand_vocabulary 0 5 None unbuilt_world).1 ≠ Raise NotBuilt.
Proof. split; [reflexivity|]. by vm_compute. Qed.

(** Growing the 2x3 layer to 3 rows with the supplied row (7, 8, 9). *)
Lemma expand_vocabulary_preserves_prefix_witness :
  ∃ x σ' lx W0' A',
    expand_vocabulary 0 3 (Some [F32.of_Z <$> [7; 8; 9]]%Z) demo_world = (Ok x, σ')
    ∧ built_layer σ' x lx W0' A' demo_B demo_m
    ∧ input_dim lx = 3%Z ∧ output_dim lx = 3%Z ∧ rank lx = 4%Z
    ∧ take 2 W0' = demo_W0
    ∧ take 2 A' = demo_A
    ∧ (∀ X, Some [F32.of_Z <$> [7; 8; 9]]%Z = Some X → drop 2 W0' = X).
Proof.
  apply (expand_vocabulary_preserves_prefix demo_world 0 demo_layer
           demo_W0 demo_A demo_B demo_m 3
           (Some [F32.of_Z <$> [7; 8; 9]]%Z) demo_built).
  - simpl. lia.
  - intros X [= <-]. split; [reflexivity|]. by repeat constructor.
Defined.

(** A 1x3 table loaded into the 2x3 layer, and a 1x2 block of new rows. *)
Lemma shape_mismatch_atomic_witness :
  load_pretrained_embeddings 0 [F32.of_Z <$> [1; 2; 3]]%Z demo_world
  = (Raise ShapeMismatch, demo_world)
  ∧ ∃ σ', expand_vocabulary 0 3 (Some [F32.of_Z <$> [7; 8]]%Z) demo_world
          = (Raise ShapeMismatch, σ')
          ∧ preserves demo_world σ'
          ∧ built_layer σ' 0 demo_layer demo_W0 demo_A demo_B demo_m.
Proof.
  destruct (shape_mismatch_atomic demo_world 0 demo_layer
              demo_W0 demo_A demo_B demo_m demo_built) as [Hload Hexpand].
  split.
  - apply Hload. intros Heq. vm_compute in Heq. discriminate.
  - apply (Hexpand 3%Z [F32.of_Z <$> [7; 8]]%Z).
    intros Heq. vm_compute in Heq. discriminate.
Defined.

(** Growing the 2x3 layer to 5 rows with freshly initialised rows. *)
Lemma expand_vocabulary_leaves_original_witness :
  ∃ r σ',
    expand_vocabulary 0 5 None demo_world = (r, σ')
    ∧ preserves demo_world σ'
    ∧ objs σ' !! 0 = Some demo_layer
    ∧ built_layer σ' 0 demo_layer demo_W0 demo_A demo_B demo_m
    ∧ match r with
      | Ok x =>
          (input_dim demo_layer < 5)%Z
          ∧ (x ∉ dom (objs demo_world)) ∧ x ≠ 0
          ∧ ∃ lx W0' A',
              built_layer σ' x lx W0' A' demo_B demo_m
              ∧ length (weights lx) = 4
              ∧ Forall (λ v, v ∉ dom (vars demo_world)) (weights lx)
      | Raise e =>
          (e = InvalidArgument ∧ (5 ≤ input_dim demo_layer)%Z
           ∧ σ' = demo_world)
          ∨ (e = ShapeMismatch ∧ (input_dim demo_layer < 5)%Z
             ∧ ∃ X : list (list spec_float), None = Some X
                    ∧ shape (Tensor2 X)
                      ≠ [Z.to_nat (5 - input_dim demo_layer);
                         Z.to_nat (output_dim demo_layer)])
      end.
Proof.
  apply (expand_vocabulary_leaves_original demo_world 0 demo_layer
           demo_W0 demo_A demo_B demo_m 5 None demo_built).
  intros X [=].
Defined.

(** The layer returns rows on valid indices, whatever the flag. *)
Example call_demo :
  (call 0 (Ixs [Ix 1; Ix 0]) demo_world).1
  = match (_get_effective_embeddings 0 demo_world).1 with
    | Ok [row0; row1] => Ok (Stack [Row row1; Row row0])
    | _ => Raise IndexError
    end.
Proof. by vm_compute. Qed.

(** ** The floor on the divisor *)






(** ** Conversion followed by the effective matrix *)

Section RoundTripRun.
Context {T : Type} `{Scalar T}.

End RoundTripRun.

(** ** The claims of exact arithmetic *)

Section RealClaims.
Open Scope R_scope.
Implicit Types σ : world R.
Implicit Types l : DoRAEmbedding R.




End RealClaims.

(** ** The claims of exact arithmetic on concrete layers *)

Section RealExamples.
Open Scope R_scope.











End RealExamples.

(** ** Construction and build *)

Section Construction.
Context {T : Type} `{Scalar T}.
Implicit Types σ : world T.
Implicit Types l : DoRAEmbedding T.

(** [build], with what the default initialisers of [B] and [m] leave in
    the new variables. *)
Lemma wp_build_initial self l σ Φ :
  objs σ !! self = Some l →
  (∀ e a b mg E A B mv p,
     has_shape (Z.to_nat (input_dim l)) (Z.to_nat (output_dim l)) E →
     has_shape (Z.to_nat (input_dim l)) (Z.to_nat (rank l)) A →
     has_shape (Z.to_nat (rank l)) (Z.to_nat (output_dim l)) B →
     length mv = Z.to_nat (output_dim l) →
     (lora_b_initializer l = Zeros →
      B = ops.zeros (Z.to_nat (rank l)) (Z.to_nat (output_dim l))) →
     (magnitude_initializer l = Ones →
      mv = replicate (Z.to_nat (output_dim l)) s_one) →
     e ∉ dom (vars σ) → a ∉ dom (vars σ) → b ∉ dom (vars σ) →
     mg ∉ dom (vars σ) → NoDup [e; a; b; mg] →
     Φ (Ok ())
       (World
          (<[mg := Tensor1 mv]>
             (<[b := Tensor2 B]>
                (<[a := Tensor2 A]> (<[e := Tensor2 E]> (vars σ)))))
          (<[self := built_attributes l e a b mg]> (objs σ))
          (rng σ) p)) →
  wp (build self) σ Φ.
Proof.
  intros Hself HΦ. unfold build.
  apply wp_bind, (wp_getattr _ l); [done|].
  apply wp_bind, wp_add_weight2. intros E p1 e HE _ He.
  apply wp_bind, (wp_setattr _ _ _ l); [done|]. simpl.
  apply wp_bind, wp_add_weight2. simpl. intros A p2 a HA _ Ha.
  apply not_elem_of_dom_insert in Ha as [Hae Ha].
  apply wp_bind, (wp_setattr _ _ _ (set_embeddings l (Some e)));
    [simpl; apply lookup_insert_eq|]. simpl.
  apply wp_bind, wp_add_weight2. simpl. intros B p3 b HB HBz Hb.
  apply not_elem_of_dom_insert in Hb as [Hba Hb].
  apply not_elem_of_dom_insert in Hb as [Hbe Hb].
  apply wp_bind,
    (wp_setattr _ _ _ (set_lora_a (set_embeddings l (Some e)) (Some a)));
    [simpl; apply lookup_insert_eq|]. simpl.
  apply wp_bind, wp_add_weight1. simpl. intros mv p4 mg Hmv Hone Hmg.
  apply not_elem_of_dom_insert in Hmg as [Hmb Hmg].
  apply not_elem_of_dom_insert in Hmg as [Hma Hmg].
  apply not_elem_of_dom_insert in Hmg as [Hme Hmg].
  apply wp_bind,
    (wp_setattr _ _ _
       (set_lora_b (set_lora_a (set_embeddings l (Some e)) (Some a)) (Some b)));
    [simpl; apply lookup_insert_eq|]. simpl.
  apply (wp_setattr _ _ _
           (set_magnitude
              (set_lora_b (set_lora_a (set_embeddings l (Some e)) (Some a))
                 (Some b)) (Some mg)));
    [simpl; apply lookup_insert_eq|]. simpl.
  rewrite !insert_insert_eq.
  apply HΦ; try done.
  by apply NoDup_4_intro.
Qed.

(** X1. [__init__] accepts its arguments exactly when [input_dim],
    [output_dim] and [rank] are positive and [alpha <= 0] is false. A
    refusal names the first argument at fault, in the order [input_dim],
    [output_dim], [rank], [alpha], and leaves the world as it was. An
    accepted call creates one new layer object, not built and without
    weights, and no variable. *)
Theorem init_validates_in_order σ id od rk (al : T) ei ai bi mi mz il sp nm :
  ((∃ o σ', __init__ id od rk al ei ai bi mi mz il sp nm σ = (Ok o, σ'))
   ↔ (0 < id)%Z ∧ (0 < od)%Z ∧ (0 < rk)%Z ∧ s_leb al s_zero = false)
  ∧ (∀ e σ',
       __init__ id od rk al ei ai bi mi mz il sp nm σ = (Raise e, σ') →
       σ' = σ
       ∧ e = InvalidParameter
               (if (id <=? 0)%Z then "input_dim"
                else if (od <=? 0)%Z then "output_dim"
                else if (rk <=? 0)%Z then "rank" else "alpha"))
  ∧ (∀ o σ',
       __init__ id od rk al ei ai bi mi mz il sp nm σ = (Ok o, σ') →
       (o ∉ dom (objs σ))
       ∧ σ' = with_object σ o
                (attributes id od rk al ei ai bi mi mz il sp nm)
       ∧ unbuilt (attributes id od rk al ei ai bi mi mz il sp nm)).
Proof.
  unfold __init__.
  destruct (Z.leb_spec id 0) as [Hi|Hi].
  { split; [split; [by intros (? & ? & ?)|lia]|].
    split; [|done]. by intros e σ' [= <- <-]. }
  destruct (Z.leb_spec od 0) as [Ho|Ho].
  { split; [split; [by intros (? & ? & ?)|lia]|].
    split; [|done]. by intros e σ' [= <- <-]. }
  destruct (Z.leb_spec rk 0) as [Hr|Hr].
  { split; [split; [by intros (? & ? & ?)|lia]|].
    split; [|done]. by intros e σ' [= <- <-]. }
  destruct (s_leb al s_zero) eqn:Ha.
  { split; [split; [by intros (? & ? & ?)|by intros (_ & _ & _ & ?)]|].
    split; [|done]. by intros e σ' [= <- <-]. }
  split; [split; [done|]|].
  - intros _. by eexists _, _.
  - split; [done|]. intros o σ' [= <- <-].
    split; [apply is_fresh|]. split; [done|]. by repeat split.
Qed.

(** A validated [__init__] followed by [build], with the attributes
    and the variables of the new layer. *)
Lemma wp_init_build σ id od rk (al : T) ei ai bi mi mz il sp nm Φ :
  (0 < id)%Z → (0 < od)%Z → (0 < rk)%Z → s_leb al s_zero = false →
  (∀ x σ' e a b mg W0 A B m,
     x ∉ dom (objs σ) →
     Forall (λ v, v ∉ dom (vars σ)) [e; a; b; mg] →
     built_layer σ' x
       (built_attributes
          (attributes id od rk al ei ai bi mi mz il sp nm) e a b mg)
       W0 A B m →
     (bi = Zeros → B = ops.zeros (Z.to_nat rk) (Z.to_nat od)) →
     (mi = Ones → m = replicate (Z.to_nat od) s_one) →
     preserves σ σ' →
     Φ (Ok x) σ') →
  wp (x ← __init__ id od rk al ei ai bi mi mz il sp nm; build x;; mret x)
    σ Φ.
Proof.
  intros Hid Hod Hrk Hal HΦ.
  apply wp_bind, wp_init; [done..|]. intros x Hx. cbv beta iota.
  apply wp_bind. eapply wp_build_initial; [simpl; apply lookup_insert_eq|].
  simpl.
  intros e a b mg E0 A0 B0 m0 p HE0 HA0 HB0 Hm0 HBz Hone He Ha Hb Hmg Hnd.
  rewrite insert_insert_eq. apply wp_ret.
  pose proof Hnd as Hnd'.
  apply NoDup_4 in Hnd' as (Hea & Heb & Hem & Hab & Ham & Hbm).
  apply (HΦ x _ e a b mg E0 A0 B0 m0); try done.
  - by repeat constructor.
  - apply (built_layer_intro _ _ _ e a b mg);
      unfold built_attributes, attributes; simpl; try done.
    + apply lookup_insert_eq.
    + rewrite !lookup_insert_ne by done. apply lookup_insert_eq.
    + rewrite !lookup_insert_ne by done. apply lookup_insert_eq.
    + rewrite !lookup_insert_ne by done. apply lookup_insert_eq.
    + apply lookup_insert_eq.
  - split; simpl.
    + intros v Hv. by apply lookup_insert4_old.
    + intros o Ho. rewrite lookup_insert_ne; [done|by eapply fresh_ne].
Qed.

(** X2. With valid arguments, [__init__] followed by [build] succeeds
    from any world and for any outcome of the random initialisers. The
    new layer is a built layer on four variables that did not exist
    before, of shapes (R,C), (R,rank), (rank,C) and (C,); [B] is zero
    under the [zeros] initialiser and [m] is all ones under [ones] (the
    defaults); every variable and layer object that existed is
    unchanged. *)
Theorem new_layer_is_built σ id od rk (al : T) ei ai bi mi mz il sp nm :
  (0 < id)%Z → (0 < od)%Z → (0 < rk)%Z → s_leb al s_zero = false →
  ∃ x σ' e a b mg W0 A B m,
    (x ← __init__ id od rk al ei ai bi mi mz il sp nm; build x;; mret x) σ
    = (Ok x, σ')
    ∧ (x ∉ dom (objs σ))
    ∧ Forall (λ v, v ∉ dom (vars σ)) [e; a; b; mg]
    ∧ built_layer σ' x
        (built_attributes
           (attributes id od rk al ei ai bi mi mz il sp nm) e a b mg)
        W0 A B m
    ∧ (bi = Zeros → B = ops.zeros (Z.to_nat rk) (Z.to_nat od))
    ∧ (mi = Ones → m = replicate (Z.to_nat od) s_one)
    ∧ preserves σ σ'.
Proof.
  intros Hid Hod Hrk Hal.
  cut (wp (x ← __init__ id od rk al ei ai bi mi mz il sp nm; build x;; mret x)
         σ (λ r σ', ∃ x e a b mg W0 A B m,
              r = Ok x
              ∧ (x ∉ dom (objs σ))
              ∧ Forall (λ v, v ∉ dom (vars σ)) [e; a; b; mg]
              ∧ built_layer σ' x
                  (built_attributes
                     (attributes id od rk al ei ai bi mi mz il sp nm)
                     e a b mg) W0 A B m
              ∧ (bi = Zeros → B = ops.zeros (Z.to_nat rk) (Z.to_nat od))
              ∧ (mi = Ones → m = replicate (Z.to_nat od) s_one)
              ∧ preserves σ σ')).
  { unfold wp.
    destruct ((x ← __init__ id od rk al ei ai bi mi mz il sp nm;
               build x;; mret x) σ) as [r σ']. simpl.
    intros (x & e & a & b & mg & W0 & A & B & m & -> & Hrest).
    by exists x, σ', e, a, b, mg, W0, A, B, m. }
  apply wp_init_build; [done..|].
  intros x σ' e a b mg W0 A B m Hx Hnew Hbl HB Hm Hpres.
  by exists x, e, a, b, mg, W0, A, B, m.
Qed.
End Construction.

(** ** Index tensors *)

Lemma indices_ind' (P : indices → Prop) :
  (∀ i, P (Ix i)) → (∀ l, Forall P l → P (Ixs l)) → ∀ x, P x.
Proof.
  intros Hi Hl. fix IH 1. intros [i|l]; [apply Hi|].
  apply Hl. induction l as [|x l IHl]; constructor; [apply IH|apply IHl].
Qed.

Section Lookup.
Context {T : Type} `{Scalar T}.
Implicit Types σ : world T.

(** [_get_effective_embeddings] reads and never writes. *)
Lemma effective_frame σ self r σ' :
  _get_effective_embeddings self σ = (r, σ') → σ' = σ.
Proof.
  unfold _get_effective_embeddings.
  unfold mbind at 1, M_bind at 1, bind at 1. unfold getattr.
  destruct (objs σ !! self) as [l|]; [|by intros [= _ <-]].
  destruct (reads_vars_effective l (vars σ)) as [r0 Hr0].
  destruct σ as [vs os g p]. simpl. rewrite Hr0. by intros [= _ <-].
Qed.

Lemma take_cons (E : list (list T)) x l :
  ops.take E (Ixs (x :: l))
  = match ops.take E x, ops.take E (Ixs l) with
    | Some y, Some (Stack ys) => Some (Stack (y :: ys))
    | _, _ => None
    end.
Proof. simpl. by repeat case_match; simplify_eq/=. Qed.

(** On a stack of index tensors [ops.take] works element by element. *)
Lemma take_Ixs (E : list (list T)) l out :
  ops.take E (Ixs l) = Some out
  ↔ ∃ ys, out = Stack ys ∧ Forall2 (λ x y, ops.take E x = Some y) l ys.
Proof.
  revert out. induction l as [|x l IHl]; intros out.
  - simpl. split.
    + intros [= <-]. exists []. by split; [|constructor].
    + intros (ys & -> & Hys). by inversion Hys.
  - rewrite take_cons. split.
    + destruct (ops.take E x) as [y|] eqn:Hy; [|done].
      destruct (ops.take E (Ixs l)) as [[v|ys]|]; [done| |done].
      intros [= <-].
      destruct (proj1 (IHl (Stack ys)) eq_refl) as (ys' & [= ->] & Hys).
      exists (y :: ys'). by split; [|constructor].
    + intros (ys & -> & Hys).
      inversion Hys as [|? y ? ys' Hy Hys']; subst. rewrite Hy.
      assert (ops.take E (Ixs l) = Some (Stack ys')) as ->; [|done].
      apply IHl. by exists ys'.
Qed.

Lemma take_in_range (E : list (list T)) r inputs :
  length E = r → in_range r inputs → is_Some (ops.take E inputs).
Proof.
  intros HE. induction inputs as [i|l IH] using indices_ind'; intros Hin.
  - inversion Hin as [? Hi|]; subst. simpl.
    destruct (Z.ltb_spec i 0) as [?|_]; [lia|].
    destruct (lookup_lt_is_Some_2 E (Z.to_nat i)) as [row Hrow]; [lia|].
    rewrite Hrow. by eexists.
  - inversion Hin as [|? Hl]; subst.
    cut (∃ ys, Forall2 (λ x y, ops.take E x = Some y) l ys).
    { intros [ys Hys]. exists (Stack ys). apply take_Ixs. by exists ys. }
    induction l as [|x l IHl]; [exists []; constructor|].
    inversion IH as [|?? Hx IHrest]; subst.
    inversion Hl as [|?? Hxin Hlin]; subst.
    destruct (Hx Hxin) as [y Hy].
    destruct (IHl IHrest (in_range_Ixs _ _ Hlin) Hlin) as [ys Hys].
    exists (y :: ys). by constructor.
Qed.

Lemma in_range_index_at r inputs pos i :
  in_range r inputs → index_at inputs pos = Some i →
  (0 ≤ i < Z.of_nat r)%Z.
Proof.
  revert pos. induction inputs as [j|l IH] using indices_ind';
    intros pos Hin Hpos.
  - destruct pos; [|done]. injection Hpos as ->. by inversion Hin.
  - destruct pos as [|p pos]; [done|]. simpl in Hpos.
    destruct (l !! p) as [x|] eqn:Hx; [|done].
    inversion Hin as [|? Hl]; subst.
    rewrite Forall_lookup in IH. rewrite Forall_lookup in Hl.
    by apply (IH p x Hx pos); [apply (Hl p)|].
Qed.

(** The element of the result at a position is the table row whose
    number the index tensor has at that position. *)
Lemma take_row_at (E : list (list T)) inputs out :
  ops.take E inputs = Some out →
  ∀ pos i, index_at inputs pos = Some i → row_at out pos = E !! Z.to_nat i.
Proof.
  revert out. induction inputs as [i|l IH] using indices_ind';
    intros out Hout pos j Hpos.
  - destruct pos; [|done]. injection Hpos as ->. simpl in Hout.
    destruct (Z.ltb_spec j 0); [done|].
    destruct (E !! Z.to_nat j) as [row|]; [|done].
    by injection Hout as <-.
  - destruct pos as [|p pos]; [done|]. simpl in Hpos.
    destruct (l !! p) as [x|] eqn:Hx; [|done].
    apply take_Ixs in Hout as (ys & -> & Hys).
    destruct (Forall2_lookup_l _ _ _ _ _ Hys Hx) as (y & Hy & Hxy).
    simpl. rewrite Hy. rewrite Forall_lookup in IH.
    by apply (IH p x Hx).
Qed.

(** The result has the shape of the index tensor, with one more axis for
    the columns of the table. *)
Lemma take_shape (E : list (list T)) r c inputs out s :
  has_shape r c E →
  ops.take E inputs = Some out →
  indices_shape s inputs → ndarray_shape s c out.
Proof.
  intros HE. revert out s.
  induction inputs as [i|l IH] using indices_ind'; intros out s Hout Hs.
  - destruct s; [|done]. simpl in Hout.
    destruct (Z.ltb_spec i 0); [done|].
    destruct (E !! Z.to_nat i) as [row|] eqn:Hrow; [|done].
    injection Hout as <-. simpl. by eapply has_shape_row.
  - destruct s as [|n s]; [done|]. destruct Hs as [Hn Hs].
    apply take_Ixs in Hout as (ys & -> & Hys). simpl.
    split; [by rewrite <- (Forall2_length _ _ _ Hys)|].
    clear Hn. induction Hys as [|x y l ys Hxy Hys IHys]; [constructor|].
    inversion IH; subst. inversion Hs; subst.
    constructor; [eauto|by apply IHys].
Qed.

(** [call] on a built layer and indices inside the table: a lookup in
    the effective matrix. *)
Lemma run_call_in_range σ self l W0 A B m inputs :
  built_layer σ self l W0 A B m →
  in_range (Z.to_nat (input_dim l)) inputs →
  ∃ out,
    ops.take (dora_embeddings W0 A B m (scaling l)) inputs = Some out
    ∧ call self inputs σ = (Ok out, σ)
    ∧ has_shape (Z.to_nat (input_dim l)) (Z.to_nat (output_dim l))
        (dora_embeddings W0 A B m (scaling l)).
Proof.
  intros Hbl Hin.
  pose proof (run_get_effective_embeddings _ _ _ _ _ _ _ Hbl) as Hrun.
  destruct Hbl as [Hself _ Hid Hod Hrk _ _ _ _ _ _ HW0 HA HB Hm _].
  assert (has_shape (Z.to_nat (input_dim l)) (Z.to_nat (output_dim l))
            (dora_embeddings W0 A B m (scaling l))) as HE.
  { apply (has_shape_dora_embeddings _ _ (Z.to_nat (rank l))); auto; lia. }
  destruct (take_in_range (dora_embeddings W0 A B m (scaling l))
              (Z.to_nat (input_dim l)) inputs) as [out Hout];
    [apply HE|done|].
  exists out. split; [done|]. split; [|done].
  unfold call. unfold mbind at 1, M_bind at 1, bind at 1. rewrite Hrun.
  unfold mbind, M_bind, bind, getattr. rewrite Hself.
  unfold ops_take. rewrite Hout. by destruct (sparse l).
Qed.

(** X3. On a built layer, [call] on indices that are row numbers of the
    table succeeds and leaves the world as it was; at every position of
    the index tensor the result holds the row of the effective matrix
    ([get_effective_embeddings]) that the index there names. *)
Theorem call_looks_up_effective_rows σ self l W0 A B m inputs :
  built_layer σ self l W0 A B m →
  in_range (Z.to_nat (input_dim l)) inputs →
  ∃ E out,
    get_effective_embeddings self σ = (Ok E, σ)
    ∧ call self inputs σ = (Ok out, σ)
    ∧ ∀ pos i, index_at inputs pos = Some i →
               row_at out pos = E !! Z.to_nat i
               ∧ is_Some (E !! Z.to_nat i).
Proof.
  intros Hbl Hin.
  destruct (run_call_in_range _ _ _ _ _ _ _ _ Hbl Hin)
    as (out & Hout & Hcall & HE).
  exists (dora_embeddings W0 A B m (scaling l)), out.
  split; [by apply run_get_effective_embeddings|]. split; [done|].
  intros pos i Hpos. split; [by apply (take_row_at _ _ _ Hout)|].
  apply lookup_lt_is_Some_2. destruct HE as [-> _].
  pose proof (in_range_index_at _ _ _ _ Hin Hpos). lia.
Qed.
End Lookup.

(** ** Shapes, masks, parameters, configuration *)

Section Introspection.
Context {T : Type} `{Scalar T}.
Implicit Types σ : world T.

(** X4. On a built layer, for an index tensor of shape [s] whose indices
    are row numbers of the table, the tensor [call] returns has the shape
    [compute_output_shape] announces for [s]: [s] followed by
    [output_dim]. *)
Theorem call_has_computed_output_shape σ self l W0 A B m inputs s :
  built_layer σ self l W0 A B m →
  in_range (Z.to_nat (input_dim l)) inputs →
  indices_shape s inputs →
  ∃ out,
    call self inputs σ = (Ok out, σ)
    ∧ ndarray_shape s (Z.to_nat (output_dim l)) out
    ∧ compute_output_shape self ((λ n, Some (Z.of_nat n)) <$> s) σ
      = (Ok ((λ n, Some (Z.of_nat n)) <$> (s ++ [Z.to_nat (output_dim l)])),
         σ).
Proof.
  intros Hbl Hin Hs.
  destruct (run_call_in_range _ _ _ _ _ _ _ _ Hbl Hin)
    as (out & Hout & Hcall & HE).
  destruct Hbl as [Hself _ _ Hod _ _ _ _ _ _ _ _ _ _ _ _].
  exists out. split; [done|]. split; [by eapply take_shape|].
  unfold compute_output_shape, mbind, M_bind, bind, getattr.
  rewrite Hself, fmap_app. simpl. rewrite Z2Nat.id by lia.
  by destruct (input_length l).
Qed.

Lemma not_equal_shape inputs c s :
  indices_shape s inputs → mask_shape s (ops.not_equal inputs c).
Proof.
  revert s. induction inputs as [i|li IH] using indices_ind'; intros s Hs.
  - by destruct s.
  - destruct s as [|n s]; [done|]. destruct Hs as [Hn Hs]. simpl.
    split; [by rewrite length_fmap|].
    apply Forall_fmap. rewrite Forall_forall in *. intros x Hx.
    by apply IH, Hs.
Qed.

Lemma not_equal_at inputs c pos :
  mask_at (ops.not_equal inputs c) pos
  = (λ i, negb (i =? c)%Z) <$> index_at inputs pos.
Proof.
  revert pos. induction inputs as [i|li IH] using indices_ind'; intros pos.
  - by destruct pos.
  - destruct pos as [|p pos]; [done|]. simpl.
    rewrite list_lookup_fmap. destruct (li !! p) as [x|] eqn:Hx; [|done].
    simpl. rewrite Forall_lookup in IH. by apply (IH p x).
Qed.

(** X5. [compute_mask] needs no weights: on any layer object, built or
    not, and for any index tensor it succeeds without touching the
    world. Without [mask_zero] the mask is [None]. With [mask_zero] it is
    a boolean tensor of the shape of the inputs that is false exactly
    where the index is 0. *)
Theorem compute_mask_marks_index_zero σ self (l : DoRAEmbedding T) inputs :
  objs σ !! self = Some l →
  (mask_zero l = false → compute_mask self inputs σ = (Ok None, σ))
  ∧ (mask_zero l = true →
     ∃ mk, compute_mask self inputs σ = (Ok (Some mk), σ)
           ∧ (∀ s, indices_shape s inputs → mask_shape s mk)
           ∧ ∀ pos, mask_at mk pos
                    = (λ i, negb (i =? 0)%Z) <$> index_at inputs pos).
Proof.
  intros Hself. unfold compute_mask, mbind, M_bind, bind, getattr.
  rewrite Hself. split; intros ->; [done|].
  exists (ops.not_equal inputs 0). split; [done|]. split.
  - intros s. apply not_equal_shape.
  - apply not_equal_at.
Qed.

Lemma size_has_shape r c (X : list (list T)) :
  has_shape r c X → size (Tensor2 X) = r * c.
Proof.
  intros [<- Hc]. simpl. induction Hc as [|row X Hrow _ IH]; [done|].
  csimpl. rewrite IH, Hrow. lia.
Qed.

(** X6. On a built layer [get_dora_parameters] returns a dict with the
    three keys [lora_a], [lora_b] and [magnitude], whose values are the
    layer's own variables holding [A], [B] and [m]; the frozen
    [embeddings] are not in it. [count_params] is the number of scalars
    those three variables hold. *)
Theorem count_params_counts_dora_parameters σ self l W0 A B m :
  built_layer σ self l W0 A B m →
  ∃ d a b mg,
    get_dora_parameters self σ = (Ok d, σ)
    ∧ dom d = {[ "lora_a"; "lora_b"; "magnitude" ]}
    ∧ d !! "lora_a" = Some (lora_a l) ∧ lora_a l = Some a
    ∧ d !! "lora_b" = Some (lora_b l) ∧ lora_b l = Some b
    ∧ d !! "magnitude" = Some (magnitude l) ∧ magnitude l = Some mg
    ∧ vars σ !! a = Some (Tensor2 A)
    ∧ vars σ !! b = Some (Tensor2 B)
    ∧ vars σ !! mg = Some (Tensor1 m)
    ∧ count_params self σ
      = (Ok (Z.of_nat (size (Tensor2 A) + size (Tensor2 B) + size (Tensor1 m))),
         σ).
Proof.
  intros [Hself _ Hid Hod Hrk _ _ _ (a & Ha & HAv) (b & Hb & HBv)
            (mg & Hmg & Hmv) _ HA HB Hm _].
  eexists _, a, b, mg.
  split; [unfold get_dora_parameters, mbind, M_bind, bind, getattr;
          by rewrite Hself|].
  split; [rewrite !dom_insert_L, dom_singleton_L; set_solver|].
  split; [by rewrite lookup_insert_eq|]. split; [done|].
  split; [by rewrite lookup_insert_ne, lookup_insert_eq|]. split; [done|].
  split; [by rewrite !lookup_insert_ne, lookup_singleton_eq|].
  split; [done|]. split; [done|]. split; [done|]. split; [done|].
  unfold count_params, mbind, M_bind, bind, getattr. rewrite Hself.
  rewrite (size_has_shape _ _ _ HA), (size_has_shape _ _ _ HB).
  simpl. rewrite Hm. do 2 f_equal.
  rewrite !Nat2Z.inj_add, !Nat2Z.inj_mul, !Z2Nat.id by lia. done.
Qed.
End Introspection.

Section Derived.
Context {T : Type} `{Scalar T}.
Implicit Types σ : world T.

(** X7. The dict of [get_dora_parameters] holds the variables
    themselves, not copies: on a built layer, assigning new values of
    the right shapes through its three entries leaves a built layer that
    holds the new [A], [B] and [m] beside the old [W0], and the effective
    matrix is computed from them. *)
Theorem dora_parameters_are_the_variables σ self l W0 A B m A' B' m' :
  built_layer σ self l W0 A B m →
  has_shape (Z.to_nat (input_dim l)) (Z.to_nat (rank l)) A' →
  has_shape (Z.to_nat (rank l)) (Z.to_nat (output_dim l)) B' →
  length m' = Z.to_nat (output_dim l) →
  ∃ d a b mg σ',
    get_dora_parameters self σ = (Ok d, σ)
    ∧ d !! "lora_a" = Some (Some a)
    ∧ d !! "lora_b" = Some (Some b)
    ∧ d !! "magnitude" = Some (Some mg)
    ∧ (assign a (Tensor2 A');; assign b (Tensor2 B');;
       assign mg (Tensor1 m')) σ = (Ok (), σ')
    ∧ built_layer σ' self l W0 A' B' m'
    ∧ get_effective_embeddings self σ'
      = (Ok (dora_embeddings W0 A' B' m' (scaling l)), σ').
Proof.
  intros [Hself Hblt Hid Hod Hrk Hal Hsc (w & Hw & HW0v) (a & Ha & HAv)
            (b & Hb & HBv) (mg & Hmg & Hmv) HW0 HA HB Hm Hnd] HA' HB' Hm'.
  unfold weights in Hnd. rewrite Hw, Ha, Hb, Hmg in Hnd. simpl in Hnd.
  pose proof Hnd as Hnd'.
  apply NoDup_4 in Hnd' as (Hwa & Hwb & Hwm & Hab & Ham & Hbm).
  assert (built_layer
            (World (<[mg := Tensor1 m']>
                      (<[b := Tensor2 B']> (<[a := Tensor2 A']> (vars σ))))
               (objs σ) (rng σ) (rng_pos σ)) self l W0 A' B' m') as Hbl'.
  { apply (built_layer_intro _ _ _ w a b mg); simpl; try done.
    - by rewrite !lookup_insert_ne.
    - rewrite !lookup_insert_ne by done. apply lookup_insert_eq.
    - rewrite lookup_insert_ne by done. apply lookup_insert_eq.
    - apply lookup_insert_eq. }
  eexists _, a, b, mg, _.
  split; [unfold get_dora_parameters, mbind, M_bind, bind, getattr;
          by rewrite Hself|].
  split; [by rewrite lookup_insert_eq, Ha|].
  split; [by rewrite lookup_insert_ne, lookup_insert_eq, Hb|].
  split; [by rewrite !lookup_insert_ne, lookup_singleton_eq, Hmg|].
  split; [|split; [exact Hbl'|]].
  - apply wp_run.
    apply wp_bind, (wp_assign _ _ (Tensor2 A)); [done| |].
    { by rewrite (has_shape_shape _ _ _ HA), (has_shape_shape _ _ _ HA')
        by lia. }
    apply wp_bind, (wp_assign _ _ (Tensor2 B)).
    { simpl. by rewrite lookup_insert_ne. }
    { by rewrite (has_shape_shape _ _ _ HB), (has_shape_shape _ _ _ HB')
        by lia. }
    apply (wp_assign _ _ (Tensor1 m)).
    { simpl. by rewrite !lookup_insert_ne. }
    { simpl. by rewrite Hm, Hm'. }
    done.
  - by apply run_get_effective_embeddings.
Qed.

Lemma effective_Ok_self σ self E σ' :
  _get_effective_embeddings self σ = (Ok E, σ') → is_Some (objs σ !! self).
Proof.
  unfold _get_effective_embeddings.
  unfold mbind at 1, M_bind at 1, bind at 1. unfold getattr.
  by destruct (objs σ !! self).
Qed.

(** X8. [merge_weights] returns a dict with the single key [embeddings]
    and leaves the world as it was; looking the inputs up in that merged
    table, as a plain embedding table, gives what [call] gives, in every
    world and for every index tensor, failures included. *)
Theorem merged_table_lookup_is_call σ self inputs :
  (∀ d σ', merge_weights self σ = (Ok d, σ') →
           σ' = σ ∧ dom d = {[ "embeddings" ]})
  ∧ (d ← merge_weights self;
     match d !! "embeddings" with
     | Some E => ops_take E inputs
     | None => raise BadReference
     end) σ
    = call self inputs σ.
Proof.
  unfold merge_weights, call. split.
  - intros d σ'. unfold mbind, M_bind, bind.
    destruct (_get_effective_embeddings self σ) as [[E|e] σ0] eqn:Hrun;
      [|done].
    apply effective_frame in Hrun as ->. intros [= <- <-].
    by rewrite dom_singleton_L.
  - unfold mbind at 1 2 3, M_bind at 1 2 3, bind at 1 2 3.
    destruct (_get_effective_embeddings self σ) as [[E|e] σ0] eqn:Hrun;
      [|done].
    pose proof (effective_Ok_self _ _ _ _ Hrun) as [l Hl].
    apply effective_frame in Hrun as ->.
    unfold mret, M_ret, ret. rewrite lookup_singleton_eq.
    unfold mbind, M_bind, bind, getattr. rewrite Hl.
    by destruct (sparse l).
Qed.

(** X9. For a layer object as [__init__] makes them, [from_config] of
    its [get_config] succeeds and creates a new layer object with the
    same constructor arguments and the same scaling factor, not built
    and without weights, whatever the state of the original, which is
    left as it was; no variable is created. *)
Theorem config_round_trip σ self (l : DoRAEmbedding T) :
  objs σ !! self = Some l →
  (0 < input_dim l)%Z → (0 < output_dim l)%Z → (0 < rank l)%Z →
  s_leb (alpha l) s_zero = false →
  scaling l = s_div (alpha l) (s_of_Z (rank l)) →
  ∃ c o,
    get_config self σ = (Ok c, σ)
    ∧ from_config c σ
      = (Ok o,
         with_object σ o
           (set_built
              (set_magnitude
                 (set_lora_b
                    (set_lora_a (set_embeddings l None) None) None) None)
              false))
    ∧ o ∉ dom (objs σ).
Proof.
  intros Hself Hid Hod Hrk Hal Hsc. eexists _, _.
  split; [unfold get_config, mbind, M_bind, bind, getattr;
          by rewrite Hself|].
  split; [|apply is_fresh].
  unfold from_config, __init__. simpl.
  rewrite !(proj2 (Z.leb_gt _ _)) by done. rewrite Hal.
  unfold new_object, with_object. do 3 f_equal.
  unfold attributes, set_built, set_magnitude, set_lora_b, set_lora_a,
    set_embeddings. simpl. rewrite <- Hsc. by destruct l.
Qed.
End Derived.

(** ** The properties above on the concrete binary32 layers *)

Lemma new_layer_is_built_witness :
  ∃ x σ' e a b mg W0 A B m,
    (x ← __init__ 2 3 4 (F32.of_Z 1) Uniform HeUniform Zeros Ones
           false None false "embedding";
     build x;; mret x) empty_world = (Ok x, σ')
    ∧ (x ∉ dom (objs empty_world))
    ∧ Forall (λ v, v ∉ dom (vars empty_world)) [e; a; b; mg]
    ∧ built_layer σ' x
        (built_attributes
           (attributes 2 3 4 (F32.of_Z 1) Uniform HeUniform Zeros Ones
              false None false "embedding") e a b mg) W0 A B m
    ∧ (Zeros = Zeros → B = ops.zeros (Z.to_nat 4) (Z.to_nat 3))
    ∧ (Ones = Ones → m = replicate (Z.to_nat 3) s_one)
    ∧ preserves empty_world σ'.
Proof.
  apply (new_layer_is_built empty_world 2 3 4 (F32.of_Z 1)
           Uniform HeUniform Zeros Ones false None false "embedding");
    [lia|lia|lia|by vm_compute].
Defined.

Lemma demo_in_range :
  in_range (Z.to_nat (input_dim demo_layer)) (Ixs [Ixs [Ix 1; Ix 0]]).
Proof.
  repeat first
    [ apply in_range_Ixs | apply Forall_cons_2 | apply Forall_nil_2
    | apply in_range_Ix; simpl; lia ].
Qed.

(** Rows 1 and 0 of the 2x3 layer, as a batch of one sequence. *)
Lemma call_looks_up_effective_rows_witness :
  ∃ E out,
    get_effective_embeddings 0 demo_world = (Ok E, demo_world)
    ∧ call 0 (Ixs [Ixs [Ix 1; Ix 0]]) demo_world = (Ok out, demo_world)
    ∧ ∀ pos i, index_at (Ixs [Ixs [Ix 1; Ix 0]]) pos = Some i →
               row_at out pos = E !! Z.to_nat i
               ∧ is_Some (E !! Z.to_nat i).
Proof.
  exact (call_looks_up_effective_rows demo_world 0 demo_layer
           demo_W0 demo_A demo_B demo_m (Ixs [Ixs [Ix 1; Ix 0]])
           demo_built demo_in_range).
Defined.

Lemma call_has_computed_output_shape_witness :
  ∃ out,
    call 0 (Ixs [Ixs [Ix 1; Ix 0]]) demo_world = (Ok out, demo_world)
    ∧ ndarray_shape [1; 2] 3 out
    ∧ compute_output_shape 0 [Some 1; Some 2]%Z demo_world
      = (Ok [Some 1; Some 2; Some 3]%Z, demo_world).
Proof.
  apply (call_has_computed_output_shape demo_world 0 demo_layer
           demo_W0 demo_A demo_B demo_m (Ixs [Ixs [Ix 1; Ix 0]]) [1; 2]
           demo_built demo_in_range).
  simpl. by repeat constructor.
Defined.

(** The inputs [[1, 2, 0], [3, 0, 4]] on a layer with [mask_zero]. *)
Lemma compute_mask_marks_index_zero_witness :
  ∃ mk,
    compute_mask 0 (Ixs [Ixs [Ix 1; Ix 2; Ix 0]; Ixs [Ix 3; Ix 0; Ix 4]])
      masking_world = (Ok (Some mk), masking_world)
    ∧ (∀ s, indices_shape s
              (Ixs [Ixs [Ix 1; Ix 2; Ix 0]; Ixs [Ix 3; Ix 0; Ix 4]]) →
            mask_shape s mk)
    ∧ ∀ pos, mask_at mk pos
             = (λ i, negb (i =? 0)%Z)
                 <$> index_at
                       (Ixs [Ixs [Ix 1; Ix 2; Ix 0]; Ixs [Ix 3; Ix 0; Ix 4]])
                       pos.
Proof.
  destruct (compute_mask_marks_index_zero masking_world 0 masking_layer
              (Ixs [Ixs [Ix 1; Ix 2; Ix 0]; Ixs [Ix 3; Ix 0; Ix 4]]))
    as [_ Hmask]; [reflexivity|].
  by apply Hmask.
Defined.

Lemma count_params_counts_dora_parameters_witness :
  ∃ d a b mg,
    get_dora_parameters 0 demo_world = (Ok d, demo_world)
    ∧ dom d = {[ "lora_a"; "lora_b"; "magnitude" ]}
    ∧ d !! "lora_a" = Some (lora_a demo_layer) ∧ lora_a demo_layer = Some a
    ∧ d !! "lora_b" = Some (lora_b demo_layer) ∧ lora_b demo_layer = Some b
    ∧ d !! "magnitude" = Some (magnitude demo_layer)
    ∧ magnitude demo_layer = Some mg
    ∧ vars demo_world !! a = Some (Tensor2 demo_A)
    ∧ vars demo_world !! b = Some (Tensor2 demo_B)
    ∧ vars demo_world !! mg = Some (Tensor1 demo_m)
    ∧ count_params 0 demo_world
      = (Ok (Z.of_nat (size (Tensor2 demo_A) + size (Tensor2 demo_B)
                       + size (Tensor1 demo_m))), demo_world).
Proof.
  exact (count_params_counts_dora_parameters demo_world 0 demo_layer
           demo_W0 demo_A demo_B demo_m demo_built).
Defined.

Lemma dora_parameters_are_the_variables_witness :
  ∃ d a b mg σ',
    get_dora_parameters 0 demo_world = (Ok d, demo_world)
    ∧ d !! "lora_a" = Some (Some a)
    ∧ d !! "lora_b" = Some (Some b)
    ∧ d !! "magnitude" = Some (Some mg)
    ∧ (assign a (Tensor2 demo_A);; assign b (Tensor2 (ops.ones 4 3));;
       assign mg (Tensor1 (replicate 3 (F32.of_Z 2)))) demo_world
      = (Ok (), σ')
    ∧ built_layer σ' 0 demo_layer demo_W0 demo_A (ops.ones 4 3)
        (replicate 3 (F32.of_Z 2))
    ∧ get_effective_embeddings 0 σ'
      = (Ok (dora_embeddings demo_W0 demo_A (ops.ones 4 3)
               (replicate 3 (F32.of_Z 2)) (scaling demo_layer)), σ').
Proof.
  apply (dora_parameters_are_the_variables demo_world 0 demo_layer
           demo_W0 demo_A demo_B demo_m demo_A (ops.ones 4 3)
           (replicate 3 (F32.of_Z 2)) demo_built).
  - split; [reflexivity|]. by repeat constructor.
  - split; [reflexivity|]. by repeat constructor.
  - reflexivity.
Defined.

(** The configuration of the built 2x3 layer gives an unbuilt one. *)
Lemma config_round_trip_witness :
  ∃ c o,
    get_config 0 demo_world = (Ok c, demo_world)
    ∧ from_config c demo_world
      = (Ok o,
         with_object demo_world o
           (set_built
              (set_magnitude
                 (set_lora_b
                    (set_lora_a (set_embeddings demo_layer None) None) None)
                 None)
              false))
    ∧ o ∉ dom (objs demo_world).
Proof.
  apply (config_round_trip demo_world 0 demo_layer);
    [reflexivity|simpl; lia|simpl; lia|simpl; lia|by vm_compute|reflexivity].
Defined.

(** ** Loading, converting, expanding *)

Section Transfer.
Context {T : Type} `{Scalar T}.
Implicit Types σ : world T.

(** X10. On a built layer, [load_pretrained_embeddings] with a matrix of
    the layer's shape succeeds: the frozen table becomes that matrix and
    the magnitude becomes its column norms, whatever the magnitude was;
    [A] and [B] stay as they are. No variable is created, no layer object
    changes, and every variable other than the table and the magnitude
    keeps its value. *)
Theorem load_pretrained_replaces_table_and_magnitude σ self l W0 A B m P :
  built_layer σ self l W0 A B m →
  has_shape (Z.to_nat (input_dim l)) (Z.to_nat (output_dim l)) P →
  ∃ σ',
    load_pretrained_embeddings self P σ = (Ok (), σ')
    ∧ built_layer σ' self l P A B (np.linalg_norm_axis0 P)
    ∧ objs σ' = objs σ
    ∧ dom (vars σ') = dom (vars σ)
    ∧ ∀ v, embeddings l ≠ Some v → magnitude l ≠ Some v →
           vars σ' !! v = vars σ !! v.
Proof.
  intros Hbl HP.
  cut (wp (load_pretrained_embeddings self P) σ (λ r σ',
         r = Ok ()
         ∧ built_layer σ' self l P A B (np.linalg_norm_axis0 P)
         ∧ objs σ' = objs σ
         ∧ dom (vars σ') = dom (vars σ)
         ∧ ∀ v, embeddings l ≠ Some v → magnitude l ≠ Some v →
                vars σ' !! v = vars σ !! v)).
  { unfold wp. destruct (load_pretrained_embeddings self P σ) as [r σ'].
    simpl. intros (-> & Hrest). by exists σ'. }
  by apply (wp_load_pretrained_embeddings σ self l W0 A B m P).
Qed.

(** [convert_embedding_to_dora] on a built [Embedding], with the layer
    object it makes and the variables it creates. *)
Lemma wp_convert_embedding_to_dora_new σ (e : layers.Embedding) rk al w W Φ :
  layers.built e = true →
  layers.embeddings e = Some w →
  vars σ !! w = Some (Tensor2 W) →
  has_shape (Z.to_nat (layers.input_dim e)) (Z.to_nat (layers.output_dim e)) W →
  (0 < layers.input_dim e)%Z → (0 < layers.output_dim e)%Z →
  (0 < rk)%Z → s_leb al s_zero = false →
  (∀ σ' d v a b mg A,
     preserves σ σ' →
     d ∉ dom (objs σ) →
     Forall (λ u, u ∉ dom (vars σ)) [v; a; b; mg] →
     built_layer σ' d
       (built_attributes
          (attributes (layers.input_dim e) (layers.output_dim e) rk al
             (layers.embeddings_initializer e) HeUniform Zeros Ones
             (layers.mask_zero e) (layers.input_length e) false
             (layers.name e +:+ "_dora")) v a b mg)
       W A
       (ops.zeros (Z.to_nat rk) (Z.to_nat (layers.output_dim e)))
       (np.linalg_norm_axis0 W) →
     Φ (Ok d) σ') →
  wp (convert_embedding_to_dora e rk al) σ Φ.
Proof.
  intros Hblt Hw HWv HW Hid Hod Hrk Hal HΦ.
  unfold convert_embedding_to_dora.
  apply wp_bind, wp_init; [done..|]. intros d Hd. cbv beta iota.
  rewrite Hblt. apply wp_bind.
  eapply wp_build; [simpl; apply lookup_insert_eq|]. simpl.
  intros v a b mg E0 A0 B0 m0 p HE0 HA0 HB0 Hm0 HBz Hv Ha Hb Hmg Hnd.
  rewrite insert_insert_eq. specialize (HBz eq_refl). subst B0.
  rewrite Hw. apply wp_bind, (wp_matrix_of _ W).
  { simpl. rewrite lookup_insert4_old; eauto using lookup_dom. }
  pose proof Hnd as Hnd'.
  apply NoDup_4 in Hnd' as (Hva & Hvb & Hvm & Hab & Ham & Hbm).
  apply wp_bind.
  match goal with
  | |- context [<[d := ?lx]> _] =>
      apply (wp_load_pretrained_embeddings _ _ lx E0 A0
               (ops.zeros (Z.to_nat rk) (Z.to_nat (layers.output_dim e))) m0)
  end.
  { apply (built_layer_intro _ _ _ v a b mg);
      unfold built_attributes, attributes; simpl; try done.
    - apply lookup_insert_eq.
    - rewrite !lookup_insert_ne by done. apply lookup_insert_eq.
    - rewrite !lookup_insert_ne by done. apply lookup_insert_eq.
    - rewrite !lookup_insert_ne by done. apply lookup_insert_eq.
    - apply lookup_insert_eq. }
  { done. }
  intros σ' Hbl Hobjs Hdom Hvars. apply wp_ret.
  assert (preserves σ σ') as Hpres.
  { split.
    - intros u Hu. rewrite Hvars; simpl.
      + by apply lookup_insert4_old.
      + intros [= <-]. done.
      + intros [= <-]. done.
    - intros o Ho. rewrite Hobjs. simpl.
      rewrite lookup_insert_ne; [done|by eapply fresh_ne]. }
  apply (HΦ _ _ v a b mg A0 Hpres Hd); [by repeat constructor|done].
Qed.

(** X11. Converting a built [Embedding] whose variable holds a table
    [W] of its shape succeeds. The new layer takes [input_dim],
    [output_dim], the embeddings initialiser, [mask_zero] and
    [input_length] from the [Embedding], has the default LoRA and
    magnitude initialisers, [sparse = False] and the name of the
    [Embedding] followed by [_dora]. It is built on four variables that
    did not exist before: the table is a copy, not the variable of the
    [Embedding], which still holds [W] afterwards, like every other
    variable and layer object that existed. *)
Theorem convert_copies_the_table σ (e : layers.Embedding) rk al w W :
  layers.built e = true →
  layers.embeddings e = Some w →
  vars σ !! w = Some (Tensor2 W) →
  has_shape (Z.to_nat (layers.input_dim e)) (Z.to_nat (layers.output_dim e)) W →
  (0 < layers.input_dim e)%Z → (0 < layers.output_dim e)%Z →
  (0 < rk)%Z → s_leb al s_zero = false →
  ∃ d σ' v a b mg A,
    convert_embedding_to_dora e rk al σ = (Ok d, σ')
    ∧ (d ∉ dom (objs σ))
    ∧ Forall (λ u, (u ∉ dom (vars σ)) ∧ u ≠ w) [v; a; b; mg]
    ∧ built_layer σ' d
        (built_attributes
           (attributes (layers.input_dim e) (layers.output_dim e) rk al
              (layers.embeddings_initializer e) HeUniform Zeros Ones
              (layers.mask_zero e) (layers.input_length e) false
              (layers.name e +:+ "_dora")) v a b mg)
        W A
        (ops.zeros (Z.to_nat rk) (Z.to_nat (layers.output_dim e)))
        (np.linalg_norm_axis0 W)
    ∧ vars σ' !! w = Some (Tensor2 W)
    ∧ preserves σ σ'.
Proof.
  intros Hblt Hw HWv HW Hid Hod Hrk Hal.
  cut (wp (convert_embedding_to_dora e rk al) σ (λ r σ',
         ∃ d v a b mg A,
           r = Ok d
           ∧ (d ∉ dom (objs σ))
           ∧ Forall (λ u, (u ∉ dom (vars σ)) ∧ u ≠ w) [v; a; b; mg]
           ∧ built_layer σ' d
               (built_attributes
                  (attributes (layers.input_dim e) (layers.output_dim e)
                     rk al (layers.embeddings_initializer e) HeUniform
                     Zeros Ones (layers.mask_zero e)
                     (layers.input_length e) false
                     (layers.name e +:+ "_dora")) v a b mg)
               W A
               (ops.zeros (Z.to_nat rk) (Z.to_nat (layers.output_dim e)))
               (np.linalg_norm_axis0 W)
           ∧ vars σ' !! w = Some (Tensor2 W)
           ∧ preserves σ σ')).
  { unfold wp. destruct (convert_embedding_to_dora e rk al σ) as [r σ'].
    simpl. intros (d & v & a & b & mg & A & -> & Hrest).
    by exists d, σ', v, a, b, mg, A. }
  apply (wp_convert_embedding_to_dora_new σ e rk al w W); try done.
  intros σ' d v a b mg A Hpres Hd Hnew Hbl.
  exists d, v, a, b, mg, A. split; [done|]. split; [done|].
  split; [|split; [done|split; [|done]]].
  - eapply Forall_impl; [exact Hnew|]. intros u Hu. simpl in Hu.
    split; [done|]. intros ->. apply Hu. by eapply lookup_dom.
  - destruct Hpres as [Hvars _]. rewrite Hvars; [done|by eapply lookup_dom].
Qed.

(** X12. Converting an [Embedding] that is not built succeeds without
    building anything: the new layer object has the configuration of the
    [Embedding], is not built and has no weights, no variable is
    created, and its effective matrix cannot be computed. *)
Theorem convert_unbuilt_embedding σ (e : layers.Embedding) rk (al : T) :
  layers.built e = false →
  (0 < layers.input_dim e)%Z → (0 < layers.output_dim e)%Z →
  (0 < rk)%Z → s_leb al s_zero = false →
  ∃ d σ',
    convert_embedding_to_dora e rk al σ = (Ok d, σ')
    ∧ (d ∉ dom (objs σ))
    ∧ σ' = with_object σ d
             (attributes (layers.input_dim e) (layers.output_dim e) rk al
                (layers.embeddings_initializer e) HeUniform Zeros Ones
                (layers.mask_zero e) (layers.input_length e) false
                (layers.name e +:+ "_dora"))
    ∧ get_effective_embeddings d σ' = (Raise NoneWeight, σ').
Proof.
  intros Hblt Hid Hod Hrk Hal. eexists _, _.
  split; [|split; [apply is_fresh|split; [reflexivity|]]].
  - unfold convert_embedding_to_dora, __init__.
    rewrite !(proj2 (Z.leb_gt _ _)) by done. rewrite Hal, Hblt.
    reflexivity.
  - eapply run_get_effective_embeddings_unbuilt;
      [simpl; apply lookup_insert_eq|done].
Qed.

(** X13. The layer [expand_vocabulary] returns has the new
    [input_dim] and otherwise the configuration of the original:
    [output_dim], [rank], [alpha], the scaling factor, the four
    initialisers, [mask_zero], [input_length] and [sparse]; its name is
    the original name followed by [_expanded]. *)
Theorem expand_vocabulary_inherits_configuration σ self l W0 A B m n emb :
  built_layer σ self l W0 A B m →
  (input_dim l < n)%Z →
  (∀ X, emb = Some X →
        has_shape (Z.to_nat (n - input_dim l)) (Z.to_nat (output_dim l)) X) →
  ∃ x σ' lx,
    expand_vocabulary self n emb σ = (Ok x, σ')
    ∧ objs σ' !! x = Some lx
    ∧ input_dim lx = n
    ∧ output_dim lx = output_dim l
    ∧ rank lx = rank l
    ∧ alpha lx = alpha l
    ∧ scaling lx = scaling l
    ∧ embeddings_initializer lx = embeddings_initializer l
    ∧ lora_a_initializer lx = lora_a_initializer l
    ∧ lora_b_initializer lx = lora_b_initializer l
    ∧ magnitude_initializer lx = magnitude_initializer l
    ∧ mask_zero lx = mask_zero l
    ∧ input_length lx = input_length l
    ∧ sparse lx = sparse l
    ∧ name lx = name l +:+ "_expanded"
    ∧ built lx = true.
Proof.
  intros Hbl Hn Hemb.
  cut (wp (expand_vocabulary self n emb) σ (λ r σ',
         ∃ x lx,
           r = Ok x
           ∧ objs σ' !! x = Some lx
           ∧ input_dim lx = n
           ∧ output_dim lx = output_dim l
           ∧ rank lx = rank l
           ∧ alpha lx = alpha l
           ∧ scaling lx = scaling l
           ∧ embeddings_initializer lx = embeddings_initializer l
           ∧ lora_a_initializer lx = lora_a_initializer l
           ∧ lora_b_initializer lx = lora_b_initializer l
           ∧ magnitude_initializer lx = magnitude_initializer l
           ∧ mask_zero lx = mask_zero l
           ∧ input_length lx = input_length l
           ∧ sparse lx = sparse l
           ∧ name lx = name l +:+ "_expanded"
           ∧ built lx = true)).
  { unfold wp. destruct (expand_vocabulary self n emb σ) as [r σ'].
    simpl. intros (x & lx & -> & Hrest). by exists x, σ', lx. }
  apply (wp_expand_vocabulary σ self l W0 A B m n Hbl Hn emb); [done|].
  intros σ' x lx N Na _ _ _ Hblx Hlx _ _ _.
  exists x, lx. split; [done|]. split; [apply Hblx|].
  rewrite Hlx. simpl. repeat split; try done.
  symmetry. apply Hbl.
Qed.

(** X22. The layer [expand_vocabulary] returns accepts the new token
    ids: on it, [call] succeeds for every index tensor whose indices are
    below the new vocabulary size, leaves the world as it was, and
    returns a tensor of the shape of the indices followed by
    [output_dim]. *)
Theorem expanded_layer_looks_up_new_tokens σ self l W0 A B m n emb inputs :
  built_layer σ self l W0 A B m →
  (input_dim l < n)%Z →
  (∀ X, emb = Some X →
        has_shape (Z.to_nat (n - input_dim l)) (Z.to_nat (output_dim l)) X) →
  in_range (Z.to_nat n) inputs →
  ∃ x σ' out,
    expand_vocabulary self n emb σ = (Ok x, σ')
    ∧ call x inputs σ' = (Ok out, σ')
    ∧ ∀ s, indices_shape s inputs →
           ndarray_shape s (Z.to_nat (output_dim l)) out.
Proof.
  intros Hbl Hn Hemb Hin.
  cut (wp (expand_vocabulary self n emb) σ (λ r σ',
         ∃ x out,
           r = Ok x
           ∧ call x inputs σ' = (Ok out, σ')
           ∧ ∀ s, indices_shape s inputs →
                  ndarray_shape s (Z.to_nat (output_dim l)) out)).
  { unfold wp. destruct (expand_vocabulary self n emb σ) as [r σ'].
    simpl. intros (x & out & -> & Hrest). by exists x, σ', out. }
  apply (wp_expand_vocabulary σ self l W0 A B m n Hbl Hn emb); [done|].
  intros σ' x lx N Na _ _ _ Hblx Hlx _ _ _.
  assert (input_dim lx = n ∧ output_dim lx = output_dim l) as [Hidx Hodx].
  { rewrite Hlx. by simpl. }
  rewrite <- Hidx in Hin.
  destruct (run_call_in_range _ _ _ _ _ _ _ _ Hblx Hin)
    as (out & Hout & Hcall & HE).
  exists x, out. split; [done|]. split; [done|].
  intros s Hs. rewrite <- Hodx. by eapply take_shape.
Qed.
End Transfer.

(** A 2x3 table loaded into the 2x3 layer. *)
Lemma load_pretrained_replaces_table_and_magnitude_witness :
  ∃ σ',
    load_pretrained_embeddings 0
      [F32.of_Z <$> [3; 0; 5]; F32.of_Z <$> [4; 0; 12]]%Z demo_world
    = (Ok (), σ')
    ∧ built_layer σ' 0 demo_layer
        [F32.of_Z <$> [3; 0; 5]; F32.of_Z <$> [4; 0; 12]]%Z demo_A demo_B
        (np.linalg_norm_axis0
           [F32.of_Z <$> [3; 0; 5]; F32.of_Z <$> [4; 0; 12]]%Z)
    ∧ objs σ' = objs demo_world
    ∧ dom (vars σ') = dom (vars demo_world)
    ∧ ∀ v, embeddings demo_layer ≠ Some v → magnitude demo_layer ≠ Some v →
           vars σ' !! v = vars demo_world !! v.
Proof.
  apply (load_pretrained_replaces_table_and_magnitude demo_world 0 demo_layer
           demo_W0 demo_A demo_B demo_m
           [F32.of_Z <$> [3; 0; 5]; F32.of_Z <$> [4; 0; 12]]%Z demo_built).
  split; [reflexivity|]. by repeat constructor.
Defined.

Lemma expand_vocabulary_inherits_configuration_witness :
  ∃ x σ' lx,
    expand_vocabulary 0 5 None demo_world = (Ok x, σ')
    ∧ objs σ' !! x = Some lx
    ∧ input_dim lx = 5%Z
    ∧ output_dim lx = output_dim demo_layer
    ∧ rank lx = rank demo_layer
    ∧ alpha lx = alpha demo_layer
    ∧ scaling lx = scaling demo_layer
    ∧ embeddings_initializer lx = embeddings_initializer demo_layer
    ∧ lora_a_initializer lx = lora_a_initializer demo_layer
    ∧ lora_b_initializer lx = lora_b_initializer demo_layer
    ∧ magnitude_initializer lx = magnitude_initializer demo_layer
    ∧ mask_zero lx = mask_zero demo_layer
    ∧ input_length lx = input_length demo_layer
    ∧ sparse lx = sparse demo_layer
    ∧ name lx = name demo_layer +:+ "_expanded"
    ∧ built lx = true.
Proof.
  apply (expand_vocabulary_inherits_configuration demo_world 0 demo_layer
           demo_W0 demo_A demo_B demo_m 5 None demo_built);
    [simpl; lia|by intros X [=]].
Defined.

(** A built 2x3 [Embedding] with [mask_zero], converted with rank 4. *)
Lemma convert_copies_the_table_witness :
  ∃ d σ' v a b mg A,
    convert_embedding_to_dora demo_embedding 4 (F32.of_Z 2) embedding_world
    = (Ok d, σ')
    ∧ (d ∉ dom (objs embedding_world))
    ∧ Forall (λ u, (u ∉ dom (vars embedding_world)) ∧ u ≠ 0) [v; a; b; mg]
    ∧ built_layer σ' d
        (built_attributes
           (attributes 2 3 4 (F32.of_Z 2) Uniform HeUniform Zeros Ones
              true None false "tokens_dora") v a b mg)
        demo_W0 A (ops.zeros 4 3) (np.linalg_norm_axis0 demo_W0)
    ∧ vars σ' !! 0 = Some (Tensor2 demo_W0)
    ∧ preserves embedding_world σ'.
Proof.
  apply (convert_copies_the_table embedding_world demo_embedding 4
           (F32.of_Z 2) 0 demo_W0);
    try reflexivity; try (simpl; lia).
  split; [reflexivity|]. by repeat constructor.
Defined.

(** [Embedding(input_dim=200, output_dim=64)] before it is built. *)
Lemma convert_unbuilt_embedding_witness :
  ∃ d σ',
    convert_embedding_to_dora unbuilt_embedding 4 (F32.of_Z 1) empty_world
    = (Ok d, σ')
    ∧ (d ∉ dom (objs empty_world))
    ∧ σ' = with_object empty_world d
             (attributes 200 64 4 (F32.of_Z 1) Uniform HeUniform Zeros Ones
                false None false "tokens_dora")
    ∧ get_effective_embeddings d σ' = (Raise NoneWeight, σ').
Proof.
  apply (convert_unbuilt_embedding empty_world unbuilt_embedding 4
           (F32.of_Z 1));
    try reflexivity; simpl; lia.
Defined.

(** The 2x3 layer grown to 5 rows, asked for tokens 4 and 0. *)
Lemma expanded_layer_looks_up_new_tokens_witness :
  ∃ x σ' out,
    expand_vocabulary 0 5 None demo_world = (Ok x, σ')
    ∧ call x (Ixs [Ix 4; Ix 0]) σ' = (Ok out, σ')
    ∧ ∀ s, indices_shape s (Ixs [Ix 4; Ix 0]) →
           ndarray_shape s (Z.to_nat (output_dim demo_layer)) out.
Proof.
  apply (expanded_layer_looks_up_new_tokens demo_world 0 demo_layer
           demo_W0 demo_A demo_B demo_m 5 None (Ixs [Ix 4; Ix 0]) demo_built).
  - simpl. lia.
  - by intros X [=].
  - repeat first
      [ apply in_range_Ixs | apply Forall_cons_2 | apply Forall_nil_2
      | apply in_range_Ix; simpl; lia ].
Defined.

(** ** Exact arithmetic: untrained layers and expanded layers *)

Section Growth.
Open Scope R_scope.
Implicit Types X Y A B N : list (list R).
Implicit Types f : nat → R.

Lemma entry_app_l X Y i j :
  (i < length X)%nat → entry (X ++ Y) i j = entry X i j.
Proof. intros Hi. unfold entry. by rewrite app_nth1. Qed.

Lemma foldr_Rplus_app (l1 l2 : list R) :
  foldr Rplus 0 (l1 ++ l2) = foldr Rplus 0 l1 + foldr Rplus 0 l2.
Proof. induction l1 as [|x l1 IH]; simpl; [lra|rewrite IH; lra]. Qed.


Section Rows.
Variables (r q c k : nat) (W0 A B N Na : list (list R)) (m : list R) (s : R).
Hypothesis HW0 : has_shape r c W0.
Hypothesis HA : has_shape r k A.



End Rows.

End Growth.

Section GrowthTheorems.
Open Scope R_scope.


End GrowthTheorems.



(** ** The position embedding layer *)

Section Position.
Context {T : Type} `{Scalar T}.
Implicit Types σ : world T.
Implicit Types l : DoRAPositionEmbedding.t T.

Lemma stretch_same {U} (n : nat) (xs : list U) :
  length xs = n → ops.stretch n xs = Some xs.
Proof. intros Hn. unfold ops.stretch. by rewrite decide_True. Qed.

Lemma stretch_singleton {U} (n : nat) (x : U) :
  ops.stretch n [x] = Some (replicate n x).
Proof.
  unfold ops.stretch. destruct (decide (length [x] = n)) as [<-|]; done.
Qed.

Lemma broadcast_to_rows (rows : list (list T)) n c :
  length rows = n → Forall (λ v, length v = c) rows →
  ops.broadcast_to (Stack (Row <$> rows)) [n; c]
  = Some (Stack (Row <$> rows)).
Proof.
  intros Hn Hc. simpl.
  assert (mapM (λ y, ops.broadcast_to y [c]) (Row <$> rows)
          = Some (Row <$> rows)) as ->.
  { apply mapM_Some. apply Forall2_fmap_l, Forall2_fmap_r.
    apply Forall_Forall2_diag. eapply Forall_impl; [exact Hc|].
    intros v Hv. simpl. by rewrite stretch_same. }
  by rewrite stretch_same by (by rewrite length_fmap).
Qed.

(** The table bound for the clipped positions. *)
Lemma clip_in_table (p L : Z) :
  (0 < L)%Z → (0 ≤ Z.min (Z.max p 0) (L - 1) < L)%Z.
Proof. lia. Qed.

Lemma take_positions (E : list (list T)) (positions : list Z) :
  Forall (λ p, 0 ≤ p < Z.of_nat (length E))%Z positions →
  ops.take E (Ixs (Ix <$> positions))
  = Some (Stack (Row <$> ((λ p, nth (Z.to_nat p) E []) <$> positions))).
Proof.
  intros Hpos. apply take_Ixs. eexists. split; [done|].
  apply Forall2_fmap_l, Forall2_fmap_r, Forall2_fmap_r.
  apply Forall_Forall2_diag. eapply Forall_impl; [exact Hpos|].
  intros p Hp. simpl in *. destruct (Z.ltb_spec p 0) as [?|_]; [lia|].
  destruct (lookup_lt_is_Some_2 E (Z.to_nat p)) as [row Hrow]; [lia|].
  rewrite Hrow. simpl. by rewrite (nth_lookup_Some _ _ _ _ Hrow).
Qed.

(** On a built layer the method returns what the embedding layer
    computes from the same four tensors, and changes nothing. *)
Lemma run_get_effective_position_embeddings σ l P A B m :
  DoRAPositionEmbedding.built_position σ l P A B m →
  DoRAPositionEmbedding._get_effective_position_embeddings l σ
  = (Ok (dora_embeddings P A B m (DoRAPositionEmbedding.scaling l)), σ).
Proof.
  intros [_ _ _ (p & Hp & HPv) (a & Ha & HAv) (b & Hb & HBv)
            (mg & Hmg & Hmv) _ _ _ _].
  apply wp_run.
  unfold DoRAPositionEmbedding._get_effective_position_embeddings.
  rewrite Ha. apply wp_bind, (wp_matrix_of _ A); [done|].
  rewrite Hb. apply wp_bind, (wp_matrix_of _ B); [done|].
  rewrite Hp. apply wp_bind, (wp_matrix_of _ P); [done|].
  rewrite Hmg. apply wp_bind, (wp_vector_of _ m); [done|].
  by apply wp_ret.
Qed.

(** X16. On a built position layer,
    [_get_effective_position_embeddings] returns, leaving the world as
    it was, the matrix of the DoRA formula on the four stored tensors,
    entry by entry
    [(combined[i,j] / max(sqrt(Σ_i combined[i,j]^2), 1e-8)) * m[j]] with
    [combined = P + (A @ B) * scaling]; a built [DoRAEmbedding] holding
    the same four tensors with the same scaling factor has that very
    matrix as its effective matrix. *)
Theorem position_effective_matrix_formula σ l P A B m :
  DoRAPositionEmbedding.built_position σ l P A B m →
  DoRAPositionEmbedding._get_effective_position_embeddings l σ
  = (Ok (effective_matrix
           (Z.to_nat (DoRAPositionEmbedding.sequence_length l))
           (Z.to_nat (DoRAPositionEmbedding.output_dim l))
           (Z.to_nat (DoRAPositionEmbedding.rank l))
           P A B m (DoRAPositionEmbedding.scaling l)), σ)
  ∧ ∀ (σ2 : world T) self (e : DoRAEmbedding T),
      built_layer σ2 self e P A B m →
      scaling e = DoRAPositionEmbedding.scaling l →
      _get_effective_embeddings self σ2
      = (Ok (effective_matrix
               (Z.to_nat (DoRAPositionEmbedding.sequence_length l))
               (Z.to_nat (DoRAPositionEmbedding.output_dim l))
               (Z.to_nat (DoRAPositionEmbedding.rank l))
               P A B m (DoRAPositionEmbedding.scaling l)), σ2).
Proof.
  intros Hbp.
  rewrite (run_get_effective_position_embeddings _ _ _ _ _ _ Hbp).
  destruct Hbp as [Hsl Hod Hrk _ _ _ _ HP HA HB Hm].
  rewrite (dora_embeddings_effective_matrix _ _ _ _ _ _ _ _ HP HA HB Hm)
    by lia.
  split; [done|]. intros σ2 self e Hbl Hsc.
  rewrite (run_get_effective_embeddings _ _ _ _ _ _ _ Hbl), Hsc.
  by rewrite (dora_embeddings_effective_matrix _ _ _ _ _ _ _ _ HP HA HB Hm)
    by lia.
Qed.

(** [call] on a built layer, in terms of the effective matrix. *)
Lemma run_position_call σ l P A B m input_shape batch seq_len start_index :
  DoRAPositionEmbedding.built_position σ l P A B m →
  input_shape !! 0 = Some batch →
  DoRAPositionEmbedding.getitem_minus2 input_shape = Some seq_len →
  (- 2 ^ 31 ≤ start_index)%Z →
  (start_index + Z.of_nat seq_len ≤ 2 ^ 31)%Z →
  DoRAPositionEmbedding.call l input_shape start_index σ
  = (DoRAPositionEmbedding.Return
       (Stack
          (replicate batch
             (Stack
                ((λ t, Row
                         (nth
                            (Z.to_nat
                               (Z.min
                                  (Z.max (start_index + Z.of_nat t) 0)
                                  (DoRAPositionEmbedding.sequence_length l
                                   - 1)))
                            (dora_embeddings P A B m
                               (DoRAPositionEmbedding.scaling l)) []))
                   <$> seq 0 seq_len)))),
     σ).
Proof.
  intros Hbp Hbatch Hseq Hlo Hhi.
  pose proof (run_get_effective_position_embeddings _ _ _ _ _ _ Hbp) as Hrun.
  destruct Hbp as [Hsl Hod Hrk _ _ _ _ HP HA HB Hm].
  set (E := dora_embeddings P A B m (DoRAPositionEmbedding.scaling l)) in *.
  assert (has_shape (Z.to_nat (DoRAPositionEmbedding.sequence_length l))
            (Z.to_nat (DoRAPositionEmbedding.output_dim l)) E) as HE.
  { apply (has_shape_dora_embeddings _ _
             (Z.to_nat (DoRAPositionEmbedding.rank l))); auto; lia. }
  set (rows := (λ t, nth (Z.to_nat
                            (Z.min (Z.max (start_index + Z.of_nat t) 0)
                               (DoRAPositionEmbedding.sequence_length l - 1)))
                       E []) <$> seq 0 seq_len).
  assert (ops.arange start_index (start_index + Z.of_nat seq_len)
          = Some ((λ i, start_index + Z.of_nat i)%Z <$> seq 0 seq_len))
    as Harange.
  { unfold ops.arange.
    rewrite (proj2 (Z.leb_le _ _) Hlo), (proj2 (Z.leb_le _ _) Hhi). simpl.
    do 3 f_equal. lia. }
  assert (ops.take E
            (Ixs (Ix <$> ops.clip
                           ((λ i, start_index + Z.of_nat i)%Z <$> seq 0 seq_len)
                           0 (DoRAPositionEmbedding.sequence_length l - 1)))
          = Some (Stack (Row <$> rows))) as Htake.
  { rewrite take_positions.
    - unfold ops.clip, rows. by rewrite <- !list_fmap_compose.
    - unfold ops.clip. rewrite <- list_fmap_compose.
      apply Forall_fmap, Forall_forall. intros t _. simpl.
      destruct HE as [-> _]. lia. }
  assert (ops.broadcast_to (ops.expand_dims0 (Stack (Row <$> rows)))
            [batch; seq_len; Z.to_nat (DoRAPositionEmbedding.output_dim l)]
          = Some (Stack (replicate batch (Stack (Row <$> rows)))))
    as Hbroadcast.
  { unfold ops.expand_dims0.
    change (match mapM
                    (λ y, ops.broadcast_to y
                            [seq_len;
                             Z.to_nat (DoRAPositionEmbedding.output_dim l)])
                    [Stack (Row <$> rows)] with
            | Some l' => Stack <$> ops.stretch batch l'
            | None => None
            end = Some (Stack (replicate batch (Stack (Row <$> rows))))).
    assert (mapM
              (λ y, ops.broadcast_to y
                      [seq_len; Z.to_nat (DoRAPositionEmbedding.output_dim l)])
              [Stack (Row <$> rows)]
            = Some [Stack (Row <$> rows)]) as ->.
    { apply mapM_Some. constructor; [|constructor].
      apply broadcast_to_rows.
      - unfold rows. by rewrite length_fmap, length_seq.
      - unfold rows. apply Forall_fmap, Forall_forall. intros t _. simpl.
        destruct (lookup_lt_is_Some_2 E
                    (Z.to_nat
                       (Z.min (Z.max (start_index + Z.of_nat t) 0)
                          (DoRAPositionEmbedding.sequence_length l - 1))))
          as [row Hrow]; [destruct HE as [-> _]; lia|].
        rewrite (nth_lookup_Some _ _ _ _ Hrow).
        by eapply has_shape_row. }
    by rewrite stretch_singleton. }
  unfold DoRAPositionEmbedding.call, DoRAPositionEmbedding.and_then.
  rewrite Hseq. unfold DoRAPositionEmbedding.of_option at 1.
  unfold DoRAPositionEmbedding.pure at 1.
  unfold DoRAPositionEmbedding.lift. rewrite Hrun, Harange.
  unfold DoRAPositionEmbedding.of_option at 1.
  unfold DoRAPositionEmbedding.pure at 1.
  rewrite Htake. unfold DoRAPositionEmbedding.of_option at 1.
  unfold DoRAPositionEmbedding.pure at 1.
  rewrite Hbatch. unfold DoRAPositionEmbedding.of_option at 1.
  unfold DoRAPositionEmbedding.pure at 1.
  rewrite Hbroadcast. unfold rows. by rewrite <- list_fmap_compose.
Qed.

Lemma has_shape_position_effective σ l P A B m :
  DoRAPositionEmbedding.built_position σ l P A B m →
  has_shape (Z.to_nat (DoRAPositionEmbedding.sequence_length l))
    (Z.to_nat (DoRAPositionEmbedding.output_dim l))
    (dora_embeddings P A B m (DoRAPositionEmbedding.scaling l)).
Proof.
  intros [Hsl Hod Hrk _ _ _ _ HP HA HB Hm].
  apply (has_shape_dora_embeddings _ _
           (Z.to_nat (DoRAPositionEmbedding.rank l))); auto; lia.
Qed.

(** X17. On a built position layer, for an input of rank at least 2
    with [batch] as its first dimension and [seq_len] as its last but
    one, and a start index with [start_index + seq_len] within int32,
    [call] never fails and leaves the world as it was. It returns
    [batch] copies of [seq_len] rows: row [t] is the row of the
    effective position matrix at position [start_index + t] clipped to
    [0 .. sequence_length - 1], so positions before the table give its
    first row and positions past it give its last row. *)
Theorem position_call_clips_positions σ l P A B m input_shape batch seq_len
    start_index :
  DoRAPositionEmbedding.built_position σ l P A B m →
  input_shape !! 0 = Some batch →
  DoRAPositionEmbedding.getitem_minus2 input_shape = Some seq_len →
  (- 2 ^ 31 ≤ start_index)%Z →
  (start_index + Z.of_nat seq_len ≤ 2 ^ 31)%Z →
  ∃ E,
    DoRAPositionEmbedding._get_effective_position_embeddings l σ = (Ok E, σ)
    ∧ length E = Z.to_nat (DoRAPositionEmbedding.sequence_length l)
    ∧ DoRAPositionEmbedding.call l input_shape start_index σ
      = (DoRAPositionEmbedding.Return
           (Stack
              (replicate batch
                 (Stack
                    ((λ t, Row
                             (nth
                                (Z.to_nat
                                   (Z.min
                                      (Z.max (start_index + Z.of_nat t) 0)
                                      (DoRAPositionEmbedding.sequence_length l
                                       - 1)))
                                E []))
                       <$> seq 0 seq_len)))),
         σ).
Proof.
  intros Hbp Hbatch Hseq Hlo Hhi.
  exists (dora_embeddings P A B m (DoRAPositionEmbedding.scaling l)).
  split; [by apply run_get_effective_position_embeddings|].
  split; [by destruct (has_shape_position_effective _ _ _ _ _ _ Hbp)|].
  by eapply run_position_call.
Qed.

(** X18. On a built position layer, when the positions
    [start_index .. start_index + seq_len - 1] all lie in the table,
    [call] returns [batch] copies of that slice of the effective
    position matrix, row for row. *)
Theorem position_call_slices_table σ l P A B m input_shape batch seq_len
    start_index :
  DoRAPositionEmbedding.built_position σ l P A B m →
  input_shape !! 0 = Some batch →
  DoRAPositionEmbedding.getitem_minus2 input_shape = Some seq_len →
  (0 ≤ start_index)%Z →
  (start_index + Z.of_nat seq_len
   ≤ DoRAPositionEmbedding.sequence_length l)%Z →
  (DoRAPositionEmbedding.sequence_length l ≤ 2 ^ 31)%Z →
  ∃ E,
    DoRAPositionEmbedding._get_effective_position_embeddings l σ = (Ok E, σ)
    ∧ DoRAPositionEmbedding.call l input_shape start_index σ
      = (DoRAPositionEmbedding.Return
           (Stack
              (replicate batch
                 (Stack
                    (Row <$> take seq_len (drop (Z.to_nat start_index) E))))),
         σ).
Proof.
  intros Hbp Hbatch Hseq Hlo Hhi H32.
  exists (dora_embeddings P A B m (DoRAPositionEmbedding.scaling l)).
  split; [by apply run_get_effective_position_embeddings|].
  rewrite (run_position_call _ _ _ _ _ _ _ _ _ _ Hbp Hbatch Hseq) by lia.
  pose proof (has_shape_position_effective _ _ _ _ _ _ Hbp) as [HE _].
  set (E := dora_embeddings P A B m (DoRAPositionEmbedding.scaling l)) in *.
  assert ((λ t, Row
                  (nth
                     (Z.to_nat
                        (Z.min (Z.max (start_index + Z.of_nat t) 0)
                           (DoRAPositionEmbedding.sequence_length l - 1)))
                     E [])) <$> seq 0 seq_len
          = Row <$> take seq_len (drop (Z.to_nat start_index) E)) as ->;
    [|done].
  apply list_eq. intros t. rewrite !list_lookup_fmap.
  destruct (decide (t < seq_len)) as [Ht|Ht].
  - rewrite lookup_seq_lt by done. simpl.
    rewrite lookup_take_lt, lookup_drop by done.
    replace (Z.to_nat
               (Z.min (Z.max (start_index + Z.of_nat t) 0)
                  (DoRAPositionEmbedding.sequence_length l - 1)))
      with (Z.to_nat start_index + t) by lia.
    destruct (lookup_lt_is_Some_2 E (Z.to_nat start_index + t))
      as [row Hrow]; [lia|].
    by rewrite Hrow, (nth_lookup_Some _ _ _ _ Hrow).
  - rewrite lookup_seq_ge by lia. simpl.
    by rewrite lookup_take_ge by lia.
Qed.




(** X20. [DoRAPositionEmbedding.__init__] validates nothing. With
    [rank = 0] the quotient [alpha / rank] raises [ZeroDivisionError];
    with any other rank the object is made, whatever the sign of
    [sequence_length], [output_dim], [rank] and [alpha], with the
    scaling factor [alpha / rank]. A negative [sequence_length] or
    [output_dim] is refused only by [build], at the first weight, with
    the world left as it was. *)
Theorem position_layer_validates_nothing σ sl od rk (al : T) ini ai bi mi :
  (rk = 0%Z →
   DoRAPositionEmbedding.__init__ sl od rk al ini ai bi mi
   = DoRAPositionEmbedding.Throw DoRAPositionEmbedding.ZeroDivisionError)
  ∧ (rk ≠ 0%Z →
     ∃ l0,
       DoRAPositionEmbedding.__init__ sl od rk al ini ai bi mi
       = DoRAPositionEmbedding.Return l0
       ∧ DoRAPositionEmbedding.sequence_length l0 = sl
       ∧ DoRAPositionEmbedding.output_dim l0 = od
       ∧ DoRAPositionEmbedding.rank l0 = rk
       ∧ DoRAPositionEmbedding.alpha l0 = al
       ∧ DoRAPositionEmbedding.scaling l0 = s_div al (s_of_Z rk)
       ∧ DoRAPositionEmbedding.built l0 = false
       ∧ ((sl < 0 ∨ od < 0)%Z →
          DoRAPositionEmbedding.build l0 σ
          = (DoRAPositionEmbedding.Throw
               DoRAPositionEmbedding.NegativeDimension, σ))).
Proof.
  unfold DoRAPositionEmbedding.__init__. split.
  - by intros ->.
  - intros Hrk. rewrite (proj2 (Z.eqb_neq rk 0)) by done.
    eexists. split; [reflexivity|]. repeat split.
    intros Hneg.
    unfold DoRAPositionEmbedding.build, DoRAPositionEmbedding.and_then,
      DoRAPositionEmbedding.add_weight. simpl.
    destruct (Z.leb_spec 0 sl), (Z.leb_spec 0 od); try lia; done.
Qed.
End Position.

Lemma position_built :
  DoRAPositionEmbedding.built_position demo_world position_layer
    demo_W0 demo_A demo_B demo_m.
Proof.
  split; try reflexivity.
  - by exists 0.
  - by exists 1.
  - by exists 2.
  - by exists 3.
  - split; [reflexivity|]. by repeat constructor.
  - split; [reflexivity|]. by repeat constructor.
  - split; [reflexivity|]. by repeat constructor.
Qed.

Lemma position_effective_matrix_formula_witness :
  DoRAPositionEmbedding._get_effective_position_embeddings position_layer
    demo_world
  = (Ok (effective_matrix 2 3 4 demo_W0 demo_A demo_B demo_m
           (F32.div (F32.of_Z 1) (F32.of_Z 4))), demo_world)
  ∧ ∀ (σ2 : world spec_float) self (e : DoRAEmbedding spec_float),
      built_layer σ2 self e demo_W0 demo_A demo_B demo_m →
      scaling e = F32.div (F32.of_Z 1) (F32.of_Z 4) →
      _get_effective_embeddings self σ2
      = (Ok (effective_matrix 2 3 4 demo_W0 demo_A demo_B demo_m
               (F32.div (F32.of_Z 1) (F32.of_Z 4))), σ2).
Proof.
  exact (position_effective_matrix_formula demo_world position_layer
           demo_W0 demo_A demo_B demo_m position_built).
Defined.

(** A batch of 2 sequences of 5 positions on a table of 2 rows. *)
Lemma position_call_clips_positions_witness :
  ∃ E,
    DoRAPositionEmbedding._get_effective_position_embeddings position_layer
      demo_world = (Ok E, demo_world)
    ∧ length E = 2
    ∧ DoRAPositionEmbedding.call position_layer [2; 5; 3] 0 demo_world
      = (DoRAPositionEmbedding.Return
           (Stack
              (replicate 2
                 (Stack
                    ((λ t, Row
                             (nth
                                (Z.to_nat
                                   (Z.min (Z.max (0 + Z.of_nat t) 0) (2 - 1)))
                                E []))
                       <$> seq 0 5)))),
         demo_world).
Proof.
  apply (position_call_clips_positions demo_world position_layer
           demo_W0 demo_A demo_B demo_m [2; 5; 3] 2 5 0 position_built);
    [reflexivity|reflexivity|lia|lia].
Defined.

(** A batch of 3 sequences of 2 positions on the same table. *)
Lemma position_call_slices_table_witness :
  ∃ E,
    DoRAPositionEmbedding._get_effective_position_embeddings position_layer
      demo_world = (Ok E, demo_world)
    ∧ DoRAPositionEmbedding.call position_layer [3; 2; 3] 0 demo_world
      = (DoRAPositionEmbedding.Return
           (Stack (replicate 3 (Stack (Row <$> take 2 (drop (Z.to_nat 0) E))))),
         demo_world).
Proof.
  apply (position_call_slices_table demo_world position_layer
           demo_W0 demo_A demo_B demo_m [3; 2; 3] 3 2 0 position_built);
    [reflexivity|reflexivity|lia|simpl; lia|simpl; lia].
Defined.


(** ** Binary32: a NaN scaling factor *)

Section NaN.
Lemma F32_mul_nan_r (x : spec_float) : F32.mul x S754_nan = S754_nan.
Proof. by destruct x. Qed.

Lemma F32_add_nan_r (x : spec_float) : F32.add x S754_nan = S754_nan.
Proof. by destruct x. Qed.

Lemma spec_E_nan r k (W0 A B : list (list spec_float)) m i j :
  0 < r → spec_E r k W0 A B m S754_nan i j = S754_nan.
Proof.
  intros Hr. unfold spec_E, spec_norm.
  assert (∀ i', spec_combined k W0 A B S754_nan i' j = S754_nan) as Hc.
  { intros i'. unfold spec_combined, spec_delta. simpl.
    by rewrite F32_mul_nan_r, F32_add_nan_r. }
  by rewrite Hc.
Qed.

Lemma entry_replicate (r c : nat) (x : spec_float) i j :
  i < r → j < c → entry (replicate r (replicate c x)) i j = x.
Proof.
  intros Hi Hj. apply (entry_lookup _ _ _ (replicate c x));
    by apply lookup_replicate_2.
Qed.

(** X21. In binary32 a NaN [alpha] passes the validation of
    [__init__], whose test [alpha <= 0] is false for NaN: with positive
    dimensions and rank, [__init__] and [build] succeed, the scaling
    factor of the layer is NaN, and every entry of its effective matrix
    is NaN, whatever the weights are. *)
Theorem nan_alpha_passes_validation (σ : world spec_float)
    id od rk ei ai bi mi mz il sp nm :
  (0 < id)%Z → (0 < od)%Z → (0 < rk)%Z →
  ∃ x σ' l W0 A B m,
    (x ← __init__ id od rk S754_nan ei ai bi mi mz il sp nm;
     build x;; mret x) σ = (Ok x, σ')
    ∧ built_layer σ' x l W0 A B m
    ∧ alpha l = S754_nan
    ∧ scaling l = S754_nan
    ∧ get_effective_embeddings x σ'
      = (Ok (replicate (Z.to_nat id) (replicate (Z.to_nat od) S754_nan)),
         σ').
Proof.
  intros Hid Hod Hrk.
  cut (wp (x ← __init__ id od rk S754_nan ei ai bi mi mz il sp nm;
           build x;; mret x) σ
         (λ r σ', ∃ x l W0 A B m,
            r = Ok x
            ∧ built_layer σ' x l W0 A B m
            ∧ alpha l = S754_nan
            ∧ scaling l = S754_nan
            ∧ get_effective_embeddings x σ'
              = (Ok (replicate (Z.to_nat id)
                       (replicate (Z.to_nat od) S754_nan)), σ'))).
  { unfold wp.
    destruct ((x ← __init__ id od rk S754_nan ei ai bi mi mz il sp nm;
               build x;; mret x) σ) as [r σ']. simpl.
    intros (x & l & W0 & A & B & m & -> & Hrest).
    by exists x, σ', l, W0, A, B, m. }
  apply wp_init_build; [done..|].
  intros x σ' e a b mg W0 A B m _ _ Hbl _ _ _.
  eexists x, _, W0, A, B, m.
  split; [done|]. split; [exact Hbl|]. split; [done|]. split; [done|].
  unfold get_effective_embeddings.
  rewrite (run_get_effective_embeddings _ _ _ _ _ _ _ Hbl).
  destruct Hbl as [_ _ _ _ _ _ _ _ _ _ _ HW0 HA HB Hm _]. simpl in *.
  do 2 f_equal.
  apply (matrix_ext (Z.to_nat id) (Z.to_nat od)).
  - apply (has_shape_dora_embeddings _ _ (Z.to_nat rk)); auto; lia.
  - apply has_shape_replicate.
  - intros i j Hi Hj.
    rewrite (entry_dora_embeddings _ _ (Z.to_nat rk) _ _ _ _ _
               HW0 HA HB Hm) by lia.
    rewrite entry_replicate by done.
    change (scaling _) with S754_nan. apply spec_E_nan. lia.
Qed.
End NaN.

Lemma nan_alpha_passes_validation_witness :
  ∃ x σ' l W0 A B m,
    (x ← __init__ 2 3 4 S754_nan Uniform HeUniform Zeros Ones
           false None false "embedding";
     build x;; mret x) empty_world = (Ok x, σ')
    ∧ built_layer σ' x l W0 A B m
    ∧ alpha l = S754_nan
    ∧ scaling l = S754_nan
    ∧ get_effective_embeddings x σ'
      = (Ok (replicate (Z.to_nat 2) (replicate (Z.to_nat 3) S754_nan)), σ').
Proof.
  apply (nan_alpha_passes_validation empty_world 2 3 4
           Uniform HeUniform Zeros Ones false None false "embedding"); lia.
Defined.


(** ** Exact arithmetic: expansion by rows that weigh nothing *)

Section ZeroRows.
Open Scope R_scope.

Lemma big_sum_app r q (f : nat → R) :
  big_sum (r + q) f = big_sum r f + big_sum q (λ i, f (r + i)%nat).
Proof.
  unfold big_sum. rewrite seq_app, fmap_app, foldr_Rplus_app. f_equal.
  simpl. f_equal.
  assert (seq r q = Nat.add r <$> seq 0 q) as ->
      by (by rewrite fmap_add_seq, Nat.add_0_r).
  by rewrite <- list_fmap_compose.
Qed.

Lemma foldr_Rplus_zero (l : list nat) :
  foldr Rplus 0 ((λ _, 0) <$> l) = 0.
Proof.
  induction l as [|x l IH]; [done|].
  rewrite fmap_cons. simpl. rewrite IH. lra.
Qed.

Lemma big_sum_zero q (f : nat → R) :
  (∀ i, (i < q)%nat → f i = 0) → big_sum q f = 0.
Proof.
  intros Hf. rewrite (big_sum_ext q f (λ _, 0)) by done.
  exact (foldr_Rplus_zero _).
Qed.

Lemma entry_app_r (X Y : list (list R)) i j :
  entry (X ++ Y) (length X + i) j = entry Y i j.
Proof. unfold entry. by rewrite app_nth2_plus. Qed.

Lemma entry_take (X : list (list R)) r i j :
  (i < r)%nat → entry (take r X) i j = entry X i j.
Proof.
  intros Hi. unfold entry. f_equal.
  rewrite !nth_lookup. by rewrite lookup_take_lt.
Qed.

Lemma entry_drop (X : list (list R)) r i j :
  entry (drop r X) i j = entry X (r + i) j.
Proof. unfold entry. f_equal. rewrite !nth_lookup. by rewrite lookup_drop. Qed.

Lemma has_shape_take r q c (X : list (list R)) :
  has_shape (r + q) c X → has_shape r c (take r X).
Proof.
  intros [Hlen Hc]. split; [rewrite length_take; lia|].
  by apply Forall_take.
Qed.

Lemma has_shape_drop r q c (X : list (list R)) :
  has_shape (r + q) c X → has_shape q c (drop r X).
Proof.
  intros [Hlen Hc]. split; [rewrite length_drop; lia|].
  by apply Forall_drop.
Qed.

Section Rows.
Variables (r q c k : nat) (W0 A Na : list (list R)) (m : list R) (s : R).
Hypothesis HW0 : has_shape r c W0.

Lemma dense_norm_app_zeros j :
  dense_norm (r + q) (W0 ++ ops.zeros q c) j = dense_norm r W0 j.
Proof.
  unfold dense_norm. f_equal. rewrite big_sum_app.
  rewrite (big_sum_zero q).
  - rewrite Rplus_0_r. apply big_sum_ext. intros i Hi. cbv beta.
    by rewrite entry_app_l by (by destruct HW0 as [-> _]).
  - intros i Hi. cbv beta. destruct HW0 as [<- _].
    rewrite entry_app_r, entry_zeros. lra.
Qed.

Lemma spec_E_app_zeros_old i j :
  (i < r)%nat →
  spec_E (r + q) k (W0 ++ ops.zeros q c) (A ++ Na) (ops.zeros k c) m s i j
  = spec_E r k W0 A (ops.zeros k c) m s i j.
Proof.
  intros Hi. unfold spec_E.
  rewrite !spec_norm_raw, !raw_norm_zeros, !spec_combined_zeros.
  rewrite dense_norm_app_zeros.
  by rewrite entry_app_l by (by destruct HW0 as [-> _]).
Qed.

Lemma spec_E_app_zeros_new i j :
  spec_E (r + q) k (W0 ++ ops.zeros q c) (A ++ Na) (ops.zeros k c) m s
    (r + i) j = 0.
Proof.
  unfold spec_E. rewrite spec_combined_zeros.
  destruct HW0 as [<- _]. rewrite entry_app_r, entry_zeros.
  set (n := spec_norm _ _ _ _ _ _ _). set (g := nth j m s_zero).
  change (0 / n * g = 0). unfold Rdiv. lra.
Qed.
End Rows.

(** X23. In exact arithmetic, when the rows that are added weigh
    nothing, because [B] is zero and the supplied embeddings of the
    new tokens are zero, [expand_vocabulary] keeps the effective
    embeddings of the existing tokens exactly: the first rows of the
    new effective matrix are the old effective matrix, and the rows of
    the new tokens are zero. *)
Theorem expand_vocabulary_zero_rows_keep_old_rows (σ : world R)
    self l W0 A B m n :
  built_layer σ self l W0 A B m →
  (input_dim l < n)%Z →
  B = ops.zeros (Z.to_nat (rank l)) (Z.to_nat (output_dim l)) →
  ∃ x σ' E E',
    expand_vocabulary self n
      (Some (ops.zeros (Z.to_nat (n - input_dim l))
               (Z.to_nat (output_dim l)))) σ = (Ok x, σ')
    ∧ get_effective_embeddings self σ' = (Ok E, σ')
    ∧ get_effective_embeddings x σ' = (Ok E', σ')
    ∧ take (Z.to_nat (input_dim l)) E' = E
    ∧ drop (Z.to_nat (input_dim l)) E'
      = ops.zeros (Z.to_nat (n - input_dim l)) (Z.to_nat (output_dim l)).
Proof.
  intros Hbl Hn ->.
  set (q := Z.to_nat (n - input_dim l)).
  cut (wp (expand_vocabulary self n
             (Some (ops.zeros q (Z.to_nat (output_dim l))))) σ
         (λ r σ', ∃ x E E',
            r = Ok x
            ∧ get_effective_embeddings self σ' = (Ok E, σ')
            ∧ get_effective_embeddings x σ' = (Ok E', σ')
            ∧ take (Z.to_nat (input_dim l)) E' = E
            ∧ drop (Z.to_nat (input_dim l)) E'
              = ops.zeros q (Z.to_nat (output_dim l)))).
  { unfold wp.
    destruct (expand_vocabulary self n
                (Some (ops.zeros q (Z.to_nat (output_dim l)))) σ)
      as [r σ']. simpl.
    intros (x & E & E' & -> & Hrest). by exists x, σ', E, E'. }
  apply (wp_expand_vocabulary σ self l W0 A _ m n Hbl Hn).
  { intros X [= <-]. apply has_shape_replicate. }
  intros σ' x lx Nw Na Hpres _ _ Hblx Hlx HNw HNa HX.
  specialize (HX _ eq_refl). subst Nw.
  pose proof (built_layer_preserves _ _ _ _ _ _ _ _ Hbl Hpres) as Hbl'.
  assert (scaling lx = scaling l) as Hsc.
  { rewrite Hlx. simpl. symmetry. apply Hbl. }
  destruct Hbl as [_ _ Hid Hod Hrk _ _ _ _ _ _ HW0 HA HB Hm _].
  set (r := Z.to_nat (input_dim l)) in *.
  set (c := Z.to_nat (output_dim l)) in *.
  set (k := Z.to_nat (rank l)) in *.
  set (s := scaling l) in *.
  assert (0 < r)%nat as Hr by (unfold r; lia).
  assert (0 < k)%nat as Hk by (unfold k; lia).
  assert (has_shape (r + q) c (W0 ++ ops.zeros q c)) as HW0'
      by by apply has_shape_app.
  assert (has_shape (r + q) k (A ++ Na)) as HA' by by apply has_shape_app.
  pose proof (has_shape_dora_embeddings (r + q) c k _ _ _ m s
                HW0' HA' HB Hm) as HE'.
  exists x, (dora_embeddings W0 A (ops.zeros k c) m s),
    (dora_embeddings (W0 ++ ops.zeros q c) (A ++ Na) (ops.zeros k c) m s).
  split; [done|].
  split; [by apply run_get_effective_embeddings|].
  split.
  { unfold get_effective_embeddings.
    rewrite (run_get_effective_embeddings _ _ _ _ _ _ _ Hblx).
    by rewrite Hsc. }
  split.
  - apply (matrix_ext r c).
    + apply (has_shape_take r q). apply HE'; lia.
    + by apply (has_shape_dora_embeddings r c k).
    + intros i j Hi Hj. rewrite entry_take by done.
      rewrite (entry_dora_embeddings (r + q) c k _ _ _ _ _
                 HW0' HA' HB Hm) by lia.
      rewrite (entry_dora_embeddings r c k _ _ _ _ _ HW0 HA HB Hm) by lia.
      by apply spec_E_app_zeros_old.
  - apply (matrix_ext q c).
    + apply (has_shape_drop r q). apply HE'; lia.
    + apply has_shape_replicate.
    + intros i j Hi Hj. rewrite entry_drop.
      rewrite (entry_dora_embeddings (r + q) c k _ _ _ _ _
                 HW0' HA' HB Hm) by lia.
      rewrite entry_zeros. by apply spec_E_app_zeros_new.
Qed.
End ZeroRows.

(** The 1x1 layer with [W0 = [[3]]], [B = 0], grown by one zero row. *)
Lemma expand_vocabulary_zero_rows_keep_old_rows_witness :
  ∃ x σ' E E',
    expand_vocabulary 0 2
      (Some (ops.zeros (Z.to_nat (2 - input_dim unit_layer))
               (Z.to_nat (output_dim unit_layer)))) (unit_world 3 5 0 2)
    = (Ok x, σ')
    ∧ get_effective_embeddings 0 σ' = (Ok E, σ')
    ∧ get_effective_embeddings x σ' = (Ok E', σ')
    ∧ take (Z.to_nat (input_dim unit_layer)) E' = E
    ∧ drop (Z.to_nat (input_dim unit_layer)) E'
      = ops.zeros (Z.to_nat (2 - input_dim unit_layer))
          (Z.to_nat (output_dim unit_layer)).
Proof.
  apply (expand_vocabulary_zero_rows_keep_old_rows (unit_world 3 5 0 2) 0
           unit_layer [[3%R]] [[5%R]] [[0%R]] [2%R] 2 (unit_built 3 5 0 2));
    [simpl; lia|reflexivity].
Defined.
